(** * nano-vllm: the paged KV-cache block manager and its sequences

    A shallow embedding of [nanovllm/engine/sequence.py] and
    [nanovllm/engine/block_manager.py], and the properties of the
    prefix cache, the reference counts and the wire format of a
    sequence that the design document states about them.

    Python objects are mutable and exceptions leave the mutations done
    so far in place, so the methods live in a state-and-exception monad:
    a computation maps a state to a result (a value or the exception
    raised) and the state it leaves behind. *)

From Stdlib Require Import QArith_base.
From Stdlib Require String.
From stdpp Require Import gmap list.

Local Open Scope Z_scope.
Local Open Scope nat_scope.

(** ** Exceptions and the monad *)

Inductive exn : Type :=
  | AssertionError
  | IndexError
  | ValueError
  | KeyError
  | ZeroDivisionError.

Definition M (S A : Type) : Type := S → (exn + A) * S.

Global Instance M_ret {S} : MRet (M S) := λ A a s, (inr a, s).

Global Instance M_bind {S} : MBind (M S) := λ A B f m s,
  match m s with
  | (inl e, s') => (inl e, s')
  | (inr a, s') => f a s'
  end.

Definition raise {S A} (e : exn) : M S A := λ s, (inl e, s).
Definition gets {S A} (f : S → A) : M S A := λ s, (inr (f s), s).
Definition modify {S} (f : S → S) : M S unit := λ s, (inr tt, f s).

(** [assert c] *)
Definition assert {S} (c : bool) : M S unit :=
  if c then mret tt else raise AssertionError.

(** A pure method that can raise, run inside a stateful one. *)
Definition lift_res {S A} (r : exn + A) : M S A :=
  match r with inl e => raise e | inr a => mret a end.

(** A method of one object run on a component of a larger state. *)
Definition zoom {S T A} (get : S → T) (set : T → S → S) (m : M T A) : M S A :=
  λ s, let '(r, t') := m (get s) in (r, set t' s).

(** [for x in l: acc = body(x, acc)]: the loop stops at the first
    exception, with the state as the failing iteration left it. *)
Fixpoint for_each {S X A} (body : X → A → M S A) (l : list X) (acc : A) : M S A :=
  match l with
  | [] => mret acc
  | x :: l' => acc' ← body x acc; for_each body l' acc'
  end.

(** [a % b] and [a // b] on non-negative integers. *)
Definition py_mod (a b : nat) : exn + nat :=
  if b =? 0 then inl ZeroDivisionError else inr (a mod b).
Definition py_floordiv (a b : nat) : exn + nat :=
  if b =? 0 then inl ZeroDivisionError else inr (a / b).

(** ** [class Block] *)

Module Block.

Record t : Type := mk {
    block_id : nat;
    ref_count : Z;
    hash : Z;
    token_ids : list Z
  }.

  (** [Block.__init__(block_id)] *)
Definition __init__ (block_id : nat) : t :=
    {| block_id := block_id; ref_count := 0; hash := (-1)%Z; token_ids := [] |}.

Definition update (hash : Z) (token_ids : list Z) (b : t) : t :=
    {| block_id := block_id b; ref_count := ref_count b;
       hash := hash; token_ids := token_ids |}.

Definition reset (b : t) : t :=
    {| block_id := block_id b; ref_count := 1; hash := (-1)%Z; token_ids := [] |}.

Definition set_ref_count (n : Z) (b : t) : t :=
    {| block_id := block_id b; ref_count := n;
       hash := hash b; token_ids := token_ids b |}.

End Block.

(** ** [SamplingParams] *)

Module SamplingParams.

  (** Modelled from the spec: [nanovllm/sampling_params.py] is not among
      the sources; the design document lists the three values a sequence
      stores from it (temperature, max tokens, ignore-eos flag) and
      treats them as an opaque payload. *)
Record t : Type := mk {
    temperature : Q;
    max_tokens : Z;
    ignore_eos : bool
  }.

End SamplingParams.

(** ** [class Sequence] *)

Module Sequence.

Inductive SequenceStatus : Type := WAITING | RUNNING | FINISHED.

Record t : Type := mk {
    seq_id : nat;
    status : SequenceStatus;
    token_ids : list Z;
    last_token : Z;
    num_tokens : nat;
    num_prompt_tokens : nat;
    num_cached_tokens : nat;
    block_table : list nat;
    temperature : Q;
    max_tokens : Z;
    ignore_eos : bool
  }.

Definition set_token_ids (l : list Z) (s : t) : t :=
    mk (seq_id s) (status s) l (last_token s) (num_tokens s)
       (num_prompt_tokens s) (num_cached_tokens s) (block_table s)
       (temperature s) (max_tokens s) (ignore_eos s).
Definition set_last_token (x : Z) (s : t) : t :=
    mk (seq_id s) (status s) (token_ids s) x (num_tokens s)
       (num_prompt_tokens s) (num_cached_tokens s) (block_table s)
       (temperature s) (max_tokens s) (ignore_eos s).
Definition set_num_tokens (n : nat) (s : t) : t :=
    mk (seq_id s) (status s) (token_ids s) (last_token s) n
       (num_prompt_tokens s) (num_cached_tokens s) (block_table s)
       (temperature s) (max_tokens s) (ignore_eos s).
Definition set_num_prompt_tokens (n : nat) (s : t) : t :=
    mk (seq_id s) (status s) (token_ids s) (last_token s) (num_tokens s)
       n (num_cached_tokens s) (block_table s)
       (temperature s) (max_tokens s) (ignore_eos s).
Definition set_num_cached_tokens (n : nat) (s : t) : t :=
    mk (seq_id s) (status s) (token_ids s) (last_token s) (num_tokens s)
       (num_prompt_tokens s) n (block_table s)
       (temperature s) (max_tokens s) (ignore_eos s).
Definition set_block_table (bt : list nat) (s : t) : t :=
    mk (seq_id s) (status s) (token_ids s) (last_token s) (num_tokens s)
       (num_prompt_tokens s) (num_cached_tokens s) bt
       (temperature s) (max_tokens s) (ignore_eos s).

  (** The class attribute [Sequence.block_size] as the source sets it. *)
Definition default_block_size : nat := 256.

  (** [Sequence.__init__(token_ids, sampling_params)]. The state is the
      class-wide [counter]; [next] advances it before [token_ids[-1]]
      can raise. *)
Definition __init__ (token_ids : list Z) (sampling_params : SamplingParams.t)
    : M nat t :=
    seq_id ← gets id;
    modify S;;
    last_token ← match last token_ids with
                 | Some x => mret x
                 | None => raise IndexError
                 end;
    mret {| seq_id := seq_id;
            status := WAITING;
            token_ids := token_ids;
            last_token := last_token;
            num_tokens := length token_ids;
            num_prompt_tokens := length token_ids;
            num_cached_tokens := 0;
            block_table := [];
            temperature := SamplingParams.temperature sampling_params;
            max_tokens := SamplingParams.max_tokens sampling_params;
            ignore_eos := SamplingParams.ignore_eos sampling_params |}.

  (** [__len__] *)
Definition len (s : t) : nat := num_tokens s.

Definition is_finished (s : t) : bool :=
    match status s with FINISHED => true | _ => false end.

Definition num_completion_tokens (s : t) : Z :=
    (Z.of_nat (num_tokens s) - Z.of_nat (num_prompt_tokens s))%Z.

Definition prompt_token_ids (s : t) : list Z :=
    take (num_prompt_tokens s) (token_ids s).

Definition completion_token_ids (s : t) : list Z :=
    drop (num_prompt_tokens s) (token_ids s).

Section Geometry.
    (** The class attribute [Sequence.block_size], shared by all
        sequences of the process. *)
Variable block_size : nat.

Definition num_cached_blocks (s : t) : exn + nat :=
      py_floordiv (num_cached_tokens s) block_size.

Definition num_blocks (s : t) : exn + nat :=
      py_floordiv (num_tokens s + block_size - 1) block_size.

Definition last_block_num_tokens (s : t) : exn + Z :=
      match num_blocks s with
      | inl e => inl e
      | inr n => inr (Z.of_nat (num_tokens s)
                      - (Z.of_nat n - 1) * Z.of_nat block_size)%Z
      end.

    (** [block(i)]: the slice [token_ids[i*block_size : (i+1)*block_size]]. *)
Definition block (i : Z) (s : t) : exn + list Z :=
      match num_blocks s with
      | inl e => inl e
      | inr n =>
          if bool_decide (0 ≤ i < Z.of_nat n)%Z
          then inr (take block_size (drop (Z.to_nat i * block_size) (token_ids s)))
          else inl AssertionError
      end.
End Geometry.

Definition append_token (token_id : Z) (s : t) : t :=
    set_num_tokens (num_tokens s + 1)
      (set_last_token token_id
        (set_token_ids (token_ids s ++ [token_id]) s)).

  (** The pickled state: the four counters and tables, then either the
      whole token list or the last token alone. *)
Definition state : Type := nat * nat * nat * list nat * (list Z + Z).

Definition __getstate__ (s : t) : state :=
    (num_tokens s, num_prompt_tokens s, num_cached_tokens s, block_table s,
     if bool_decide (num_completion_tokens s = 0%Z)
     then inl (token_ids s) else inr (last_token s)).

  (** [__setstate__(state)] on an object [s]. A tail of the other shape
      than the counters announce is never produced by [__getstate__];
      the typed record cannot store it and keeps the field. *)
Definition __setstate__ (st : state) (s : t) : t :=
    let '(n, np, nc, bt, tail) := st in
    let s := set_block_table bt
               (set_num_cached_tokens nc
                 (set_num_prompt_tokens np
                   (set_num_tokens n s))) in
    if bool_decide (num_completion_tokens s = 0%Z)
    then match tail with inl l => set_token_ids l s | inr _ => s end
    else match tail with inr x => set_last_token x s | inl _ => s end.

End Sequence.

(** ** [class BlockManager] *)

Module BlockManager.

Record t : Type := mk {
    block_size : nat;
    blocks : list Block.t;
    hash_to_block_id : gmap Z nat;
    free_block_ids : list nat;
    used_block_ids : gset nat
  }.

Definition set_blocks (bs : list Block.t) (m : t) : t :=
    mk (block_size m) bs (hash_to_block_id m) (free_block_ids m) (used_block_ids m).
Definition set_hash_to_block_id (h : gmap Z nat) (m : t) : t :=
    mk (block_size m) (blocks m) h (free_block_ids m) (used_block_ids m).
Definition set_free_block_ids (f : list nat) (m : t) : t :=
    mk (block_size m) (blocks m) (hash_to_block_id m) f (used_block_ids m).
Definition set_used_block_ids (u : gset nat) (m : t) : t :=
    mk (block_size m) (blocks m) (hash_to_block_id m) (free_block_ids m) u.

  (** [BlockManager.__init__(num_blocks, block_size)] *)
Definition __init__ (num_blocks block_size : nat) : t :=
    {| block_size := block_size;
       blocks := Block.__init__ <$> seq 0 num_blocks;
       hash_to_block_id := ∅;
       free_block_ids := seq 0 num_blocks;
       used_block_ids := ∅ |}.

  (** [self.blocks[block_id]], and a mutation of that block in place. *)
Definition get_block (block_id : nat) : M t Block.t :=
    λ m, match blocks m !! block_id with
         | Some b => (inr b, m)
         | None => (inl IndexError, m)
         end.
Definition update_block (block_id : nat) (f : Block.t → Block.t) : M t unit :=
    modify (λ m, set_blocks (alter f block_id (blocks m)) m).

  (** [deque.remove(x)]: drops the first occurrence. *)
Fixpoint deque_remove (x : nat) (l : list nat) : option (list nat) :=
    match l with
    | [] => None
    | y :: l' => if decide (y = x) then Some l'
                 else cons y <$> deque_remove x l'
    end.

Section WithHash.
    (** The digest [xxhash.xxh64().intdigest()] of the byte stream fed
        by [compute_hash]: the 8-byte image of the prefix hash when one
        is given, then the byte image of the token array. The xxhash and
        numpy libraries are outside the repository. *)
Variable xxh64 : option Z → list Z → Z.

    (** The class attribute [Sequence.block_size]. *)
Variable seq_block_size : nat.

Definition compute_hash (token_ids : list Z) (prefix : Z) : Z :=
      xxh64 (if bool_decide (prefix ≠ (-1)%Z) then Some prefix else None) token_ids.

    (** The block is identified by its index in the pool; the returned
        [Block] reference is that index. *)
Definition _allocate_block (block_id : nat) : M t nat :=
      block ← get_block block_id;
      assert (bool_decide (Block.ref_count block = 0%Z));;
      update_block block_id Block.reset;;
      free ← gets free_block_ids;
      match deque_remove block_id free with
      | None => raise ValueError
      | Some free' =>
          modify (set_free_block_ids free');;
          modify (λ m, set_used_block_ids ({[block_id]} ∪ used_block_ids m) m);;
          get_block block_id;;
          mret block_id
      end.

Definition _deallocate_block (block_id : nat) : M t unit :=
      block ← get_block block_id;
      assert (bool_decide (Block.ref_count block = 0%Z));;
      used ← gets used_block_ids;
      if bool_decide (block_id ∈ used)
      then
        modify (set_used_block_ids (used ∖ {[block_id]}));;
        modify (λ m, set_free_block_ids (free_block_ids m ++ [block_id]) m)
      else raise KeyError.

    (** Methods taking a sequence run on the pair of the two objects. *)
Definition on_self {A} (m : M t A) : M (t * Sequence.t) A :=
      zoom fst (λ x s, (x, s.2)) m.
Definition on_seq {A} (m : M Sequence.t A) : M (t * Sequence.t) A :=
      zoom snd (λ x s, (s.1, x)) m.
Definition seq_call {A} (f : Sequence.t → exn + A) : M (t * Sequence.t) A :=
      λ s, lift_res (f s.2) s.

Definition can_allocate : M (t * Sequence.t) bool :=
      n ← seq_call (Sequence.num_blocks seq_block_size);
      free ← on_self (gets free_block_ids);
      mret (bool_decide (n ≤ length free)).

    (** One iteration of the loop of [allocate]; the locals [h] and
        [cache_miss] live across iterations. *)
Definition allocate_iter (i : nat) (locals : Z * bool) : M (t * Sequence.t) (Z * bool) :=
      let '(h, cache_miss) := locals in
      token_ids ← seq_call (Sequence.block seq_block_size (Z.of_nat i));
      bsz ← on_self (gets block_size);
      let h := if bool_decide (length token_ids = bsz)
               then compute_hash token_ids h else (-1)%Z in
      index ← on_self (gets hash_to_block_id);
      (** [found] is [None] exactly when the test of line 90 holds *)
      found ← match index !! h with
              | None => mret None
              | Some block_id =>
                  block ← on_self (get_block block_id);
                  mret (if bool_decide (Block.token_ids block ≠ token_ids)
                        then None else Some block_id)
              end;
      let cache_miss := cache_miss || bool_decide (found = None) in
      block_id ←
        match cache_miss, found with
        | false, Some block_id =>
            on_seq (modify (λ s, Sequence.set_num_cached_tokens
                                   (Sequence.num_cached_tokens s + bsz) s));;
            used ← on_self (gets used_block_ids);
            if bool_decide (block_id ∈ used)
            then
              block ← on_self (get_block block_id);
              on_self (update_block block_id
                         (Block.set_ref_count (Block.ref_count block + 1)%Z));;
              mret block_id
            else on_self (_allocate_block block_id)
        | _, _ =>
            free ← on_self (gets free_block_ids);
            match free with
            | [] => raise IndexError
            | block_id :: _ => on_self (_allocate_block block_id)
            end
        end;
      (if bool_decide (h ≠ (-1)%Z)
       then
         on_self (update_block block_id (Block.update h token_ids));;
         on_self (modify (λ m, set_hash_to_block_id
                                 (<[h := block_id]> (hash_to_block_id m)) m))
       else mret tt);;
      on_seq (modify (λ s, Sequence.set_block_table
                             (Sequence.block_table s ++ [block_id]) s));;
      mret (h, cache_miss).

Definition allocate : M (t * Sequence.t) unit :=
      bt ← on_seq (gets Sequence.block_table);
      assert (bool_decide (bt = []));;
      n ← seq_call (Sequence.num_blocks seq_block_size);
      for_each allocate_iter (seq 0 n) ((-1)%Z, false);;
      mret tt.

Definition deallocate_iter (block_id : nat) (_ : unit) : M (t * Sequence.t) unit :=
      block ← on_self (get_block block_id);
      on_self (update_block block_id
                 (Block.set_ref_count (Block.ref_count block - 1)%Z));;
      if bool_decide ((Block.ref_count block - 1)%Z = 0%Z)
      then on_self (_deallocate_block block_id)
      else mret tt.

Definition deallocate : M (t * Sequence.t) unit :=
      bt ← on_seq (gets Sequence.block_table);
      for_each deallocate_iter (reverse bt) tt;;
      on_seq (modify (Sequence.set_num_cached_tokens 0));;
      on_seq (modify (Sequence.set_block_table [])).


Definition may_append : M (t * Sequence.t) unit :=
      block_table ← on_seq (gets Sequence.block_table);
      last_id ← match last block_table with
                | Some b => mret b
                | None => raise IndexError
                end;
      last_block ← on_self (get_block last_id);
      n ← on_seq (gets Sequence.len);
      bsz ← on_self (gets block_size);
      r ← lift_res (py_mod n bsz);
      if bool_decide (r = 1) then
        assert (bool_decide (Block.hash last_block ≠ (-1)%Z));;
        free ← on_self (gets free_block_ids);
        match free with
        | [] => raise IndexError
        | block_id :: _ =>
            on_self (_allocate_block block_id);;
            on_seq (modify (λ s, Sequence.set_block_table
                                   (Sequence.block_table s ++ [block_id]) s))
        end
      else if bool_decide (r = 0) then
        assert (bool_decide (Block.hash last_block = (-1)%Z));;
        nb ← seq_call (Sequence.num_blocks seq_block_size);
        token_ids ← seq_call (Sequence.block seq_block_size (Z.of_nat nb - 1)%Z);
        prefix ← (if bool_decide (1 < length block_table)
                  then
                    match last (removelast block_table) with
                    | Some b => block ← on_self (get_block b); mret (Block.hash block)
                    | None => raise IndexError
                    end
                  else mret (-1)%Z);
        let h := compute_hash token_ids prefix in
        on_self (update_block last_id (Block.update h token_ids));;
        on_self (modify (λ m, set_hash_to_block_id
                                (<[h := Block.block_id last_block]> (hash_to_block_id m)) m))
      else
        assert (bool_decide (Block.hash last_block = (-1)%Z)).

End WithHash.

End BlockManager.

(** ** [class Config] *)

Module Config.

  (** The one attribute of the Hugging Face configuration object that
      [__post_init__] reads.  The [transformers] library is outside the
      repository. *)
Record HfConfig : Type := mk_hf {
    max_position_embeddings : Z
  }.

Record t : Type := mk {
    model : String.string;
    max_num_batched_tokens : Z;
    max_num_seqs : Z;
    max_model_len : Z;
    gpu_memory_utilization : Q;
    tensor_parallel_size : Z;
    enforce_eager : bool;
    hf_config : option HfConfig;
    eos : Z;
    kvcache_block_size : Z;
    num_kvcache_blocks : Z
  }.

Definition set_hf_config (h : option HfConfig) (c : t) : t :=
    mk (model c) (max_num_batched_tokens c) (max_num_seqs c) (max_model_len c)
       (gpu_memory_utilization c) (tensor_parallel_size c) (enforce_eager c)
       h (eos c) (kvcache_block_size c) (num_kvcache_blocks c).
Definition set_max_model_len (n : Z) (c : t) : t :=
    mk (model c) (max_num_batched_tokens c) (max_num_seqs c) n
       (gpu_memory_utilization c) (tensor_parallel_size c) (enforce_eager c)
       (hf_config c) (eos c) (kvcache_block_size c) (num_kvcache_blocks c).

  (** The field defaults of the dataclass, for a given [model]. *)
Definition defaults (model : String.string) : t :=
    {| model := model;
       max_num_batched_tokens := 16384;
       max_num_seqs := 512;
       max_model_len := 4096;
       gpu_memory_utilization := 9 # 10;
       tensor_parallel_size := 1;
       enforce_eager := false;
       hf_config := None;
       eos := -1;
       kvcache_block_size := 256;
       num_kvcache_blocks := -1 |}.

Section Environment.
    (** [os.path.isdir] and [AutoConfig.from_pretrained], which read the
        file system: the answer of the first, and the object the second
        returns or the exception it raises. *)
Variable isdir : String.string → bool.
Variable from_pretrained : String.string → exn + HfConfig.

Definition __post_init__ : M t unit :=
      m ← gets model;
      assert (isdir m);;
      bs ← gets kvcache_block_size;
      assert (bool_decide (bs `mod` 256 = 0)%Z);;
      tp ← gets tensor_parallel_size;
      assert (bool_decide (1 ≤ tp ≤ 8)%Z);;
      m ← gets model;
      hf ← lift_res (from_pretrained m);
      modify (set_hf_config (Some hf));;
      mml ← gets max_model_len;
      let mpe := max_position_embeddings hf in
      modify (set_max_model_len (Z.min mml mpe));;
      mnbt ← gets max_num_batched_tokens;
      mml' ← gets max_model_len;
      assert (bool_decide (mml' ≤ mnbt)%Z).
End Environment.

End Config.

(** * Scenarios and invariants *)

Global Instance exn_eq_dec : EqDecision exn.
Proof. solve_decision. Defined.

(** ** The wire protocol of a generation run *)

(** The receiving side of one generation step: reconstruct from the
    payload, then append the transferred last token to the tokens held
    from the earlier transfers. *)
Definition receive_token (payload : Sequence.state) (r : Sequence.t) : Sequence.t :=
  let r' := Sequence.__setstate__ payload r in
  Sequence.set_token_ids (Sequence.token_ids r' ++ [Sequence.last_token r']) r'.

(** The sender appends each completion token and pickles itself, the
    receiver consumes the payload. The result is the two final objects
    and the payloads that crossed the wire. *)
Fixpoint stream (sender receiver : Sequence.t) (completion : list Z)
  : Sequence.t * Sequence.t * list Sequence.state :=
  match completion with
  | [] => (sender, receiver, [])
  | token_id :: rest =>
      let sender' := Sequence.append_token token_id sender in
      let payload := Sequence.__getstate__ sender' in
      let '(s, r, sent) := stream sender' (receive_token payload receiver) rest in
      (s, r, payload :: sent)
  end.

(** ** Manager states and what a pass sees in them *)

Section Manager.
Variable xxh64 : option Z → list Z → Z.
  (** One block size for the sequences and the manager, as the engine
      configures them. *)
Variable block_size : nat.

  (** The outcome of the test of line 90 for a logical block with hash
      [h] and content [token_ids]: the index names a block whose stored
      tokens are these. *)
Definition cache_hit (bm : BlockManager.t) (h : Z) (token_ids : list Z) : bool :=
    match BlockManager.hash_to_block_id bm !! h with
    | None => false
    | Some block_id =>
        match BlockManager.blocks bm !! block_id with
        | None => false
        | Some block => bool_decide (Block.token_ids block = token_ids)
        end
    end.

  (** The hash line 88 gives a logical block, from the running hash. *)
Definition block_hash (bm : BlockManager.t) (token_ids : list Z) (h : Z) : Z :=
    if bool_decide (length token_ids = BlockManager.block_size bm)
    then BlockManager.compute_hash xxh64 token_ids h else (-1)%Z.

  (** A sequence object as the class maintains it. *)
Definition consistent (s : Sequence.t) : Prop :=
    Sequence.num_tokens s = length (Sequence.token_ids s).

  (** The manager states that calls of the three operations can leave
      behind, whether they return or raise, on any sequences. *)
Inductive reachable (num_blocks : nat) : BlockManager.t → Prop :=
    | reach_init :
        reachable num_blocks (BlockManager.__init__ num_blocks block_size)
    | reach_allocate bm s :
        reachable num_blocks bm → consistent s →
        reachable num_blocks (BlockManager.allocate xxh64 block_size (bm, s)).2.1
    | reach_may_append bm s :
        reachable num_blocks bm → consistent s →
        reachable num_blocks (BlockManager.may_append xxh64 block_size (bm, s)).2.1
    | reach_deallocate bm s :
        reachable num_blocks bm → consistent s →
        reachable num_blocks (BlockManager.deallocate (bm, s)).2.1.

  (** *** What the reachable states keep true of hashes and tokens *)

Definition block_ok (b : Block.t) : Prop :=
    (Block.hash b ≠ (-1)%Z → length (Block.token_ids b) = block_size) ∧
    (Block.token_ids b = [] ∨ length (Block.token_ids b) = block_size).

Record pool_ok (bm : BlockManager.t) : Prop := {
    ok_block_size : BlockManager.block_size bm = block_size;
    ok_blocks : ∀ id b, BlockManager.blocks bm !! id = Some b → block_ok b;
    ok_index : (∀ p t, xxh64 p t ≠ (-1)%Z) →
               BlockManager.hash_to_block_id bm !! (-1)%Z = None
  }.

  (** One decoding step of a running sequence, and a whole completion. *)
Definition decode_step (token_id : Z) (_ : unit) : M (BlockManager.t * Sequence.t) unit :=
    BlockManager.on_seq (modify (Sequence.append_token token_id));;
    BlockManager.may_append xxh64 block_size.

Definition grow (completion : list Z) : M (BlockManager.t * Sequence.t) unit :=
    for_each decode_step completion tt.

  (** *** The pool after allocations on a fresh manager *)

  (** Logical block [i] of a token list, and the running hash [h] of
      [allocate] when it enters iteration [i]. *)
Definition chunk (tokens : list Z) (i : nat) : list Z :=
    take block_size (drop (i * block_size) tokens).

Definition is_full (tokens : list Z) (i : nat) : bool :=
    bool_decide (length (chunk tokens i) = block_size).

Fixpoint chain (tokens : list Z) (i : nat) : Z :=
    match i with
    | 0 => (-1)%Z
    | S j => if is_full tokens j
             then BlockManager.compute_hash xxh64 (chunk tokens j) (chain tokens j)
             else (-1)%Z
    end.

  (** Physical block [id] once it backs logical block [id]; the first
      [shared] blocks are held by two sequences. *)
Definition bound_block (tokens : list Z) (shared id : nat) : Block.t :=
    {| Block.block_id := id;
       Block.ref_count := if bool_decide (id < shared) then 2 else 1;
       Block.hash := chain tokens (S id);
       Block.token_ids := if is_full tokens id then chunk tokens id else [] |}.

Fixpoint index_after (tokens : list Z) (j : nat) : gmap Z nat :=
    match j with
    | 0 => ∅
    | S k => if is_full tokens k
             then <[chain tokens (S k) := k]> (index_after tokens k)
             else index_after tokens k
    end.

Fixpoint used_after (j : nat) : gset nat :=
    match j with
    | 0 => ∅
    | S k => {[k]} ∪ used_after k
    end.

  (** The manager of [num_blocks] blocks after the first [j] logical
      blocks of [tokens] were bound, each to a fresh block. *)
Definition pool (num_blocks : nat) (tokens : list Z) (j shared : nat) : BlockManager.t :=
    {| BlockManager.block_size := block_size;
       BlockManager.blocks :=
         (bound_block tokens shared <$> seq 0 j)
         ++ (Block.__init__ <$> seq j (num_blocks - j));
       BlockManager.hash_to_block_id := index_after tokens j;
       BlockManager.free_block_ids := seq j (num_blocks - j);
       BlockManager.used_block_ids := used_after j |}.

  (** Two token lists have the same full logical blocks among the first
    [j]; a block that is not full leaves no trace in the pool. *)
Definition agree (tokens tokens' : list Z) (j : nat) : Prop :=
  ∀ i, i < j →
    is_full tokens i = is_full tokens' i ∧
    (is_full tokens i = true → chunk tokens i = chunk tokens' i).

(** A sequence that holds [tokens] in the first blocks of the pool. *)
Definition holds (tokens : list Z) (s : Sequence.t) : Prop :=
  Sequence.token_ids s = tokens ∧
  Sequence.num_tokens s = length tokens ∧
  Sequence.block_table s = seq 0 ((length tokens + block_size - 1) / block_size).

(** A manager on which a run of misses cannot raise: the index names
    blocks of the pool, and the free list holds distinct blocks without
    references. *)
Definition miss_ready (bm : BlockManager.t) : Prop :=
  (∀ h b, BlockManager.hash_to_block_id bm !! h = Some b →
          is_Some (BlockManager.blocks bm !! b)) ∧
  (∀ b, b ∈ BlockManager.free_block_ids bm →
        ∃ blk, BlockManager.blocks bm !! b = Some blk ∧ Block.ref_count blk = 0%Z) ∧
  NoDup (BlockManager.free_block_ids bm).

(** *** A scheduler's view: several sequences on one manager *)

Record system : Type := {
    manager : BlockManager.t;
    sequences : list Sequence.t
  }.

Inductive event : Type :=
    | Allocate (i : nat)
    | Deallocate (i : nat).

  (** A method of the manager called on sequence number [i]. *)
Definition call {A} (m : M (BlockManager.t * Sequence.t) A) (i : nat) : M system A :=
    λ sys,
      match sequences sys !! i with
      | None => (inl IndexError, sys)
      | Some s =>
          let '(r, st) := m (manager sys, s) in
          (r, {| manager := st.1; sequences := <[i := st.2]> (sequences sys) |})
      end.

Definition exec (ev : event) (_ : unit) : M system unit :=
    match ev with
    | Allocate i => call (BlockManager.allocate xxh64 block_size) i
    | Deallocate i => call BlockManager.deallocate i
    end.

Definition run (evs : list event) : M system unit := for_each exec evs tt.

  (** What the caller owes before a call: a sequence that holds no
      blocks and a positive answer of [can_allocate]. *)
Definition admissible (ev : event) (sys : system) : bool :=
    match ev with
    | Allocate i =>
        match sequences sys !! i with
        | None => false
        | Some s =>
            bool_decide (Sequence.block_table s = [])
            && bool_decide ((BlockManager.can_allocate block_size (manager sys, s)).1
                            = inr true)
        end
    | Deallocate i => bool_decide (is_Some (sequences sys !! i))
    end.

  (** Every call of the trace that is reached is made with its
      precondition met. *)
Fixpoint preconditions_met (evs : list event) (sys : system) : bool :=
    match evs with
    | [] => true
    | ev :: rest =>
        admissible ev sys
        && match exec ev tt sys with
           | (inr _, sys') => preconditions_met rest sys'
           | (inl _, _) => true
           end
    end.

  (** The sequences allocated and not released since. *)
Fixpoint live (evs : list event) (held : gset nat) : gset nat :=
    match evs with
    | [] => held
    | Allocate i :: rest => live rest ({[i]} ∪ held)
    | Deallocate i :: rest => live rest (held ∖ {[i]})
    end.

(** What an iteration of [allocate] leaves alone in the sequence. *)
Definition same_tokens (s s' : Sequence.t) : Prop :=
  Sequence.token_ids s' = Sequence.token_ids s ∧
  Sequence.num_tokens s' = Sequence.num_tokens s.


(** The effect of binding a logical block to the head of the free
    list: what [st'] is, given the state [(bm, s)] before. *)
Definition fresh_bound (bm : BlockManager.t) (s : Sequence.t)
    (st' : BlockManager.t * Sequence.t) : Prop :=
  ∃ b free' blk0,
    BlockManager.free_block_ids bm = b :: free' ∧
    BlockManager.free_block_ids st'.1 = free' ∧
    Sequence.block_table st'.2 = Sequence.block_table s ++ [b] ∧
    Sequence.num_cached_tokens st'.2 = Sequence.num_cached_tokens s ∧
    BlockManager.blocks bm !! b = Some blk0 ∧ Block.ref_count blk0 = 0%Z ∧
    (∃ blk, BlockManager.blocks st'.1 !! b = Some blk ∧ Block.ref_count blk = 1%Z) ∧
    (∀ c blk, c ≠ b → BlockManager.blocks bm !! c = Some blk →
              BlockManager.blocks st'.1 !! c = Some blk).


(** Number of entries of the block tables that name block [id]. *)
Definition references (seqs : list Sequence.t) (id : nat) : nat :=
  count_occ Nat.eq_dec (concat (Sequence.block_table <$> seqs)) id.

(** One more reference on block [b]. *)
Definition bump (b : nat) (cnt : nat → nat) : nat → nat :=
  λ id, cnt id + (if decide (id = b) then 1 else 0).

(** The bookkeeping of a pool of [num_blocks] blocks agrees with a count
    [cnt] of the references held on each block. *)
Record pool_inv (num_blocks : nat) (cnt : nat → nat) (bm : BlockManager.t) : Prop := {
  inv_length : length (BlockManager.blocks bm) = num_blocks;
  inv_nodup : NoDup (BlockManager.free_block_ids bm);
  inv_free : ∀ id, id ∈ BlockManager.free_block_ids bm ↔ id < num_blocks ∧ cnt id = 0;
  inv_used : ∀ id, id ∈ BlockManager.used_block_ids bm ↔ id < num_blocks ∧ cnt id ≠ 0;
  inv_count : ∀ id block, BlockManager.blocks bm !! id = Some block →
                Block.ref_count block = Z.of_nat (cnt id);
  inv_index : ∀ h id, BlockManager.hash_to_block_id bm !! h = Some id → id < num_blocks;
  inv_sentinel : BlockManager.hash_to_block_id bm !! (-1)%Z = None;
  inv_range : ∀ id, num_blocks ≤ id → cnt id = 0
}.

(** The bookkeeping agrees with the block tables, and the sequences
    outside [held] hold no block. *)
Definition sys_inv (n : nat) (held : gset nat) (sys : system) : Prop :=
  pool_inv n (references (sequences sys)) (manager sys) ∧
  (∀ i s, sequences sys !! i = Some s → i ∉ held → Sequence.block_table s = []).

(** The layout of a pool of [num_blocks] blocks: block [i] is at index
    [i], and the free list and the used set split the block ids. *)
Record pool_shape (num_blocks : nat) (bm : BlockManager.t) : Prop := {
  shape_block_size : BlockManager.block_size bm = block_size;
  shape_ids : Block.block_id <$> BlockManager.blocks bm = seq 0 num_blocks;
  shape_nodup : NoDup (BlockManager.free_block_ids bm);
  shape_partition : ∀ id, id < num_blocks ↔
      id ∈ BlockManager.free_block_ids bm ∨ id ∈ BlockManager.used_block_ids bm;
  shape_disjoint : ∀ id, id ∈ BlockManager.free_block_ids bm →
                         id ∉ BlockManager.used_block_ids bm;
  shape_index : ∀ h id, BlockManager.hash_to_block_id bm !! h = Some id →
                        id < num_blocks
}.

(** Physical block [id] of a pool whose first [j] blocks are held by
    one sequence and whose other bound blocks were released: these keep
    hash and tokens and have no reference. *)
Definition rested_block (tokens : list Z) (j id : nat) : Block.t :=
  Block.set_ref_count (if bool_decide (id < j) then 1 else 0)
    (bound_block tokens 0 id).

(** The manager after the [nb] logical blocks of [tokens] were bound on
    a fresh manager and the blocks from [j] on released again, last
    block first. *)
Definition released_pool (num_blocks : nat) (tokens : list Z) (nb j : nat)
    : BlockManager.t :=
  {| BlockManager.block_size := block_size;
     BlockManager.blocks :=
       (rested_block tokens j <$> seq 0 nb)
       ++ (Block.__init__ <$> seq nb (num_blocks - nb));
     BlockManager.hash_to_block_id := index_after tokens nb;
     BlockManager.free_block_ids :=
       seq nb (num_blocks - nb) ++ reverse (seq j (nb - j));
     BlockManager.used_block_ids := used_after j |}.

(** What [may_append] leaves behind, from a consistent pool. *)
Definition may_append_post (n : nat) (cnt : nat → nat)
    (bm : BlockManager.t) (s : Sequence.t)
    (r : exn + unit) (st' : BlockManager.t * Sequence.t) : Prop :=
  match r with
  | inl _ => st' = (bm, s)
  | inr _ =>
      Sequence.token_ids st'.2 = Sequence.token_ids s ∧
      (∀ i blk, BlockManager.blocks st'.1 !! i = Some blk → Block.block_id blk = i) ∧
      ((Sequence.len s mod BlockManager.block_size bm = 1 ∧
        ∃ b, BlockManager.free_block_ids bm = b :: BlockManager.free_block_ids st'.1 ∧
             st'.2 = Sequence.set_block_table (Sequence.block_table s ++ [b]) s ∧
             pool_inv n (bump b cnt) st'.1)
       ∨ (Sequence.len s mod BlockManager.block_size bm ≠ 1 ∧
          st'.2 = s ∧
          BlockManager.free_block_ids st'.1 = BlockManager.free_block_ids bm ∧
          BlockManager.used_block_ids st'.1 = BlockManager.used_block_ids bm ∧
          pool_inv n cnt st'.1))
  end.

(** The calls a scheduler makes on the sequences it holds: the prompt
    of sequence [i] is allocated, sequence [i] is given one more token
    (a decoding step), sequence [i] is released. *)
Inductive op : Type :=
  | OpAllocate (i : nat)
  | OpDecode (i : nat) (token_id : Z)
  | OpDeallocate (i : nat).

Definition step (o : op) (_ : unit) : M system unit :=
  match o with
  | OpAllocate i => call (BlockManager.allocate xxh64 block_size) i
  | OpDecode i token_id => call (decode_step token_id tt) i
  | OpDeallocate i => call BlockManager.deallocate i
  end.

(** The calls are made in order; the first exception ends the run. *)
Definition schedule (ops : list op) : M system unit := for_each step ops tt.

(** Block [id] held [blk] before; it still holds the same tokens, with at
    least as many references, and has a hash if it had one. *)
Definition keeps_block (id : nat) (blk : Block.t) (bm' : BlockManager.t) : Prop :=
  ∃ blk', BlockManager.blocks bm' !! id = Some blk' ∧
          Block.token_ids blk' = Block.token_ids blk ∧
          (Block.ref_count blk ≤ Block.ref_count blk')%Z ∧
          (Block.hash blk ≠ (-1)%Z → Block.hash blk' ≠ (-1)%Z).

(** * Reasoning about monadic code *)

(** [post m s Q]: running [m] from [s] ends, with a value or with an
    exception, in a result and a state that satisfy [Q]. *)
Definition post {S A} (m : M S A) (s : S) (Q : exn + A → S → Prop) : Prop :=
  Q (m s).1 (m s).2.

Section PostRules.
Context {S : Type}.
Implicit Types s : S.

Lemma post_run {A} (m : M S A) s Q r s' :
    m s = (r, s') → post m s Q → Q r s'.
  Proof. unfold post. by intros ->. Qed.

Lemma post_intro {A} (m : M S A) s (Q : exn + A → S → Prop) :
    (∀ r s', m s = (r, s') → Q r s') → post m s Q.
  Proof. intros H. unfold post. apply H. by destruct (m s). Qed.

Lemma post_mono {A} (m : M S A) s (Q Q' : exn + A → S → Prop) :
    post m s Q → (∀ r s', Q r s' → Q' r s') → post m s Q'.
  Proof. unfold post. auto. Qed.

Lemma post_ret {A} (a : A) s Q : Q (inr a) s → post (mret a) s Q.
  Proof. done. Qed.

Lemma post_raise {A} e s (Q : exn + A → S → Prop) :
    Q (inl e) s → post (raise e) s Q.
  Proof. done. Qed.

Lemma post_gets {A} (f : S → A) s Q : Q (inr (f s)) s → post (gets f) s Q.
  Proof. done. Qed.

Lemma post_modify (f : S → S) s Q : Q (inr tt) (f s) → post (modify f) s Q.
  Proof. done. Qed.

Lemma post_assert (c : bool) s Q :
    (c = true → Q (inr tt) s) → (c = false → Q (inl AssertionError) s) →
    post (assert c) s Q.
  Proof. destruct c; unfold post; simpl; auto. Qed.

Lemma post_lift_res {A} (r : exn + A) s Q : Q r s → post (lift_res r) s Q.
  Proof. by destruct r. Qed.

Lemma post_bind {A B} (m : M S A) (f : A → M S B) s Q :
    post m s (λ r s', match r with
                      | inl e => Q (inl e) s'
                      | inr a => post (f a) s' Q
                      end) →
    post (m ≫= f) s Q.
  Proof.
    unfold post, mbind, M_bind. destruct (m s) as [[e|a] s']; simpl; auto.
  Qed.

Lemma post_zoom {T A} (get : S → T) (set : T → S → S) (m : M T A) s Q :
    post m (get s) (λ r t', Q r (set t' s)) → post (zoom get set m) s Q.
  Proof. unfold post, zoom. by destruct (m (get s)). Qed.

  (** A loop keeps an invariant that each iteration keeps; an exception
      is handed to [E]. *)
Lemma post_for_each {X A} (body : X → A → M S A) (I : list X → A → S → Prop)
      (E : exn → S → Prop) l acc s :
    I l acc s →
    (∀ x l' acc s, I (x :: l') acc s →
       post (body x acc) s (λ r s', match r with
                                    | inl e => E e s'
                                    | inr acc' => I l' acc' s'
                                    end)) →
    post (for_each body l acc) s (λ r s', match r with
                                          | inl e => E e s'
                                          | inr acc' => I [] acc' s'
                                          end).
  Proof.
    intros HI Hbody. revert acc s HI.
    induction l as [|x l IH]; intros acc s HI; simpl.
    - by apply post_ret.
    - apply post_bind. eapply post_mono; [by apply Hbody|].
      intros [e|acc'] s' H; [done|]. by apply IH.
  Qed.

Lemma for_each_app {X A} (body : X → A → M S A) l1 l2 acc s :
    for_each body (l1 ++ l2) acc s
    = match for_each body l1 acc s with
      | (inl e, s') => (inl e, s')
      | (inr acc', s') => for_each body l2 acc' s'
      end.
  Proof.
    revert acc s. induction l1 as [|x l1 IH]; intros acc s; simpl; [done|].
    unfold mbind, M_bind. destruct (body x acc s) as [[e|acc'] s']; [done|].
    apply IH.
  Qed.
End PostRules.

Lemma py_mod_pos a b : b ≠ 0 → py_mod a b = inr (a mod b).
Proof. intros Hb. unfold py_mod. by destruct (Nat.eqb_spec b 0). Qed.

Lemma py_mod_cases a b :
  (b = 0 ∧ py_mod a b = inl ZeroDivisionError) ∨ (b ≠ 0 ∧ py_mod a b = inr (a mod b)).
Proof. unfold py_mod. destruct (Nat.eqb_spec b 0); auto. Qed.

Lemma py_floordiv_pos a b : b ≠ 0 → py_floordiv a b = inr (a / b).
Proof. intros Hb. unfold py_floordiv. by destruct (Nat.eqb_spec b 0). Qed.

Ltac munfold :=
  unfold mbind, M_bind, mret, M_ret, raise, gets, modify, assert, lift_res, zoom in *.

(** Case analysis on a test, unless the context settles it. *)
Ltac wp_solve :=
  first [ assumption | done | congruence | lia
        | let H := fresh in intros H; first [done | congruence | lia] ].

Ltac wp_decide P :=
  lazymatch P with
  | context [bool_decide ?P'] => wp_decide P'
  | _ =>
      first
        [ rewrite (bool_decide_eq_true_2 P) by wp_solve
        | rewrite (bool_decide_eq_false_2 P) by wp_solve
        | destruct (bool_decide_reflect P) ]
  end.

Ltac wp_case x :=
  first
    [ match goal with H : x = _ |- _ => rewrite H end
    | lazymatch x with context [bool_decide ?P] => wp_decide P end
    | destruct x eqn:? ].

(** One step of symbolic execution of a [post] goal. *)
Ltac wp_step :=
  lazymatch goal with
  | |- post (mbind _ _) _ _ => apply post_bind
  | |- post (mret _) _ _ => apply post_ret
  | |- post (raise _) _ _ => apply post_raise
  | |- post (gets _) _ _ => apply post_gets
  | |- post (modify _) _ _ => apply post_modify
  | |- post (lift_res _) _ _ => apply post_lift_res
  | |- post (zoom _ _ _) _ _ => apply post_zoom
  | |- post (assert (bool_decide ?P)) _ _ =>
      first
        [ rewrite (bool_decide_eq_true_2 P) by wp_solve;
          apply post_ret
        | apply post_assert;
          [intros ?%bool_decide_eq_true|intros ?%bool_decide_eq_false] ]
  | |- post (if bool_decide ?P then _ else _) _ _ => wp_decide P
  | |- post (if ?c then _ else _) _ _ => wp_case c
  | |- post (match ?x with _ => _ end) _ _ => wp_case x
  end.

(** ** Construction of a sequence *)

(** C10. [Sequence.__init__] on the empty list raises [IndexError]
    (after advancing the counter); when it returns, the list given was
    not empty, the sequence holds it, has at least one token, and its
    [last_token] is the last element of the list. *)
Theorem Sequence_init_needs_a_token
    (token_ids : list Z) (sp : SamplingParams.t) (counter : nat) :
  match Sequence.__init__ token_ids sp counter with
  | (inl e, counter') =>
      token_ids = [] ∧ e = IndexError ∧ counter' = S counter
  | (inr s, counter') =>
      token_ids ≠ [] ∧
      Sequence.token_ids s = token_ids ∧
      1 ≤ Sequence.num_tokens s ∧
      Sequence.num_tokens s = length token_ids ∧
      last token_ids = Some (Sequence.last_token s) ∧
      counter' = S counter
  end.
Proof.
  unfold Sequence.__init__. munfold. simpl.
  destruct (last token_ids) as [x|] eqn:Hl; simpl.
  - destruct token_ids as [|t l]; [done|]. repeat split; try done. simpl; lia.
  - apply last_None in Hl. done.
Qed.

(** ** The wire format *)

Lemma completion_after_append tok s :
  (0 ≤ Sequence.num_completion_tokens s)%Z →
  (0 < Sequence.num_completion_tokens (Sequence.append_token tok s))%Z.
Proof. unfold Sequence.num_completion_tokens. simpl. lia. Qed.

Lemma getstate_after_append tok s :
  (0 ≤ Sequence.num_completion_tokens s)%Z →
  (Sequence.__getstate__ (Sequence.append_token tok s)).2 = inr tok.
Proof.
  intros H. apply (completion_after_append tok) in H.
  unfold Sequence.__getstate__. simpl.
  rewrite bool_decide_eq_false_2; [done|]. simpl in H. 
  unfold Sequence.num_completion_tokens in *. simpl in *. lia.
Qed.

Lemma receive_token_ids tok s r :
  (0 ≤ Sequence.num_completion_tokens s)%Z →
  Sequence.token_ids
    (receive_token (Sequence.__getstate__ (Sequence.append_token tok s)) r)
  = Sequence.token_ids r ++ [tok].
Proof.
  intros H. pose proof (completion_after_append tok _ H) as H'.
  unfold receive_token, Sequence.__getstate__, Sequence.__setstate__.
  unfold Sequence.num_completion_tokens in *. simpl in *.
  rewrite !bool_decide_eq_false_2 by lia. done.
Qed.

Lemma stream_spec completion : ∀ sender receiver,
  (0 ≤ Sequence.num_completion_tokens sender)%Z →
  let '(s, r, sent) := stream sender receiver completion in
  Sequence.token_ids s = Sequence.token_ids sender ++ completion ∧
  Sequence.token_ids r = Sequence.token_ids receiver ++ completion ∧
  Sequence.num_completion_tokens s
  = (Sequence.num_completion_tokens sender + Z.of_nat (length completion))%Z ∧
  snd <$> sent = inr <$> completion.
Proof.
  induction completion as [|tok rest IH]; intros sender receiver H; simpl.
  - rewrite !app_nil_r. repeat split; try done. lia.
  - pose proof (completion_after_append tok _ H) as H'.
    specialize (IH (Sequence.append_token tok sender)
                  (receive_token (Sequence.__getstate__ (Sequence.append_token tok sender)) receiver)).
    destruct (stream _ _ rest) as [[s r] sent].
    destruct IH as (IH1 & IH2 & IH3 & IH4); [lia|].
    rewrite IH1, IH2, IH3, receive_token_ids by done. simpl.
    rewrite <- !app_assoc. simpl. repeat split; try done.
    + unfold Sequence.num_completion_tokens. simpl. lia.
    + f_equal; [|exact IH4].
      rewrite bool_decide_eq_false_2; [done|lia].
Qed.

(** C6. A sequence without completion tokens is reconstructed with its
    token list; and in a generation run seeded with that payload, each
    step sends the one new token, and the receiver, appending it, ends
    with the token list of the sender. *)
Theorem getstate_setstate_roundtrip (s blank : Sequence.t) (completion : list Z) :
  Sequence.num_completion_tokens s = 0%Z →
  let seeded := Sequence.__setstate__ (Sequence.__getstate__ s) blank in
  Sequence.token_ids seeded = Sequence.token_ids s ∧
  let '(sender, receiver, sent) := stream s seeded completion in
  Sequence.token_ids sender = Sequence.token_ids s ++ completion ∧
  Sequence.token_ids receiver = Sequence.token_ids sender ∧
  Sequence.num_completion_tokens sender = Z.of_nat (length completion) ∧
  snd <$> sent = inr <$> completion.
Proof.
  intros H0. simpl.
  assert (Hseed : Sequence.token_ids (Sequence.__setstate__ (Sequence.__getstate__ s) blank)
                  = Sequence.token_ids s).
  { unfold Sequence.__getstate__, Sequence.__setstate__.
    rewrite (bool_decide_eq_true_2 _ H0).
    unfold Sequence.num_completion_tokens in *. simpl.
    by rewrite bool_decide_eq_true_2 by lia. }
  split; [done|].
  pose proof (stream_spec completion s
    (Sequence.__setstate__ (Sequence.__getstate__ s) blank)) as Hs.
  destruct (stream _ _ completion) as [[sender receiver] sent] eqn:Hst.
  destruct Hs as (H1 & H2 & H3 & H4); [lia|].
  rewrite H1, H2, H3, Hseed, H0. repeat split; try done.
Qed.

(** ** Rules for the methods of the manager *)

Lemma post_get_block block_id (m : BlockManager.t) Q :
  (∀ b, BlockManager.blocks m !! block_id = Some b → Q (inr b) m) →
  (BlockManager.blocks m !! block_id = None → Q (inl IndexError) m) →
  post (BlockManager.get_block block_id) m Q.
Proof.
  intros H1 H2. unfold post, BlockManager.get_block.
  destruct (BlockManager.blocks m !! block_id); simpl; auto.
Qed.

Lemma post_get_block_some block_id (m : BlockManager.t) b Q :
  BlockManager.blocks m !! block_id = Some b → Q (inr b) m →
  post (BlockManager.get_block block_id) m Q.
Proof. intros H1 H2. unfold post, BlockManager.get_block. by rewrite H1. Qed.

Lemma post_on_self {A} (m : M BlockManager.t A) (s : BlockManager.t * Sequence.t) Q :
  post m s.1 (λ r t', Q r (t', s.2)) → post (BlockManager.on_self m) s Q.
Proof. intros H. by apply post_zoom. Qed.

Lemma post_on_seq {A} (m : M Sequence.t A) (s : BlockManager.t * Sequence.t) Q :
  post m s.2 (λ r t', Q r (s.1, t')) → post (BlockManager.on_seq m) s Q.
Proof. intros H. by apply post_zoom. Qed.

Lemma post_seq_call {A} (f : Sequence.t → exn + A) (s : BlockManager.t * Sequence.t) Q :
  Q (f s.2) s → post (BlockManager.seq_call f) s Q.
Proof. intros H. unfold BlockManager.seq_call. by apply post_lift_res. Qed.

(** Symbolic execution of the methods of the manager. *)
Ltac wp0 :=
  repeat first
    [ progress simpl
    | lazymatch goal with
      | |- post (BlockManager.get_block _) _ _ =>
          first [ eapply post_get_block_some; [eassumption|]
                | apply post_get_block; [intros ? ?|intros ?] ]
      | |- post (BlockManager.update_block _ _) _ _ =>
          unfold BlockManager.update_block
      | |- post (BlockManager.on_self _) _ _ => apply post_on_self
      | |- post (BlockManager.on_seq _) _ _ => apply post_on_seq
      | |- post (BlockManager.seq_call _) _ _ => apply post_seq_call
      | |- post _ _ _ => wp_step
      | |- match py_mod ?a ?b with inl _ => _ | inr _ => _ end =>
          first
            [ rewrite (py_mod_pos a b) by assumption
            | let H := fresh in let E := fresh in
              destruct (py_mod_cases a b) as [[H E]|[H E]]; rewrite E; clear E ]
      | |- match ?x with inl _ => _ | inr _ => _ end => wp_case x
      end ].


Lemma post_eq {S A} (m : M S A) (s : S) x :
  post m s (λ r s', (r, s') = x) → m s = x.
Proof. unfold post. by destruct (m s). Qed.

Lemma deque_remove_elem b l :
  b ∈ l → ∃ l', BlockManager.deque_remove b l = Some l'.
Proof.
  induction l as [|y l IH]; [by intros ?%elem_of_nil|].
  intros Hin. simpl. destruct (decide (y = b)); [eauto|].
  apply elem_of_cons in Hin as [->|Hin]; [done|].
  destruct (IH Hin) as [l' ->]. eauto.
Qed.

Lemma deque_remove_head b l : BlockManager.deque_remove b (b :: l) = Some l.
Proof. simpl. by rewrite decide_True. Qed.

Lemma alter_lookup_insert {A} (f : A → A) (l : list A) i x :
  l !! i = Some x → alter f i l = <[i := f x]> l.
Proof.
  intros H. apply list_eq. intros j. destruct (decide (i = j)) as [<-|Hne].
  - rewrite list_lookup_alter_eq, H. simpl.
    by rewrite list_lookup_insert_eq by (by eapply lookup_lt_Some).
  - by rewrite list_lookup_alter_ne, list_lookup_insert_ne by done.
Qed.

(** [_allocate_block]: the four ways it can end. *)
Lemma post_allocate_block b (bm : BlockManager.t) Q :
  (BlockManager.blocks bm !! b = None → Q (inl IndexError) bm) →
  (∀ blk, BlockManager.blocks bm !! b = Some blk →
          Block.ref_count blk ≠ 0%Z → Q (inl AssertionError) bm) →
  (∀ blk, BlockManager.blocks bm !! b = Some blk →
          Block.ref_count blk = 0%Z →
          BlockManager.deque_remove b (BlockManager.free_block_ids bm) = None →
          Q (inl ValueError)
            (BlockManager.set_blocks
               (<[b := Block.reset blk]> (BlockManager.blocks bm)) bm)) →
  (∀ blk free', BlockManager.blocks bm !! b = Some blk →
          Block.ref_count blk = 0%Z →
          BlockManager.deque_remove b (BlockManager.free_block_ids bm) = Some free' →
          Q (inr b)
            {| BlockManager.block_size := BlockManager.block_size bm;
               BlockManager.blocks := <[b := Block.reset blk]> (BlockManager.blocks bm);
               BlockManager.hash_to_block_id := BlockManager.hash_to_block_id bm;
               BlockManager.free_block_ids := free';
               BlockManager.used_block_ids := {[b]} ∪ BlockManager.used_block_ids bm |}) →
  post (BlockManager._allocate_block b) bm Q.
Proof.
  intros H1 H2 H3 H4. unfold BlockManager._allocate_block.
  wp0; eauto.
  all: try rewrite (alter_lookup_insert _ _ _ _ H) in *.
  - by eapply H4.
  - simpl in *. rewrite list_lookup_insert_eq in H5 by (by eapply lookup_lt_Some).
    done.
  - by eapply H3.
Qed.

Lemma post_allocate_block_ok b (bm : BlockManager.t) blk free' Q :
  BlockManager.blocks bm !! b = Some blk →
  Block.ref_count blk = 0%Z →
  BlockManager.deque_remove b (BlockManager.free_block_ids bm) = Some free' →
  Q (inr b)
    {| BlockManager.block_size := BlockManager.block_size bm;
       BlockManager.blocks := <[b := Block.reset blk]> (BlockManager.blocks bm);
       BlockManager.hash_to_block_id := BlockManager.hash_to_block_id bm;
       BlockManager.free_block_ids := free';
       BlockManager.used_block_ids := {[b]} ∪ BlockManager.used_block_ids bm |} →
  post (BlockManager._allocate_block b) bm Q.
Proof.
  intros Hb Hrc Hrm HQ. apply post_allocate_block; intros; simplify_eq; done.
Qed.

(** [_deallocate_block]: the four ways it can end. *)
Lemma post_deallocate_block b (bm : BlockManager.t) Q :
  (BlockManager.blocks bm !! b = None → Q (inl IndexError) bm) →
  (∀ blk, BlockManager.blocks bm !! b = Some blk →
          Block.ref_count blk ≠ 0%Z → Q (inl AssertionError) bm) →
  (∀ blk, BlockManager.blocks bm !! b = Some blk →
          Block.ref_count blk = 0%Z →
          b ∉ BlockManager.used_block_ids bm → Q (inl KeyError) bm) →
  (∀ blk, BlockManager.blocks bm !! b = Some blk →
          Block.ref_count blk = 0%Z →
          b ∈ BlockManager.used_block_ids bm →
          Q (inr tt)
            {| BlockManager.block_size := BlockManager.block_size bm;
               BlockManager.blocks := BlockManager.blocks bm;
               BlockManager.hash_to_block_id := BlockManager.hash_to_block_id bm;
               BlockManager.free_block_ids := BlockManager.free_block_ids bm ++ [b];
               BlockManager.used_block_ids := BlockManager.used_block_ids bm ∖ {[b]} |}) →
  post (BlockManager._deallocate_block b) bm Q.
Proof.
  intros H1 H2 H3 H4. unfold BlockManager._deallocate_block.
  wp0; eauto.
Qed.

Ltac wp :=
  repeat first
    [ progress wp0
    | lazymatch goal with
      | |- post (BlockManager._allocate_block _) _ _ =>
          first [ eapply post_allocate_block_ok; [eassumption|wp_solve|eassumption|]
                | apply post_allocate_block;
                  [intros ?|intros ? ? ?|intros ? ? ? ?|intros ? ? ? ? ?] ]
      | |- post (BlockManager._deallocate_block _) _ _ =>
          apply post_deallocate_block;
          [intros ?|intros ? ? ?|intros ? ? ? ?|intros ? ? ? ?]
      end ].

#[local] Abbreviation allocate := (BlockManager.allocate xxh64 block_size).
#[local] Abbreviation allocate_iter := (BlockManager.allocate_iter xxh64 block_size).
#[local] Abbreviation may_append := (BlockManager.may_append xxh64 block_size).
#[local] Abbreviation compute_hash := (BlockManager.compute_hash xxh64).


Lemma allocate_iter_reclaim_run
      (bm : BlockManager.t) (s : Sequence.t) (i : nat) (h : Z)
      (token_ids : list Z) (b : nat) (blk : Block.t) :
    Sequence.block block_size (Z.of_nat i) s = inr token_ids →
    length token_ids = BlockManager.block_size bm →
    compute_hash token_ids h ≠ (-1)%Z →
    BlockManager.hash_to_block_id bm !! compute_hash token_ids h = Some b →
    BlockManager.blocks bm !! b = Some blk →
    Block.token_ids blk = token_ids →
    Block.ref_count blk = 0%Z →
    b ∈ BlockManager.free_block_ids bm →
    b ∉ BlockManager.used_block_ids bm →
    ∃ free',
      BlockManager.deque_remove b (BlockManager.free_block_ids bm) = Some free' ∧
      allocate_iter i (h, false) (bm, s)
      = (inr (compute_hash token_ids h, false),
         ({| BlockManager.block_size := BlockManager.block_size bm;
             BlockManager.blocks :=
               <[b := {| Block.block_id := Block.block_id blk;
                         Block.ref_count := 1;
                         Block.hash := compute_hash token_ids h;
                         Block.token_ids := token_ids |}]>
                 (BlockManager.blocks bm);
             BlockManager.hash_to_block_id := BlockManager.hash_to_block_id bm;
             BlockManager.free_block_ids := free';
             BlockManager.used_block_ids := {[b]} ∪ BlockManager.used_block_ids bm |},
          Sequence.set_block_table (Sequence.block_table s ++ [b])
            (Sequence.set_num_cached_tokens
               (Sequence.num_cached_tokens s + BlockManager.block_size bm) s))).
  Proof.
    intros Hblk Hfull Hh Hidx Hb Htok Hrc Hfree Hused.
    destruct (deque_remove_elem _ _ Hfree) as [free' Hrm].
    exists free'. split; [done|].
    apply post_eq. unfold BlockManager.allocate_iter.
    wp.
    unfold BlockManager.set_blocks, BlockManager.set_hash_to_block_id; simpl.
    do 3 f_equal. f_equal.
    - rewrite (alter_lookup_insert _ _ _ (Block.reset blk)).
      + by rewrite list_insert_insert_eq.
      + apply list_lookup_insert_eq. by eapply lookup_lt_Some.
    - by apply insert_id.
  Qed.

(** C9. With no miss so far in the pass, a full logical block whose
      hash the index maps to a block on the free list that stores the
      same tokens is bound to that very block: it leaves the free list,
      enters the used set with one reference, keeps hash and tokens, and
      the sequence is credited [block_size] cached tokens. *)
Theorem hit_on_freed_block
      (bm : BlockManager.t) (s : Sequence.t) (i : nat) (h : Z)
      (token_ids : list Z) (b : nat) (blk : Block.t) :
    Sequence.block block_size (Z.of_nat i) s = inr token_ids →
    length token_ids = BlockManager.block_size bm →
    compute_hash token_ids h ≠ (-1)%Z →
    BlockManager.hash_to_block_id bm !! compute_hash token_ids h = Some b →
    BlockManager.blocks bm !! b = Some blk →
    Block.token_ids blk = token_ids →
    Block.ref_count blk = 0%Z →
    b ∈ BlockManager.free_block_ids bm →
    b ∉ BlockManager.used_block_ids bm →
    ∃ free',
      BlockManager.deque_remove b (BlockManager.free_block_ids bm) = Some free' ∧
      allocate_iter i (h, false) (bm, s)
      = (inr (compute_hash token_ids h, false),
         ({| BlockManager.block_size := BlockManager.block_size bm;
             BlockManager.blocks :=
               <[b := {| Block.block_id := Block.block_id blk;
                         Block.ref_count := 1;
                         Block.hash := compute_hash token_ids h;
                         Block.token_ids := token_ids |}]>
                 (BlockManager.blocks bm);
             BlockManager.hash_to_block_id := BlockManager.hash_to_block_id bm;
             BlockManager.free_block_ids := free';
             BlockManager.used_block_ids := {[b]} ∪ BlockManager.used_block_ids bm |},
          Sequence.set_block_table (Sequence.block_table s ++ [b])
            (Sequence.set_num_cached_tokens
               (Sequence.num_cached_tokens s + BlockManager.block_size bm) s))).
  Proof. apply allocate_iter_reclaim_run. Qed.

  (** *** What an iteration of [allocate] leaves alone *)


Lemma lookup_insert_present {A} (l : list A) i x y :
    l !! i = Some y → <[i := x]> l !! i = Some x.
  Proof. intros H. apply list_lookup_insert_eq. by eapply lookup_lt_Some. Qed.

Lemma allocate_iter_forced i h (bm : BlockManager.t) (s : Sequence.t) :
    post (allocate_iter i (h, true)) (bm, s) (λ r st',
      match r with
      | inl _ => True
      | inr (_, cm') => cm' = true ∧ fresh_bound bm s st'
      end).
  Proof.
    unfold BlockManager.allocate_iter.
    wp; try done.
    all: split; [done|].
    all: unfold fresh_bound; simpl.
    all: repeat match goal with
         | H : BlockManager.free_block_ids _ = _ :: _ |- _ =>
             rewrite H in *; clear H
         end.
    all: rewrite deque_remove_head in *; simplify_eq.
    all: eexists _, _, _; repeat split; try done.
    all: try (intros c blk' Hc Hblk').
    all: rewrite ?list_lookup_alter_eq, ?list_lookup_alter_ne by done.
    all: try (erewrite lookup_insert_present by done; simpl; eauto).
    all: by rewrite list_lookup_insert_ne by done.
  Qed.

Lemma allocate_iter_first_miss i h (bm : BlockManager.t) (s : Sequence.t) toks :
    Sequence.block block_size (Z.of_nat i) s = inr toks →
    cache_hit bm (block_hash bm toks h) toks = false →
    allocate_iter i (h, false) (bm, s) = allocate_iter i (h, true) (bm, s).
  Proof.
    intros Htoks Hmiss. unfold cache_hit, block_hash in Hmiss.
    unfold BlockManager.allocate_iter, BlockManager.seq_call, BlockManager.on_self,
      BlockManager.get_block.
    munfold. simpl. rewrite Htoks. simpl.
    destruct (BlockManager.hash_to_block_id bm !! _) as [b|]; simpl; [|done].
    destruct (BlockManager.blocks bm !! b) as [blk|]; simpl; [|done].
    apply bool_decide_eq_false in Hmiss.
    by rewrite (bool_decide_eq_true_2 _ Hmiss).
  Qed.

Lemma forced_loop l : ∀ h (bm : BlockManager.t) (s : Sequence.t),
    post (for_each allocate_iter l (h, true)) (bm, s) (λ r st',
      match r with
      | inl _ => True
      | inr (_, cm') =>
          cm' = true ∧
          Sequence.block_table st'.2
          = Sequence.block_table s ++ take (length l) (BlockManager.free_block_ids bm) ∧
          length l ≤ length (BlockManager.free_block_ids bm) ∧
          BlockManager.free_block_ids st'.1
          = drop (length l) (BlockManager.free_block_ids bm) ∧
          Sequence.num_cached_tokens st'.2 = Sequence.num_cached_tokens s ∧
          (∀ k b, k < length l → BlockManager.free_block_ids bm !! k = Some b →
             ∃ blk, BlockManager.blocks st'.1 !! b = Some blk ∧
                    Block.ref_count blk = 1%Z) ∧
          (∀ c blk, BlockManager.blocks bm !! c = Some blk →
             Block.ref_count blk ≠ 0%Z →
             BlockManager.blocks st'.1 !! c = Some blk)
      end).
  Proof.
    induction l as [|x l IH]; intros h bm s; simpl.
    - apply post_ret. rewrite take_0, drop_0, app_nil_r.
      repeat split; try done; [lia|intros; lia].
    - apply post_bind. eapply post_mono; [apply allocate_iter_forced|].
      intros [e|[h1 cm1]] [bm1 s1]; [done|].
      intros [-> (b & free' & blk0 & Hfree & Hfree1 & Hbt & Hc & Hb0 & Hrc0 & (blk1 & Hb1 & Hrc1) & Hframe)].
      simpl in *. eapply post_mono; [apply IH|].
      intros [e|[h2 cm2]] [bm2 s2]; [done|].
      intros (-> & Hbt2 & Hlen & Hfree2 & Hc2 & Hfresh & Hkeep). simpl in *.
      rewrite Hfree, Hfree1 in *. simpl.
      repeat split; try done.
      + by rewrite Hbt2, Hbt, <- app_assoc.
      + lia.
      + congruence.
      + intros [|k] b' Hk Hlk; simpl in Hlk.
        * simplify_eq. exists blk1. split; [|done]. apply Hkeep; [done|lia].
        * apply (Hfresh k); [lia|done].
      + intros c blk Hc' Hrc. apply Hkeep; [|done]. apply Hframe; [|done].
        intros ->. congruence.
  Qed.

Lemma allocate_unfold (bm : BlockManager.t) (s : Sequence.t) :
    allocate (bm, s)
    = if bool_decide (Sequence.block_table s = [])
      then match Sequence.num_blocks block_size s with
           | inl e => (inl e, (bm, s))
           | inr n =>
               match for_each allocate_iter (seq 0 n) ((-1)%Z, false) (bm, s) with
               | (inl e, st) => (inl e, st)
               | (inr _, st) => (inr tt, st)
               end
           end
      else (inl AssertionError, (bm, s)).
  Proof.
    unfold BlockManager.allocate, BlockManager.on_seq, BlockManager.seq_call.
    munfold. simpl. case_bool_decide; simpl; [|done].
    destruct (Sequence.num_blocks block_size s) as [e|n]; simpl; [done|].
    by destruct (for_each _ _ _ _) as [[e|?] ?].
  Qed.


Lemma block_same_tokens i (s s' : Sequence.t) :
    same_tokens s s' →
    Sequence.block block_size i s' = Sequence.block block_size i s.
  Proof.
    intros [Ht Hn]. unfold Sequence.block, Sequence.num_blocks. by rewrite Ht, Hn.
  Qed.


#[local] Abbreviation ok := pool_ok.
#[local] Abbreviation bok := block_ok.

  (** ** Hashes and stored tokens in the reachable states *)

Lemma block_ok_reset b : bok (Block.reset b).
  Proof. split; simpl; [done|by left]. Qed.

Lemma block_ok_update h toks b :
    length toks = block_size → bok (Block.update h toks b).
  Proof. intros H. split; simpl; [done|by right]. Qed.

Lemma block_ok_set_ref_count n b : bok b → bok (Block.set_ref_count n b).
  Proof. by intros [H1 H2]. Qed.

Lemma pool_ok_init n : ok (BlockManager.__init__ n block_size).
  Proof.
    split; simpl; [done| |done].
    intros id b [i [-> _]]%list_lookup_fmap_Some. split; simpl; [done|by left].
  Qed.

Lemma pool_ok_alter f id (bm : BlockManager.t) :
    ok bm → (∀ b, bok b → bok (f b)) →
    ok (BlockManager.set_blocks (alter f id (BlockManager.blocks bm)) bm).
  Proof.
    intros [H1 H2 H3] Hf. split; simpl; [done| |done].
    intros i b. destruct (decide (id = i)) as [->|Hne].
    - rewrite list_lookup_alter_eq. intros (b' & ? & ->)%fmap_Some. eauto.
    - rewrite list_lookup_alter_ne by done. eauto.
  Qed.

Lemma pool_ok_alter_to f id (bm : BlockManager.t) :
    ok bm → (∀ b, bok (f b)) →
    ok (BlockManager.set_blocks (alter f id (BlockManager.blocks bm)) bm).
  Proof. intros H Hf. apply pool_ok_alter; auto. Qed.

Lemma pool_ok_same (bm bm' : BlockManager.t) :
    ok bm →
    BlockManager.block_size bm' = BlockManager.block_size bm →
    BlockManager.blocks bm' = BlockManager.blocks bm →
    BlockManager.hash_to_block_id bm' = BlockManager.hash_to_block_id bm →
    ok bm'.
  Proof. intros [H1 H2 H3] E1 E2 E3. split; rewrite ?E1, ?E2, ?E3; done. Qed.

Lemma pool_ok_insert_reset id blk (bm bm' : BlockManager.t) :
    ok bm →
    BlockManager.block_size bm' = BlockManager.block_size bm →
    BlockManager.blocks bm' = <[id := Block.reset blk]> (BlockManager.blocks bm) →
    BlockManager.hash_to_block_id bm' = BlockManager.hash_to_block_id bm →
    ok bm'.
  Proof.
    intros [H1 H2 H3] E1 E2 E3. split; rewrite ?E1, ?E2, ?E3; try done.
    intros i b. destruct (decide (id = i)) as [->|Hne].
    - intros Hl. apply list_lookup_insert_Some in Hl as [(_ & <- & _)|[? ?]]; [|done].
      apply block_ok_reset.
    - rewrite list_lookup_insert_ne by done. eauto.
  Qed.

Lemma pool_ok_index h id (bm : BlockManager.t) :
    ok bm → ((∀ p t, xxh64 p t ≠ (-1)%Z) → h ≠ (-1)%Z) →
    ok (BlockManager.set_hash_to_block_id
               (<[h := id]> (BlockManager.hash_to_block_id bm)) bm).
  Proof.
    intros [H1 H2 H3] Hh. split; simpl; [done|done|].
    intros Hx. rewrite lookup_insert_ne; auto.
  Qed.

Lemma compute_hash_sentinel_free toks h :
    (∀ p t, xxh64 p t ≠ (-1)%Z) → compute_hash toks h ≠ (-1)%Z.
  Proof. intros H. apply H. Qed.

Ltac pool_ok_tac :=
    repeat lazymatch goal with
    | H : ok ?bm |- ok ?bm => exact H
    | |- ok (BlockManager.set_hash_to_block_id (<[?h := ?id]> _) ?bm) =>
        apply (pool_ok_index h id bm);
        [|intros; first [by apply compute_hash_sentinel_free | done]]
    | |- ok (BlockManager.set_blocks (alter (Block.update ?h ?t) ?id _) ?bm) =>
        apply (pool_ok_alter_to (Block.update h t) id bm);
        [|intros; apply block_ok_update; congruence]
    | |- ok (BlockManager.set_blocks (alter (Block.set_ref_count ?n) ?id _) ?bm) =>
        apply (pool_ok_alter (Block.set_ref_count n) id bm);
        [|intros; by apply block_ok_set_ref_count]
    | |- ok (BlockManager.set_blocks
                    (<[?id := Block.reset ?blk]> (BlockManager.blocks ?bm)) _) =>
        apply (pool_ok_insert_reset id blk bm); [|reflexivity..]
    | |- ok {| BlockManager.blocks :=
                      <[?id := Block.reset ?blk]> (BlockManager.blocks ?bm) |} =>
        apply (pool_ok_insert_reset id blk bm); [|reflexivity..]
    | |- ok {| BlockManager.blocks := BlockManager.blocks ?bm |} =>
        apply (pool_ok_same bm); [|reflexivity..]
    | |- ok {| BlockManager.blocks := alter ?f ?id (BlockManager.blocks ?bm) |} =>
        apply (pool_ok_same
                 (BlockManager.set_blocks (alter f id (BlockManager.blocks bm)) bm));
        [|reflexivity..]
    end.

Lemma allocate_iter_ok i loc (st : BlockManager.t * Sequence.t) :
    ok st.1 →
    post (allocate_iter i loc) st (λ _ st', ok st'.1).
  Proof.
    destruct loc as [h cm], st as [bm s]. simpl. intros Hok.
    pose proof (ok_block_size _ Hok) as Hbs.
    unfold BlockManager.allocate_iter.
    wp; try done.
    all: pool_ok_tac.
  Qed.

Lemma allocate_ok (st : BlockManager.t * Sequence.t) :
    ok st.1 → post allocate st (λ _ st', ok st'.1).
  Proof.
    intros Hok. unfold BlockManager.allocate.
    wp; try done.
    eapply post_mono.
    - apply (post_for_each _ (λ _ _ st', ok st'.1) (λ _ st', ok st'.1));
        [done|].
      intros x l' acc st' Hok'. eapply post_mono; [by apply allocate_iter_ok|].
      by intros [?|?] ?.
    - intros [e|acc] st' Hst'; wp; done.
  Qed.

Lemma deallocate_ok (st : BlockManager.t * Sequence.t) :
    ok st.1 → post BlockManager.deallocate st (λ _ st', ok st'.1).
  Proof.
    intros Hok. unfold BlockManager.deallocate.
    wp.
    eapply post_mono.
    - apply (post_for_each _ (λ _ _ st', ok st'.1) (λ _ st', ok st'.1));
        [done|].
      intros x l' acc [bm' s'] Hok'. unfold BlockManager.deallocate_iter.
      simpl in Hok'. wp; try done; pool_ok_tac.
    - intros [e|acc] st' Hst'; wp; done.
  Qed.

  (** The last logical block of a sequence whose length is a positive
      multiple of the block size is full. *)
Lemma last_block_full (s : Sequence.t) nb toks :
    consistent s → block_size ≠ 0 →
    Sequence.num_tokens s mod block_size = 0 →
    Sequence.num_blocks block_size s = inr nb →
    Sequence.block block_size (Z.of_nat nb - 1) s = inr toks →
    length toks = block_size.
  Proof.
    unfold consistent, Sequence.block. intros Hc Hbs Hmod Hnb. rewrite Hnb.
    case_bool_decide as Hrange; [|done]. intros [= <-].
    unfold Sequence.num_blocks in Hnb. rewrite py_floordiv_pos in Hnb by done.
    injection Hnb as Hnb.
    apply Nat.Div0.div_exact in Hmod.
    set (n := Sequence.num_tokens s) in *. set (q := n / block_size) in *.
    assert (nb = q) as ->.
    { subst nb. symmetry. apply (Nat.div_unique _ _ _ (block_size - 1)); lia. }
    rewrite length_take, length_drop, <- Hc.
    replace (Z.to_nat (Z.of_nat q - 1)) with (q - 1) by lia.
    fold n. nia.
  Qed.

Lemma may_append_ok (st : BlockManager.t * Sequence.t) :
    ok st.1 → consistent st.2 →
    post may_append st (λ _ st', ok st'.1).
  Proof.
    destruct st as [bm s]. simpl. intros Hok Hc.
    pose proof (ok_block_size _ Hok) as Hbs.
    unfold BlockManager.may_append.
    wp; try done; pool_ok_tac.
    all: apply pool_ok_alter_to; [done|]; intros; apply block_ok_update.
    all: eapply last_block_full; eauto; unfold Sequence.len in *; congruence.
  Qed.

Lemma reachable_ok n (bm : BlockManager.t) : reachable n bm → ok bm.
  Proof.
    induction 1 as [|bm s _ IH Hc|bm s _ IH Hc|bm s _ IH Hc].
    - apply pool_ok_init.
    - apply (allocate_ok (bm, s) IH).
    - apply (may_append_ok (bm, s) IH Hc).
    - apply (deallocate_ok (bm, s) IH).
  Qed.

Lemma deallocate_iter_keeps_tokens x acc (st : BlockManager.t * Sequence.t) :
    post (BlockManager.deallocate_iter x acc) st (λ _ st',
      Block.token_ids <$> BlockManager.blocks st'.1
      = Block.token_ids <$> BlockManager.blocks st.1 ∧
      Block.hash <$> BlockManager.blocks st'.1
      = Block.hash <$> BlockManager.blocks st.1).
  Proof.
    destruct st as [bm s]. unfold BlockManager.deallocate_iter.
    wp; try done.
    all: split; apply list_eq; intros j; rewrite !list_lookup_fmap.
    all: destruct (decide (x = j)) as [<-|Hne];
      [rewrite list_lookup_alter_eq|by rewrite list_lookup_alter_ne].
    all: by destruct (BlockManager.blocks bm !! x).
  Qed.

Lemma deallocate_keeps_tokens (st : BlockManager.t * Sequence.t) :
    post BlockManager.deallocate st (λ _ st',
      Block.token_ids <$> BlockManager.blocks st'.1
      = Block.token_ids <$> BlockManager.blocks st.1 ∧
      Block.hash <$> BlockManager.blocks st'.1
      = Block.hash <$> BlockManager.blocks st.1).
  Proof.
    unfold BlockManager.deallocate. wp.
    eapply post_mono.
    - apply (post_for_each _
        (λ _ _ st', Block.token_ids <$> BlockManager.blocks st'.1
                    = Block.token_ids <$> BlockManager.blocks st.1 ∧
                    Block.hash <$> BlockManager.blocks st'.1
                    = Block.hash <$> BlockManager.blocks st.1)
        (λ _ st', Block.token_ids <$> BlockManager.blocks st'.1
                  = Block.token_ids <$> BlockManager.blocks st.1 ∧
                  Block.hash <$> BlockManager.blocks st'.1
                  = Block.hash <$> BlockManager.blocks st.1)); [done|].
      intros x l' acc st' [E1 E2].
      eapply post_mono; [apply deallocate_iter_keeps_tokens|].
      intros [?|?] st'' [E1' E2']; split; congruence.
    - intros [e|acc] st' Hst'; wp; done.
  Qed.

  (** C7, as the code has it. In every reachable state a block with a
      hash other than the sentinel holds exactly [block_size] tokens, so
      a block with fewer tokens carries the sentinel; and the sentinel
      is no key of the hash index (the digest never is the sentinel), so
      such a block is not found under its own hash. *)
Theorem hash_only_on_full_blocks (n : nat) (bm : BlockManager.t) :
    (∀ p t, xxh64 p t ≠ (-1)%Z) →
    reachable n bm →
    (∀ id blk, BlockManager.blocks bm !! id = Some blk →
       Block.hash blk ≠ (-1)%Z → length (Block.token_ids blk) = block_size) ∧
    (∀ id blk, BlockManager.blocks bm !! id = Some blk →
       length (Block.token_ids blk) < block_size → Block.hash blk = (-1)%Z) ∧
    BlockManager.hash_to_block_id bm !! (-1)%Z = None.
  Proof.
    intros Hx [Hbs Hb Hi]%reachable_ok. repeat split; [| |by apply Hi].
    - intros id blk Hl. by apply Hb in Hl as [? _].
    - intros id blk Hl Hlt. apply Hb in Hl as [Hh _].
      destruct (decide (Block.hash blk = (-1)%Z)) as [|Hne]; [done|].
      apply Hh in Hne. lia.
  Qed.

  (** C4, as the code has it. [deallocate] changes neither the tokens
      nor the hash stored in any block, so a block on the free list
      holds what its last use left: no tokens, or the [block_size]
      tokens it was finalized with. *)
Theorem free_blocks_keep_their_tokens
      (n : nat) (bm : BlockManager.t) (s : Sequence.t) :
    reachable n bm →
    (∀ id blk, id ∈ BlockManager.free_block_ids bm →
       BlockManager.blocks bm !! id = Some blk →
       Block.token_ids blk = [] ∨ length (Block.token_ids blk) = block_size) ∧
    Block.token_ids <$> BlockManager.blocks (BlockManager.deallocate (bm, s)).2.1
    = Block.token_ids <$> BlockManager.blocks bm ∧
    Block.hash <$> BlockManager.blocks (BlockManager.deallocate (bm, s)).2.1
    = Block.hash <$> BlockManager.blocks bm.
  Proof.
    intros [Hbs Hb Hi]%reachable_ok. split.
    - intros id blk _ Hl. by apply Hb in Hl as [_ ?].
    - apply (deallocate_keeps_tokens (bm, s)).
  Qed.

(** ** The two paths of an iteration, run from known facts *)

Lemma alter_insert_same {A} (f : A → A) (l : list A) i x y :
  l !! i = Some y → alter f i (<[i := x]> l) = <[i := f x]> l.
Proof.
  intros H. rewrite (alter_lookup_insert f _ i x).
  - by rewrite list_insert_insert_eq.
  - by eapply lookup_insert_present.
Qed.

Lemma allocate_iter_miss_run i h cm (bm : BlockManager.t) (s : Sequence.t)
    toks b free' blk :
  Sequence.block block_size (Z.of_nat i) s = inr toks →
  cm = true ∨ cache_hit bm (block_hash bm toks h) toks = false →
  (∀ b', BlockManager.hash_to_block_id bm !! block_hash bm toks h = Some b' →
         is_Some (BlockManager.blocks bm !! b')) →
  BlockManager.free_block_ids bm = b :: free' →
  BlockManager.blocks bm !! b = Some blk →
  Block.ref_count blk = 0%Z →
  allocate_iter i (h, cm) (bm, s)
  = (inr (block_hash bm toks h, true),
     ({| BlockManager.block_size := BlockManager.block_size bm;
         BlockManager.blocks :=
           <[b := if bool_decide (block_hash bm toks h ≠ (-1)%Z)
                  then Block.update (block_hash bm toks h) toks (Block.reset blk)
                  else Block.reset blk]> (BlockManager.blocks bm);
         BlockManager.hash_to_block_id :=
           if bool_decide (block_hash bm toks h ≠ (-1)%Z)
           then <[block_hash bm toks h := b]> (BlockManager.hash_to_block_id bm)
           else BlockManager.hash_to_block_id bm;
         BlockManager.free_block_ids := free';
         BlockManager.used_block_ids := {[b]} ∪ BlockManager.used_block_ids bm |},
      Sequence.set_block_table (Sequence.block_table s ++ [b]) s)).
Proof.
  intros Htoks Hmiss Hidx Hfree Hb Hrc.
  assert (allocate_iter i (h, cm) (bm, s) = allocate_iter i (h, true) (bm, s)) as ->.
  { destruct Hmiss as [->|Hmiss]; [done|]. destruct cm; [done|].
    by eapply allocate_iter_first_miss. }
  assert (Hrm : BlockManager.deque_remove b (BlockManager.free_block_ids bm) = Some free')
    by (rewrite Hfree; apply deque_remove_head).
  unfold block_hash in *.
  apply post_eq. unfold BlockManager.allocate_iter.
  wp.
  all: try (destruct (Hidx _ eq_refl) as [? ?]; congruence).
  all: unfold BlockManager.set_hash_to_block_id, BlockManager.set_blocks; simpl.
  all: try done.
  all: by erewrite alter_insert_same by done.
Qed.

Lemma allocate_iter_hit_run i h (bm : BlockManager.t) (s : Sequence.t) toks b blk :
  Sequence.block block_size (Z.of_nat i) s = inr toks →
  length toks = BlockManager.block_size bm →
  compute_hash toks h ≠ (-1)%Z →
  BlockManager.hash_to_block_id bm !! compute_hash toks h = Some b →
  BlockManager.blocks bm !! b = Some blk →
  Block.token_ids blk = toks →
  b ∈ BlockManager.used_block_ids bm →
  allocate_iter i (h, false) (bm, s)
  = (inr (compute_hash toks h, false),
     ({| BlockManager.block_size := BlockManager.block_size bm;
         BlockManager.blocks :=
           <[b := {| Block.block_id := Block.block_id blk;
                     Block.ref_count := Block.ref_count blk + 1;
                     Block.hash := compute_hash toks h;
                     Block.token_ids := toks |}]> (BlockManager.blocks bm);
         BlockManager.hash_to_block_id := BlockManager.hash_to_block_id bm;
         BlockManager.free_block_ids := BlockManager.free_block_ids bm;
         BlockManager.used_block_ids := BlockManager.used_block_ids bm |},
      Sequence.set_block_table (Sequence.block_table s ++ [b])
        (Sequence.set_num_cached_tokens
           (Sequence.num_cached_tokens s + BlockManager.block_size bm) s))).
Proof.
  intros Htoks Hfull Hh Hidx Hb Htok Hused.
  apply post_eq. unfold BlockManager.allocate_iter.
  wp.
  unfold BlockManager.set_hash_to_block_id, BlockManager.set_blocks; simpl.
  do 3 f_equal. f_equal.
  - rewrite (alter_lookup_insert _ _ _ _ Hb).
    by erewrite alter_insert_same by done.
  - by apply insert_id.
Qed.

(** ** The three cases of [may_append], run from known facts *)

Lemma may_append_new_block (bm : BlockManager.t) (s : Sequence.t)
    last_id last_blk b free' blk :
  last (Sequence.block_table s) = Some last_id →
  BlockManager.blocks bm !! last_id = Some last_blk →
  BlockManager.block_size bm ≠ 0 →
  Sequence.len s mod BlockManager.block_size bm = 1 →
  Block.hash last_blk ≠ (-1)%Z →
  BlockManager.free_block_ids bm = b :: free' →
  BlockManager.blocks bm !! b = Some blk →
  Block.ref_count blk = 0%Z →
  may_append (bm, s)
  = (inr tt,
     ({| BlockManager.block_size := BlockManager.block_size bm;
         BlockManager.blocks := <[b := Block.reset blk]> (BlockManager.blocks bm);
         BlockManager.hash_to_block_id := BlockManager.hash_to_block_id bm;
         BlockManager.free_block_ids := free';
         BlockManager.used_block_ids := {[b]} ∪ BlockManager.used_block_ids bm |},
      Sequence.set_block_table (Sequence.block_table s ++ [b]) s)).
Proof.
  intros Hlast Hlb Hbs Hmod Hh Hfree Hb Hrc.
  assert (Hrm : BlockManager.deque_remove b (BlockManager.free_block_ids bm) = Some free')
    by (rewrite Hfree; apply deque_remove_head).
  apply post_eq. unfold BlockManager.may_append.
  wp. done.
Qed.

Lemma may_append_finalize (bm : BlockManager.t) (s : Sequence.t)
    last_id last_blk nb toks prefix :
  last (Sequence.block_table s) = Some last_id →
  BlockManager.blocks bm !! last_id = Some last_blk →
  BlockManager.block_size bm ≠ 0 →
  Sequence.len s mod BlockManager.block_size bm = 0 →
  Block.hash last_blk = (-1)%Z →
  Sequence.num_blocks block_size s = inr nb →
  Sequence.block block_size (Z.of_nat nb - 1) s = inr toks →
  (if bool_decide (1 < length (Sequence.block_table s))
   then ∃ p pblk, last (removelast (Sequence.block_table s)) = Some p ∧
                  BlockManager.blocks bm !! p = Some pblk ∧
                  Block.hash pblk = prefix
   else prefix = (-1)%Z) →
  may_append (bm, s)
  = (inr tt,
     ({| BlockManager.block_size := BlockManager.block_size bm;
         BlockManager.blocks :=
           <[last_id := Block.update (compute_hash toks prefix) toks last_blk]>
             (BlockManager.blocks bm);
         BlockManager.hash_to_block_id :=
           <[compute_hash toks prefix := Block.block_id last_blk]>
             (BlockManager.hash_to_block_id bm);
         BlockManager.free_block_ids := BlockManager.free_block_ids bm;
         BlockManager.used_block_ids := BlockManager.used_block_ids bm |},
      s)).
Proof.
  intros Hlast Hlb Hbs Hmod Hh Hnb Htoks Hprefix.
  apply post_eq. unfold BlockManager.may_append.
  case_bool_decide as Hlen.
  - destruct Hprefix as (p & pblk & Hp & Hpb & <-).
    wp. unfold BlockManager.set_hash_to_block_id, BlockManager.set_blocks; simpl.
    by rewrite (alter_lookup_insert _ _ _ _ Hlb).
  - subst prefix.
    wp. unfold BlockManager.set_hash_to_block_id, BlockManager.set_blocks; simpl.
    by rewrite (alter_lookup_insert _ _ _ _ Hlb).
Qed.

Lemma may_append_mid_block (bm : BlockManager.t) (s : Sequence.t) last_id last_blk :
  last (Sequence.block_table s) = Some last_id →
  BlockManager.blocks bm !! last_id = Some last_blk →
  BlockManager.block_size bm ≠ 0 →
  Sequence.len s mod BlockManager.block_size bm ≠ 1 →
  Sequence.len s mod BlockManager.block_size bm ≠ 0 →
  Block.hash last_blk = (-1)%Z →
  may_append (bm, s) = (inr tt, (bm, s)).
Proof.
  intros Hlast Hlb Hbs Hmod1 Hmod0 Hh.
  apply post_eq. unfold BlockManager.may_append.
  wp. done.
Qed.


(** ** Logical blocks of a token list *)

Lemma length_chunk tokens i :
  length (chunk tokens i) = block_size `min` (length tokens - i * block_size).
Proof. unfold chunk. by rewrite length_take, length_drop. Qed.

Lemma is_full_spec tokens i :
  0 < block_size →
  is_full tokens i = true ↔ S i * block_size ≤ length tokens.
Proof.
  intros Hbs. unfold is_full. rewrite bool_decide_eq_true, length_chunk. nia.
Qed.

Lemma is_full_false tokens i :
  0 < block_size →
  is_full tokens i = false ↔ length tokens < S i * block_size.
Proof.
  intros Hbs. rewrite <- not_true_iff_false, is_full_spec by done. lia.
Qed.

Lemma chunk_app_full tokens extra i :
  S i * block_size ≤ length tokens →
  chunk (tokens ++ extra) i = chunk tokens i.
Proof.
  intros H. unfold chunk.
  rewrite drop_app_le by lia. rewrite take_app_le; [done|].
  rewrite length_drop. lia.
Qed.

Lemma block_chunk (s : Sequence.t) n i :
  Sequence.num_blocks block_size s = inr n → i < n →
  Sequence.block block_size (Z.of_nat i) s = inr (chunk (Sequence.token_ids s) i).
Proof.
  intros Hn Hi. unfold Sequence.block. rewrite Hn.
  rewrite bool_decide_eq_true_2 by lia. by rewrite Nat2Z.id.
Qed.

(** The number of logical blocks of [n] tokens. *)
Lemma num_blocks_spec (s : Sequence.t) :
  0 < block_size →
  Sequence.num_blocks block_size s
  = inr ((Sequence.num_tokens s + block_size - 1) / block_size).
Proof. intros H. unfold Sequence.num_blocks. apply py_floordiv_pos. lia. Qed.

Lemma ceil_div_bounds n :
  0 < block_size →
  let q := (n + block_size - 1) / block_size in
  n ≤ q * block_size ∧ (0 < n → (q - 1) * block_size < n ∧ 0 < q).
Proof.
  intros Hbs q.
  pose proof (Nat.div_mod (n + block_size - 1) block_size ltac:(lia)) as Hdm.
  pose proof (Nat.mod_upper_bound (n + block_size - 1) block_size ltac:(lia)) as Hub.
  fold q in Hdm. nia.
Qed.

Lemma ceil_div_unique n q :
  0 < block_size → 0 < n →
  (q - 1) * block_size < n → n ≤ q * block_size → 0 < q →
  (n + block_size - 1) / block_size = q.
Proof.
  intros Hbs Hn H1 H2 Hq. symmetry.
  apply (Nat.div_unique _ _ _ (n + block_size - 1 - q * block_size)); nia.
Qed.

(** ** The chained hashes *)

Lemma chain_S tokens j :
  chain tokens (S j)
  = if is_full tokens j
    then compute_hash (chunk tokens j) (chain tokens j) else (-1)%Z.
Proof. done. Qed.

Lemma agree_le tokens tokens' j k :
  k ≤ j → agree tokens tokens' j → agree tokens tokens' k.
Proof. intros Hk H i Hi. apply H. lia. Qed.

Lemma chain_ext tokens tokens' j :
  agree tokens tokens' j → chain tokens j = chain tokens' j.
Proof.
  induction j as [|j IH]; intros H; [done|].
  rewrite !chain_S. destruct (H j) as [Hf Hc]; [lia|]. rewrite <- Hf.
  destruct (is_full tokens j); [|done].
  rewrite Hc, IH; [done| |done]. by apply (agree_le _ _ (S j)); [lia|].
Qed.

Lemma chain_sentinel tokens j :
  (∀ p t, xxh64 p t ≠ (-1)%Z) →
  chain tokens (S j) ≠ (-1)%Z ↔ is_full tokens j = true.
Proof.
  intros Hx. rewrite chain_S. destruct (is_full tokens j); [|done].
  split; [done|]. intros _. apply Hx.
Qed.

(** ** The pool after [j] bindings *)

Lemma bound_block_ext tokens tokens' shared i :
  agree tokens tokens' (S i) →
  bound_block tokens shared i = bound_block tokens' shared i.
Proof.
  intros H. unfold bound_block.
  rewrite (chain_ext tokens tokens' (S i)) by done.
  destruct (H i) as [Hf Hc]; [lia|]. rewrite <- Hf.
  destruct (is_full tokens i); [|done]. by rewrite Hc.
Qed.

Lemma index_after_ext tokens tokens' j :
  agree tokens tokens' j →
  index_after tokens j = index_after tokens' j.
Proof.
  induction j as [|j IH]; intros H; [done|]. cbn [index_after].
  rewrite (chain_ext tokens tokens' (S j)) by done.
  destruct (H j) as [Hf Hc]; [lia|]. rewrite <- Hf.
  rewrite IH; [done|]. by apply (agree_le _ _ (S j)); [lia|].
Qed.

Lemma pool_ext n tokens tokens' j shared :
  agree tokens tokens' j →
  pool n tokens j shared = pool n tokens' j shared.
Proof.
  intros H. unfold pool. f_equal.
  - f_equal. apply list_fmap_ext. intros k i [-> Hi]%lookup_seq.
    apply bound_block_ext. apply (agree_le _ _ j); [lia|done].
  - by apply index_after_ext.
Qed.

(** Appending a token changes no full block, unless it completes one. *)
Lemma agree_snoc tokens tok j :
  0 < block_size →
  (∀ i, i < j → S i * block_size ≠ length tokens + 1) →
  agree tokens (tokens ++ [tok]) j.
Proof.
  intros Hbs H i Hi. specialize (H i Hi).
  destruct (decide (S i * block_size ≤ length tokens)) as [Hle|Hgt].
  - rewrite (proj2 (is_full_spec tokens i Hbs)) by done.
    rewrite (proj2 (is_full_spec (tokens ++ [tok]) i Hbs))
      by (rewrite length_app; simpl; lia).
    split; [done|]. intros _. symmetry. by apply chunk_app_full.
  - rewrite (proj2 (is_full_false tokens i Hbs)) by lia.
    rewrite (proj2 (is_full_false (tokens ++ [tok]) i Hbs))
      by (rewrite length_app; simpl; lia).
    done.
Qed.

Lemma pool_lookup_bound n tokens j shared i :
  i < j →
  BlockManager.blocks (pool n tokens j shared) !! i = Some (bound_block tokens shared i).
Proof.
  intros Hi. unfold pool. simpl.
  rewrite lookup_app_l by (rewrite length_fmap, length_seq; lia).
  rewrite list_lookup_fmap, lookup_seq_lt by lia. done.
Qed.

Lemma pool_lookup_free n tokens j shared i :
  j ≤ i < n →
  BlockManager.blocks (pool n tokens j shared) !! i = Some (Block.__init__ i).
Proof.
  intros Hi. unfold pool. simpl.
  rewrite lookup_app_r by (rewrite length_fmap, length_seq; lia).
  rewrite length_fmap, length_seq, list_lookup_fmap, lookup_seq_lt by lia.
  simpl. do 2 f_equal. lia.
Qed.

Lemma pool_init n tokens shared :
  pool n tokens 0 shared = BlockManager.__init__ n block_size.
Proof. unfold pool, BlockManager.__init__. simpl. by rewrite Nat.sub_0_r. Qed.

Lemma index_after_lookup tokens j h b :
  index_after tokens j !! h = Some b →
  b < j ∧ is_full tokens b = true ∧ h = chain tokens (S b).
Proof.
  induction j as [|j IH]; cbn [index_after]; [by rewrite lookup_empty|].
  destruct (is_full tokens j) eqn:Hf.
  - rewrite lookup_insert. case_decide as Hh.
    + intros [= <-]. repeat split; [lia|done|done].
    + intros H. apply IH in H. intuition lia.
  - intros H. apply IH in H. intuition lia.
Qed.

(** Binding logical block [j] to the head of the free list. *)
Lemma pool_insert_bound n tokens j shared :
  j < n →
  <[j := bound_block tokens shared j]> (BlockManager.blocks (pool n tokens j shared))
  = BlockManager.blocks (pool n tokens (S j) shared).
Proof.
  intros Hj. unfold pool. cbn [BlockManager.blocks].
  rewrite seq_S, fmap_app.
  replace (n - j) with (S (n - S j)) by lia.
  rewrite insert_app_r_alt by (rewrite length_fmap, length_seq; lia).
  rewrite length_fmap, length_seq, Nat.sub_diag. simpl.
  by rewrite <- app_assoc.
Qed.

(** ** Allocation on a fresh manager *)

Section Fresh.
Hypothesis xxh64_sentinel_free : ∀ p t, xxh64 p t ≠ (-1)%Z.
Hypothesis block_size_pos : 0 < block_size.

Lemma block_hash_pool n tokens j shared i :
  block_hash (pool n tokens j shared) (chunk tokens i) (chain tokens i)
  = chain tokens (S i).
Proof. done. Qed.

Lemma pool_S n tokens j shared :
  j < n →
  pool n tokens (S j) shared
  = {| BlockManager.block_size := block_size;
       BlockManager.blocks :=
         <[j := bound_block tokens shared j]>
           (BlockManager.blocks (pool n tokens j shared));
       BlockManager.hash_to_block_id :=
         if is_full tokens j
         then <[chain tokens (S j) := j]> (index_after tokens j)
         else index_after tokens j;
       BlockManager.free_block_ids := seq (S j) (n - S j);
       BlockManager.used_block_ids := {[j]} ∪ used_after j |}.
Proof. intros Hj. rewrite pool_insert_bound by done. done. Qed.

Lemma pool_bind_fresh n tokens j (s : Sequence.t) cm :
  j < n →
  Sequence.block block_size (Z.of_nat j) s = inr (chunk tokens j) →
  cm = true ∨ j = 0 →
  allocate_iter j (chain tokens j, cm) (pool n tokens j 0, s)
  = (inr (chain tokens (S j), true),
     (pool n tokens (S j) 0,
      Sequence.set_block_table (Sequence.block_table s ++ [j]) s)).
Proof.
  intros Hj Hblk Hcm.
  erewrite (allocate_iter_miss_run j _ cm _ s (chunk tokens j) j
              (seq (S j) (n - S j)) (Block.__init__ j)); try done.
  - rewrite block_hash_pool, pool_S by done. do 3 f_equal. f_equal.
    + f_equal. unfold bound_block.
      rewrite (bool_decide_eq_false_2 (j < 0)) by lia.
      case_bool_decide as Hh.
      * apply chain_sentinel in Hh; [|done]. by rewrite Hh.
      * destruct (is_full tokens j) eqn:Hf; [|by rewrite chain_S, Hf].
        exfalso. by apply (chain_sentinel tokens j xxh64_sentinel_free) in Hf.
    + cbn [BlockManager.hash_to_block_id pool]. rewrite chain_S.
      destruct (is_full tokens j).
      * by rewrite bool_decide_eq_true_2 by apply xxh64_sentinel_free.
      * by rewrite bool_decide_eq_false_2 by (by intros ?).
  - destruct Hcm as [->| ->]; [by left|right].
    unfold cache_hit. simpl. by rewrite lookup_empty.
  - rewrite block_hash_pool. intros b' [Hb' _]%index_after_lookup.
    rewrite pool_lookup_bound by done. eauto.
  - simpl. by replace (n - j) with (S (n - S j)) by lia.
  - apply pool_lookup_free. lia.
Qed.

Lemma pool_allocate_loop n tokens k : ∀ j (s : Sequence.t) cm,
  j + k ≤ n →
  (∀ i, i < j + k →
     Sequence.block block_size (Z.of_nat i) s = inr (chunk tokens i)) →
  cm = true ∨ j = 0 →
  for_each allocate_iter (seq j k) (chain tokens j, cm) (pool n tokens j 0, s)
  = (inr (chain tokens (j + k), cm || bool_decide (0 < k)),
     (pool n tokens (j + k) 0,
      Sequence.set_block_table (Sequence.block_table s ++ seq j k) s)).
Proof.
  induction k as [|k IH]; intros j s cm Hn Hblk Hcm.
  - simpl. rewrite Nat.add_0_r, orb_false_r, app_nil_r. by destruct s.
  - cbn [seq for_each]. unfold mbind, M_bind.
    rewrite pool_bind_fresh; [|lia|apply Hblk; lia|done].
    rewrite IH; [|lia| |by left].
    + rewrite Nat.add_succ_r. simpl. rewrite orb_true_r.
      by rewrite <- app_assoc.
    + intros i Hi. rewrite <- (Hblk i) by lia. done.
Qed.

(** [allocate] on a fresh manager binds logical block [i] to block [i]. *)
Lemma allocate_fresh n (s : Sequence.t) nb :
  Sequence.block_table s = [] →
  Sequence.num_blocks block_size s = inr nb →
  nb ≤ n →
  allocate (BlockManager.__init__ n block_size, s)
  = (inr tt, (pool n (Sequence.token_ids s) nb 0,
              Sequence.set_block_table (seq 0 nb) s)).
Proof.
  intros Hbt Hnb Hn. rewrite allocate_unfold, Hbt, Hnb. simpl.
  rewrite <- (pool_init n (Sequence.token_ids s) 0).
  change (-1)%Z with (chain (Sequence.token_ids s) 0).
  rewrite pool_allocate_loop; [|done| |by right].
  - by rewrite Hbt.
  - intros i Hi. by eapply block_chunk.
Qed.

(** ** Growing a sequence on a fresh manager *)

Lemma agree_sym tokens tokens' j : agree tokens tokens' j → agree tokens' tokens j.
Proof.
  intros H i Hi. destruct (H i Hi) as [Hf Hc]. split; [done|].
  intros Hf'. symmetry. apply Hc. congruence.
Qed.

Lemma last_seq j k : 0 < k → last (seq j k) = Some (j + k - 1).
Proof.
  intros Hk. destruct k as [|k]; [lia|]. rewrite seq_S, last_snoc.
  f_equal. lia.
Qed.

Lemma removelast_seq j k : removelast (seq j (S k)) = seq j k.
Proof. by rewrite seq_S, removelast_last. Qed.

Lemma decode_step_unfold tok (bm : BlockManager.t) (s : Sequence.t) :
  decode_step tok tt (bm, s) = may_append (bm, Sequence.append_token tok s).
Proof. done. Qed.

Lemma pool_last_partial n tokens q shared :
  q < n → is_full tokens q = false →
  pool n tokens (S q) shared
  = {| BlockManager.block_size := block_size;
       BlockManager.blocks :=
         <[q := {| Block.block_id := q;
                   Block.ref_count := if bool_decide (q < shared) then 2 else 1;
                   Block.hash := (-1)%Z;
                   Block.token_ids := [] |}]>
           (BlockManager.blocks (pool n tokens q shared));
       BlockManager.hash_to_block_id := index_after tokens q;
       BlockManager.free_block_ids := seq (S q) (n - S q);
       BlockManager.used_block_ids := {[q]} ∪ used_after q |}.
Proof.
  intros Hq Hf. rewrite pool_S by done. rewrite Hf.
  unfold bound_block. by rewrite chain_S, Hf.
Qed.

Lemma pool_last_full n tokens q shared :
  q < n → is_full tokens q = true →
  pool n tokens (S q) shared
  = {| BlockManager.block_size := block_size;
       BlockManager.blocks :=
         <[q := {| Block.block_id := q;
                   Block.ref_count := if bool_decide (q < shared) then 2 else 1;
                   Block.hash := compute_hash (chunk tokens q) (chain tokens q);
                   Block.token_ids := chunk tokens q |}]>
           (BlockManager.blocks (pool n tokens q shared));
       BlockManager.hash_to_block_id :=
         <[compute_hash (chunk tokens q) (chain tokens q) := q]> (index_after tokens q);
       BlockManager.free_block_ids := seq (S q) (n - S q);
       BlockManager.used_block_ids := {[q]} ∪ used_after q |}.
Proof.
  intros Hq Hf. rewrite pool_S by done. rewrite Hf.
  unfold bound_block. by rewrite chain_S, Hf.
Qed.

Lemma decode_step_pool n tokens tok (s : Sequence.t) :
  1 < block_size →
  tokens ≠ [] →
  holds tokens s →
  (length (tokens ++ [tok]) + block_size - 1) / block_size ≤ n →
  ∃ s', decode_step tok tt
          (pool n tokens ((length tokens + block_size - 1) / block_size) 0, s)
        = (inr tt, (pool n (tokens ++ [tok])
                      ((length (tokens ++ [tok]) + block_size - 1) / block_size) 0,
                    s')) ∧
        holds (tokens ++ [tok]) s'.
Proof.
  intros Hbs Hne (Htok & Hnum & Hbt) Hcap. unfold holds.
  rewrite length_app in *. simpl in Hcap |- *.
  remember (length tokens) as L eqn:HL.
  assert (0 < L) by (subst L; destruct tokens; [done|simpl; lia]).
  destruct (ceil_div_bounds L ltac:(lia)) as [Hub [Hlb Hq]]; [done|].
  remember ((L + block_size - 1) / block_size) as q eqn:Hqdef.
  destruct q as [|q]; [lia|]. simpl in Hlb. rewrite Nat.sub_0_r in Hlb.
  rewrite decode_step_unfold.
  set (s1 := Sequence.append_token tok s).
  assert (Hlast : last (Sequence.block_table s1) = Some q).
  { simpl. rewrite Hbt, last_seq by lia. f_equal. lia. }
  assert (Hlen1 : Sequence.len s1 = L + 1) by (simpl; lia).
  assert (Hnum1 : Sequence.num_tokens s1 = L + 1) by (simpl; lia).
  assert (Htok1 : Sequence.token_ids s1 = tokens ++ [tok]) by (simpl; by rewrite Htok).
  destruct (decide (L = S q * block_size)) as [Hfull|Hnf].
  - (* a new logical block begins *)
    assert (Hq' : (L + 1 + block_size - 1) / block_size = S (S q)).
    { apply ceil_div_unique; simpl; nia. }
    rewrite Hq' in *.
    exists (Sequence.set_block_table (Sequence.block_table s1 ++ [S q]) s1). split.
    + erewrite (may_append_new_block _ s1 q _ (S q) (seq (S (S q)) (n - S (S q)))
                  (Block.__init__ (S q))); try done.
      * do 2 f_equal.
        rewrite (pool_last_partial n (tokens ++ [tok]) (S q)); [|lia|].
        2:{ apply is_full_false; [lia|]. rewrite length_app. simpl. nia. }
        rewrite (pool_ext n (tokens ++ [tok]) tokens (S q)),
          (index_after_ext (tokens ++ [tok]) tokens (S q)); [done| |].
        all: apply agree_sym, agree_snoc; [lia|]; intros i Hi; rewrite <- HL; nia.
      * apply pool_lookup_bound. lia.
      * simpl. lia.
      * rewrite Hlen1. simpl.
        replace (L + 1) with (1 + S q * block_size) by lia.
        rewrite Nat.Div0.mod_add. apply Nat.mod_small. lia.
      * simpl. apply chain_sentinel; [done|].
        apply is_full_spec; [lia|]. rewrite <- HL. lia.
      * simpl. by replace (n - S q) with (S (n - S (S q))) by lia.
      * apply pool_lookup_free. lia.
    + repeat split; simpl; rewrite ?length_app; simpl; rewrite <- ?HL.
      * by rewrite Htok.
      * lia.
      * rewrite Hbt. change (0 :: 1 :: seq 2 q) with (seq 0 (S (S q))).
        by rewrite (seq_S (S q)).
  - assert (Hq' : (L + 1 + block_size - 1) / block_size = S q).
    { apply ceil_div_unique; simpl; nia. }
    rewrite Hq' in *.
    assert (Hpartial : is_full tokens q = false).
    { apply is_full_false; [lia|]. rewrite <- HL. lia. }
    assert (Hnb : Sequence.num_blocks block_size s1 = inr (S q)).
    { rewrite num_blocks_spec by lia. by rewrite Hnum1, Hq'. }
    exists s1. split; [|repeat split; simpl; rewrite ?length_app; simpl;
                         rewrite <- ?HL; [by rewrite Htok|lia|done]].
    destruct (decide (L + 1 = S q * block_size)) as [Hnow|Hnot].
    + (* the last logical block becomes full *)
      assert (Hnowfull : is_full (tokens ++ [tok]) q = true).
      { apply is_full_spec; [lia|]. rewrite length_app. simpl. lia. }
      assert (Hag : agree (tokens ++ [tok]) tokens q).
      { apply agree_sym, agree_snoc; [lia|]. intros i Hi. rewrite <- HL. nia. }
      erewrite (may_append_finalize _ s1 q (bound_block tokens 0 q) (S q)
                  (chunk (tokens ++ [tok]) q)
                  (chain (tokens ++ [tok]) q)); try done.
      * do 2 f_equal.
        rewrite (pool_last_full n (tokens ++ [tok]) q) by (done || lia).
        rewrite (pool_last_partial n tokens q) by (done || lia).
        cbn [BlockManager.block_size BlockManager.blocks
             BlockManager.hash_to_block_id BlockManager.free_block_ids
             BlockManager.used_block_ids Block.update Block.block_id Block.ref_count].
        rewrite list_insert_insert_eq.
        rewrite (pool_ext n (tokens ++ [tok]) tokens q),
          (index_after_ext (tokens ++ [tok]) tokens q) by done.
        unfold bound_block. cbn [Block.block_id Block.ref_count]. done.
      * apply pool_lookup_bound. lia.
      * simpl. lia.
      * rewrite Hlen1. simpl. rewrite Hnow. apply Nat.Div0.mod_mul.
      * simpl. by rewrite Hpartial.
      * replace (Z.of_nat (S q) - 1)%Z with (Z.of_nat q) by lia.
        rewrite (block_chunk s1 (S q) q) by (done || lia). by rewrite Htok1.
      * change (Sequence.block_table s1) with (Sequence.block_table s).
        rewrite Hbt, length_seq. case_bool_decide as Hlen.
        -- destruct q as [|q']; [lia|].
           exists q', (bound_block tokens 0 q'). repeat split.
           ++ rewrite removelast_seq, last_seq by lia. f_equal. lia.
           ++ apply pool_lookup_bound. lia.
           ++ cbn [bound_block Block.hash]. symmetry. by apply chain_ext.
        -- destruct q as [|q']; [done|lia].
    + (* the last logical block stays partial *)
      erewrite (may_append_mid_block _ s1 q (bound_block tokens 0 q)); try done.
      * do 2 f_equal. apply pool_ext.
        apply agree_snoc; [lia|]. intros i Hi. rewrite <- HL.
        destruct (decide (i = q)) as [->|Hiq]; [lia|].
        assert (S i * block_size ≤ q * block_size)
          by (apply Nat.mul_le_mono_r; lia).
        lia.
      * apply pool_lookup_bound. lia.
      * simpl. lia.
      * rewrite Hlen1. simpl.
        rewrite <- (Nat.mod_unique (L + 1) block_size q (L + 1 - q * block_size)); nia.
      * rewrite Hlen1. simpl.
        rewrite <- (Nat.mod_unique (L + 1) block_size q (L + 1 - q * block_size)); nia.
      * simpl. by rewrite Hpartial.
Qed.

Lemma blocks_for_mono a b :
  a ≤ b → (a + block_size - 1) / block_size ≤ (b + block_size - 1) / block_size.
Proof. intros H. apply Nat.Div0.div_le_mono. lia. Qed.

Lemma grow_pool n completion : ∀ tokens (s : Sequence.t),
  1 < block_size →
  tokens ≠ [] →
  holds tokens s →
  (length (tokens ++ completion) + block_size - 1) / block_size ≤ n →
  ∃ s', grow completion
          (pool n tokens ((length tokens + block_size - 1) / block_size) 0, s)
        = (inr tt, (pool n (tokens ++ completion)
                      ((length (tokens ++ completion) + block_size - 1) / block_size) 0,
                    s')) ∧
        holds (tokens ++ completion) s'.
Proof.
  induction completion as [|tok rest IH]; intros tokens s Hbs Hne Hs Hcap.
  - exists s. rewrite app_nil_r. done.
  - destruct (decode_step_pool n tokens tok s Hbs Hne Hs) as (s1 & Hrun1 & Hs1).
    { etrans; [|exact Hcap]. apply blocks_for_mono.
      rewrite !length_app. simpl. lia. }
    destruct (IH (tokens ++ [tok]) s1 Hbs) as (s2 & Hrun2 & Hs2).
    + by destruct tokens.
    + done.
    + by rewrite <- app_assoc.
    + exists s2. rewrite <- app_assoc in Hrun2, Hs2. split; [|done].
      unfold grow in *. cbn [for_each]. unfold mbind, M_bind.
      by rewrite Hrun1.
Qed.

Lemma init_shape token_ids sp c (s : Sequence.t) c' :
  Sequence.__init__ token_ids sp c = (inr s, c') →
  token_ids ≠ [] ∧
  Sequence.token_ids s = token_ids ∧
  Sequence.num_tokens s = length token_ids ∧
  Sequence.num_cached_tokens s = 0 ∧
  Sequence.block_table s = [].
Proof.
  unfold Sequence.__init__. munfold. simpl.
  destruct (last token_ids) eqn:Hlast; [|done]. intros [= <- _]. simpl.
  repeat split; try done. by intros ->.
Qed.

(** C5. A sequence built from the whole token list and allocated in one
    call, and a sequence built from a prompt prefix, allocated and then
    grown token by token with [append_token] and [may_append], leave two
    fresh managers of the same size in the same state, block for block,
    with the same block table. *)
Theorem bulk_and_incremental_agree
    (n : nat) (prompt completion : list Z) (sp : SamplingParams.t)
    (c1 c1' c2 c2' : nat) (bulk grown : Sequence.t) :
  1 < block_size →
  Sequence.__init__ (prompt ++ completion) sp c1 = (inr bulk, c1') →
  Sequence.__init__ prompt sp c2 = (inr grown, c2') →
  (length (prompt ++ completion) + block_size - 1) / block_size ≤ n →
  ∃ bm bulk' bm' grown',
    allocate (BlockManager.__init__ n block_size, bulk) = (inr tt, (bm, bulk')) ∧
    (allocate;; grow completion) (BlockManager.__init__ n block_size, grown)
    = (inr tt, (bm', grown')) ∧
    Sequence.token_ids bulk' = Sequence.token_ids grown' ∧
    Sequence.block_table bulk' = Sequence.block_table grown' ∧
    Block.hash <$> BlockManager.blocks bm = Block.hash <$> BlockManager.blocks bm' ∧
    bm = bm'.
Proof.
  intros Hbs Hbulk Hgrown Hcap.
  destruct (init_shape _ _ _ _ _ Hbulk) as (_ & Ht1 & Hn1 & _ & Hbt1).
  destruct (init_shape _ _ _ _ _ Hgrown) as (Hne & Ht2 & Hn2 & _ & Hbt2).
  set (nb := (length (prompt ++ completion) + block_size - 1) / block_size) in *.
  set (np := (length prompt + block_size - 1) / block_size).
  assert (np ≤ n).
  { etrans; [|exact Hcap]. apply blocks_for_mono. rewrite length_app. lia. }
  destruct (grow_pool n completion prompt (Sequence.set_block_table (seq 0 np) grown))
    as (grown' & Hrun & Htok' & _ & Hbt'); try done.
  exists (pool n (prompt ++ completion) nb 0),
    (Sequence.set_block_table (seq 0 nb) bulk),
    (pool n (prompt ++ completion) nb 0), grown'.
  repeat split; try done.
  - rewrite (allocate_fresh n bulk nb); try done; [by rewrite Ht1|].
    rewrite num_blocks_spec by lia. by rewrite Hn1.
  - unfold mbind, M_bind.
    rewrite (allocate_fresh n grown np); try done.
    + rewrite Ht2. exact Hrun.
    + rewrite num_blocks_spec by lia. by rewrite Hn2.
  - simpl. by rewrite Ht1, Htok'.
Qed.


(** ** Sharing a prefix on a fresh manager *)

Section Sharing.
Hypothesis xxh64_collision_free :
  ∀ p t p' t', xxh64 p t = xxh64 p' t' → p = p' ∧ t = t'.

Lemma compute_hash_inj toks h toks' h' :
  compute_hash toks h = compute_hash toks' h' → h = h' ∧ toks = toks'.
Proof.
  unfold BlockManager.compute_hash. intros [Hp Ht]%xxh64_collision_free.
  split; [|done]. repeat case_bool_decide; by simplify_eq.
Qed.

Lemma is_full_below tokens i j : j ≤ i → is_full tokens i = true → is_full tokens j = true.
Proof.
  intros Hj. rewrite !is_full_spec by done. intros H.
  assert (S j * block_size ≤ S i * block_size) by (apply Nat.mul_le_mono_r; lia).
  lia.
Qed.

(** The running hash tells the position in the chain. *)
Lemma chain_pos_inj tokens : ∀ i j,
  (∀ m, m < i → is_full tokens m = true) →
  (∀ m, m < j → is_full tokens m = true) →
  chain tokens i = chain tokens j → i = j.
Proof.
  induction i as [|i IH]; intros [|j] Hi Hj; rewrite ?chain_S; try done.
  - rewrite Hj by lia. simpl. intros H. symmetry in H. by apply xxh64_sentinel_free in H.
  - rewrite Hi by lia. simpl. intros H. by apply xxh64_sentinel_free in H.
  - rewrite Hi, Hj by lia. intros [H _]%compute_hash_inj.
    f_equal. apply IH; [intros; apply Hi; lia|intros; apply Hj; lia|done].
Qed.

Lemma index_after_full tokens j i :
  i < j → is_full tokens i = true →
  index_after tokens j !! chain tokens (S i) = Some i.
Proof.
  intros Hi Hf. induction j as [|j IH]; [lia|]. cbn [index_after].
  destruct (decide (i = j)) as [->|Hne].
  - rewrite Hf. apply lookup_insert_eq.
  - destruct (is_full tokens j) eqn:Hfj; [|apply IH; lia].
    rewrite lookup_insert_ne; [apply IH; lia|].
    intros Heq. apply Hne. symmetry.
    assert (S j = S i); [|lia].
    apply (chain_pos_inj tokens); [| |done].
    + intros m Hm. apply (is_full_below tokens j); [lia|done].
    + intros m Hm. apply (is_full_below tokens i); [lia|done].
Qed.

Lemma pool_share n tokens j i :
  i < j → j ≤ n →
  <[i := bound_block tokens (S i) i]> (BlockManager.blocks (pool n tokens j i))
  = BlockManager.blocks (pool n tokens j (S i)).
Proof.
  intros Hi Hj. apply list_eq. intros x.
  destruct (decide (x = i)) as [->|Hne].
  - rewrite list_lookup_insert_eq, pool_lookup_bound; [done|lia|].
    unfold pool. simpl. rewrite length_app, !length_fmap, !length_seq. lia.
  - rewrite list_lookup_insert_ne by done.
    destruct (decide (x < j)) as [Hx|Hx].
    + rewrite !pool_lookup_bound by done. f_equal. unfold bound_block. f_equal.
      repeat case_bool_decide; try done; lia.
    + destruct (decide (x < n)) as [Hxn|Hxn].
      * by rewrite !pool_lookup_free by lia.
      * rewrite !lookup_ge_None_2; [done| |];
          unfold pool; simpl; rewrite length_app, !length_fmap, !length_seq; lia.
Qed.

Lemma pool_shared_S n tokens j i :
  i < j → j ≤ n →
  pool n tokens j (S i)
  = {| BlockManager.block_size := block_size;
       BlockManager.blocks :=
         <[i := bound_block tokens (S i) i]>
           (BlockManager.blocks (pool n tokens j i));
       BlockManager.hash_to_block_id := index_after tokens j;
       BlockManager.free_block_ids := seq j (n - j);
       BlockManager.used_block_ids := used_after j |}.
Proof. intros Hi Hj. by rewrite pool_share. Qed.

Lemma used_after_elem j i : i ∈ used_after j ↔ i < j.
Proof.
  induction j as [|j IH]; simpl.
  { split; [by intros ?%elem_of_empty|lia]. }
  rewrite elem_of_union, elem_of_singleton, IH. lia.
Qed.

Lemma pool_bind_shared n tokens tokens' j i (s : Sequence.t) :
  i < j → j ≤ n →
  is_full tokens i = true →
  agree tokens tokens' (S i) →
  Sequence.block block_size (Z.of_nat i) s = inr (chunk tokens' i) →
  allocate_iter i (chain tokens' i, false) (pool n tokens j i, s)
  = (inr (chain tokens' (S i), false),
     (pool n tokens j (S i),
      Sequence.set_block_table (Sequence.block_table s ++ [i])
        (Sequence.set_num_cached_tokens
           (Sequence.num_cached_tokens s + block_size) s))).
Proof.
  intros Hi Hj Hf Hag Hblk.
  destruct (Hag i) as [Hf' Hc]; [lia|]. rewrite Hf in Hf'. specialize (Hc Hf).
  assert (Hchain : chain tokens' i = chain tokens i).
  { symmetry. apply chain_ext. by apply (agree_le _ _ (S i)); [lia|]. }
  assert (Hchain' : compute_hash (chunk tokens' i) (chain tokens' i) = chain tokens (S i)).
  { by rewrite chain_S, Hf, Hc, Hchain. }
  erewrite (allocate_iter_hit_run i _ _ s (chunk tokens' i) i
              (bound_block tokens i i)); try done.
  - rewrite Hchain'. rewrite (chain_S tokens' i), <- Hf', Hchain'. do 3 f_equal.
    rewrite pool_shared_S by done. f_equal. f_equal.
    unfold bound_block.
    rewrite (bool_decide_eq_false_2 (i < i)), (bool_decide_eq_true_2 (i < S i)) by lia.
    rewrite Hf. simpl. by rewrite Hc.
  - simpl. unfold is_full in Hf'. symmetry in Hf'. by apply bool_decide_eq_true in Hf'.
  - apply xxh64_sentinel_free.
  - rewrite Hchain'. apply index_after_full; [lia|done].
  - by apply pool_lookup_bound.
  - simpl. by rewrite Hf.
  - simpl. by apply used_after_elem.
Qed.

Lemma pool_share_loop n tokens tokens' j m : ∀ i (s : Sequence.t),
  i + m ≤ j → j ≤ n →
  (∀ x, x < i + m → is_full tokens x = true) →
  agree tokens tokens' (i + m) →
  (∀ x, x < i + m →
     Sequence.block block_size (Z.of_nat x) s = inr (chunk tokens' x)) →
  for_each allocate_iter (seq i m) (chain tokens' i, false) (pool n tokens j i, s)
  = (inr (chain tokens' (i + m), false),
     (pool n tokens j (i + m),
      Sequence.set_block_table (Sequence.block_table s ++ seq i m)
        (Sequence.set_num_cached_tokens
           (Sequence.num_cached_tokens s + m * block_size) s))).
Proof.
  induction m as [|m IH]; intros i s Him Hj Hfull Hag Hblk.
  - simpl. rewrite !Nat.add_0_r, app_nil_r. by destruct s.
  - cbn [seq for_each]. unfold mbind, M_bind.
    rewrite pool_bind_shared; [|lia|done|apply Hfull; lia| |apply Hblk; lia].
    2:{ apply (agree_le _ _ (i + S m)); [lia|done]. }
    rewrite IH; [|lia|done| | |].
    + rewrite Nat.add_succ_r. do 2 f_equal.
      unfold Sequence.set_block_table, Sequence.set_num_cached_tokens.
      destruct s; simpl. f_equal; [lia|by rewrite <- app_assoc].
    + intros x Hx. apply Hfull. lia.
    + by rewrite Nat.add_succ_comm.
    + intros x Hx. rewrite <- (Hblk x) by lia. done.
Qed.

Lemma miss_ready_pool n tokens j shared : j ≤ n → miss_ready (pool n tokens j shared).
Proof.
  intros Hj. repeat split.
  - intros h b [Hb _]%index_after_lookup. rewrite pool_lookup_bound by done. eauto.
  - intros b [Hb1 Hb2]%elem_of_seq. exists (Block.__init__ b). split; [|done].
    apply pool_lookup_free. lia.
  - apply NoDup_seq.
Qed.

(** A run of forced misses returns when enough blocks are free. *)
Lemma forced_loop_runs l : ∀ h (bm : BlockManager.t) (s : Sequence.t),
  miss_ready bm →
  length l ≤ length (BlockManager.free_block_ids bm) →
  (∀ i, i ∈ l → ∃ toks, Sequence.block block_size (Z.of_nat i) s = inr toks) →
  ∃ loc st', for_each allocate_iter l (h, true) (bm, s) = (inr loc, st').
Proof.
  induction l as [|i l IH]; intros h bm s (Hidx & Hfree & Hnd) Hlen Hblk.
  - simpl. eauto.
  - destruct (Hblk i) as [toks Htoks]; [apply list_elem_of_here|].
    destruct (BlockManager.free_block_ids bm) as [|b free'] eqn:Hf; [simpl in Hlen; lia|].
    destruct (Hfree b) as (blk & Hb & Hrc); [apply list_elem_of_here|].
    cbn [for_each]. unfold mbind, M_bind.
    erewrite (allocate_iter_miss_run i h true bm s toks b free' blk); eauto.
    apply NoDup_cons in Hnd as [Hnotin Hnd].
    apply IH.
    + repeat split; simpl; [| |done].
      * intros h' b' Hl. apply lookup_lt_is_Some. rewrite length_insert.
        apply lookup_lt_is_Some.
        case_bool_decide; [|by eapply Hidx].
        apply lookup_insert_Some in Hl as [[_ <-]|[_ Hl]]; [eauto|by eapply Hidx].
      * intros b' Hb'. destruct (Hfree b') as (blk' & Hl' & Hrc');
          [by apply list_elem_of_further|].
        exists blk'. split; [|done]. rewrite list_lookup_insert_ne; [done|].
        by intros ->.
    + simpl in *. lia.
    + intros i' Hi'. destruct (Hblk i') as [toks' Ht']; [by apply list_elem_of_further|].
      exists toks'. rewrite <- Ht'. done.
Qed.

Lemma first_miss_loop i l h (bm : BlockManager.t) (s : Sequence.t) toks :
  Sequence.block block_size (Z.of_nat i) s = inr toks →
  cache_hit bm (block_hash bm toks h) toks = false →
  for_each allocate_iter (i :: l) (h, false) (bm, s)
  = for_each allocate_iter (i :: l) (h, true) (bm, s).
Proof.
  intros Htoks Hmiss. cbn [for_each]. unfold mbind, M_bind.
  by erewrite allocate_iter_first_miss.
Qed.


(** ** The same prompt twice *)

Lemma partial_block_misses n tokens j shared k h :
  is_full tokens k = false →
  cache_hit (pool n tokens j shared)
    (block_hash (pool n tokens j shared) (chunk tokens k) h) (chunk tokens k) = false.
Proof.
  intros Hf. unfold cache_hit, block_hash.
  cbn [pool BlockManager.block_size].
  unfold is_full in Hf. rewrite Hf.
  destruct (BlockManager.hash_to_block_id _ !! _) as [b|] eqn:Hl; [|done].
  exfalso. cbn [pool BlockManager.hash_to_block_id] in Hl.
  apply index_after_lookup in Hl as (Hb & Hfb & Hh).
  symmetry in Hh. by apply chain_sentinel in Hh.
Qed.

(** A prompt allocated on a fresh manager and then once more, for a
    second sequence: the second call binds every full block of the
    prompt to the block the first sequence holds and counts all their
    tokens as cached; only a last block that is not full gets a block of
    its own.  A prompt of whole blocks is thus cached entirely
    ([num_cached_tokens = num_tokens]) and costs no free block, although
    [can_allocate] asks for as many free blocks as it has logical
    blocks. *)
Theorem same_prompt_twice
    (n : nat) (tokens : list Z) (sp1 sp2 : SamplingParams.t)
    (c1 c1' c2 c2' : nat) (s1 s2 : Sequence.t) :
  Sequence.__init__ tokens sp1 c1 = (inr s1, c1') →
  Sequence.__init__ tokens sp2 c2 = (inr s2, c2') →
  let nb := (length tokens + block_size - 1) / block_size in
  let full := length tokens / block_size in
  nb + (nb - full) ≤ n →
  ∃ bm1 s1' bm2 s2',
    allocate (BlockManager.__init__ n block_size, s1) = (inr tt, (bm1, s1')) ∧
    allocate (bm1, s2) = (inr tt, (bm2, s2')) ∧
    Sequence.block_table s1' = seq 0 nb ∧
    Sequence.block_table s2' = seq 0 full ++ seq nb (nb - full) ∧
    Sequence.num_cached_tokens s2' = full * block_size ∧
    BlockManager.can_allocate block_size (bm1, s2)
    = (inr (bool_decide (2 * nb ≤ n)), (bm1, s2)) ∧
    (length tokens mod block_size = 0 →
     Sequence.block_table s2' = Sequence.block_table s1' ∧
     Sequence.num_cached_tokens s2' = Sequence.num_tokens s2' ∧
     BlockManager.free_block_ids bm2 = BlockManager.free_block_ids bm1).
Proof.
  intros Hs1 Hs2 nb full Hcap.
  destruct (init_shape _ _ _ _ _ Hs1) as (_ & Ht1 & Hn1 & _ & Hbt1).
  destruct (init_shape _ _ _ _ _ Hs2) as (_ & Ht2 & Hn2 & Hc2 & Hbt2).
  assert (Hnb1 : Sequence.num_blocks block_size s1 = inr nb).
  { rewrite num_blocks_spec by done. by rewrite Hn1. }
  assert (Hnb2 : Sequence.num_blocks block_size s2 = inr nb).
  { rewrite num_blocks_spec by done. by rewrite Hn2. }
  pose proof (Nat.div_mod (length tokens) block_size ltac:(lia)) as Hdm.
  pose proof (Nat.mod_upper_bound (length tokens) block_size ltac:(lia)) as Hub.
  fold full in Hdm.
  pose proof (ceil_div_bounds (length tokens) block_size_pos) as [Hup Hlow].
  fold nb in Hup, Hlow.
  assert (Hfn : full ≤ nb ∧ nb ≤ S full ∧
                (length tokens mod block_size = 0 → nb = full)).
  { destruct (decide (length tokens = 0)) as [Hz|Hnz].
    - assert (nb = 0) by (unfold nb; rewrite Hz; apply Nat.div_small; lia).
      assert (full = 0) by (unfold full; rewrite Hz; apply Nat.div_small; lia).
      lia.
    - destruct Hlow as [Hlow Hpos]; [lia|].
      split; [nia|]. split; [nia|]. intros Hz. rewrite Hz in Hdm. nia. }
  destruct Hfn as (Hf1 & Hf2 & Hf3).
  assert (Hfull : ∀ m, m < full → is_full tokens m = true).
  { intros m Hm. apply is_full_spec; [done|]. nia. }
  assert (Hag : agree tokens tokens full) by (by intros i Hi).
  assert (Hblk2 : ∀ x, x < nb →
            Sequence.block block_size (Z.of_nat x) s2 = inr (chunk tokens x)).
  { intros x Hx. rewrite (block_chunk s2 nb x) by done. by rewrite Ht2. }
  pose proof (allocate_fresh n s1 nb Hbt1 Hnb1 ltac:(lia)) as Hrun1.
  rewrite Ht1 in Hrun1.
  set (s2k := Sequence.set_block_table (seq 0 full)
                (Sequence.set_num_cached_tokens (full * block_size) s2)).
  assert (Hhits : for_each allocate_iter (seq 0 full) ((-1)%Z, false)
                    (pool n tokens nb 0, s2)
                  = (inr (chain tokens full, false), (pool n tokens nb full, s2k))).
  { pose proof (pool_share_loop n tokens tokens nb full 0 s2
                  ltac:(lia) ltac:(lia) Hfull Hag) as H.
    rewrite Hbt2, Hc2 in H. apply H. intros; apply Hblk2; lia. }
  assert (Hcan : BlockManager.can_allocate block_size (pool n tokens nb 0, s2)
                 = (inr (bool_decide (2 * nb ≤ n)), (pool n tokens nb 0, s2))).
  { unfold BlockManager.can_allocate, BlockManager.seq_call, BlockManager.on_self.
    munfold. simpl. rewrite Hnb2. simpl. rewrite length_seq.
    do 2 f_equal. apply bool_decide_ext. lia. }
  destruct (decide (nb = full)) as [Heq|Hne].
  - (* whole blocks only *)
    exists (pool n tokens nb 0), (Sequence.set_block_table (seq 0 nb) s1),
      (pool n tokens nb full), s2k.
    split; [done|]. split.
    { rewrite allocate_unfold, Hbt2, Hnb2. rewrite bool_decide_eq_true_2 by done.
      replace (seq 0 nb) with (seq 0 full) by (by rewrite Heq).
      by rewrite Hhits. }
    split; [done|]. split; [simpl; by rewrite Heq, Nat.sub_diag, app_nil_r|].
    split; [done|]. split; [done|].
    intros Hz. split; [simpl; by rewrite Heq|]. split; [|done].
    simpl. rewrite Hn2. rewrite Hz in Hdm. lia.
  - (* a last block that is not full *)
    assert (nb = S full) as HS by lia.
    assert (Hpart : is_full tokens full = false).
    { apply is_full_false; [done|].
      destruct (decide (length tokens mod block_size = 0)) as [Hz|]; [|nia].
      specialize (Hf3 Hz). lia. }
    assert (Hmiss : for_each allocate_iter (seq full (nb - full)) (chain tokens full, false)
                      (pool n tokens nb full, s2k)
                    = for_each allocate_iter (seq full (nb - full)) (chain tokens full, true)
                        (pool n tokens nb full, s2k)).
    { replace (nb - full) with 1 by lia. cbn [seq].
      apply (first_miss_loop _ _ _ _ _ (chunk tokens full)).
      - rewrite <- (Hblk2 full) by lia. done.
      - by apply partial_block_misses. }
    destruct (forced_loop_runs (seq full (nb - full)) (chain tokens full)
                (pool n tokens nb full) s2k) as (loc & st' & Hrest).
    { apply miss_ready_pool. lia. }
    { simpl. rewrite !length_seq. lia. }
    { intros i [Hi1 Hi2]%elem_of_seq. exists (chunk tokens i).
      rewrite <- (Hblk2 i) by lia. done. }
    pose proof (post_run _ _ _ _ _ Hrest (forced_loop _ _ _ _)) as Hpost.
    destruct loc as [h' cm']. destruct Hpost as (_ & Hbt' & _ & _ & Hc' & _).
    simpl in Hbt', Hc'. rewrite length_seq in Hbt'.
    rewrite take_seq, Nat.min_l in Hbt' by lia.
    exists (pool n tokens nb 0), (Sequence.set_block_table (seq 0 nb) s1), st'.1, st'.2.
    split; [done|]. split.
    { rewrite allocate_unfold, Hbt2, Hnb2.
      rewrite bool_decide_eq_true_2 by done.
      replace (seq 0 nb) with (seq 0 full ++ seq full (nb - full))
        by (rewrite <- seq_app; f_equal; lia).
      rewrite for_each_app, Hhits, Hmiss, Hrest.
      by destruct st'. }
    split; [done|]. split; [done|]. split; [done|]. split; [done|].
    intros Hz. specialize (Hf3 Hz). lia.
Qed.

End Sharing.

End Fresh.


(** ** Reference counts *)

Lemma bump_same b cnt : bump b cnt b = cnt b + 1.
Proof. unfold bump. by rewrite decide_True. Qed.

Lemma bump_other b cnt id : id ≠ b → bump b cnt id = cnt id.
Proof. intros H. unfold bump. rewrite decide_False by done. lia. Qed.

Lemma pool_inv_ext n cnt cnt' (bm : BlockManager.t) :
  (∀ id, cnt id = cnt' id) → pool_inv n cnt bm → pool_inv n cnt' bm.
Proof.
  intros E [H1 H2 H3 H4 H5 H6 H7 H8].
  split; try done; intros *; rewrite <- ?E; auto.
Qed.

Lemma pool_inv_lookup n cnt (bm : BlockManager.t) b :
  pool_inv n cnt bm → b < n → is_Some (BlockManager.blocks bm !! b).
Proof. intros H Hb. apply lookup_lt_is_Some. by rewrite (inv_length _ _ _ H). Qed.

(** The pool after one more logical block was bound to [b]. *)
Lemma pool_inv_bind n cnt b (bm bm' : BlockManager.t) blk' :
  pool_inv n cnt bm → b < n →
  length (BlockManager.blocks bm') = n →
  (∀ id, id ≠ b → BlockManager.blocks bm' !! id = BlockManager.blocks bm !! id) →
  BlockManager.blocks bm' !! b = Some blk' →
  Block.ref_count blk' = (Z.of_nat (cnt b) + 1)%Z →
  NoDup (BlockManager.free_block_ids bm') →
  (∀ x, x ∈ BlockManager.free_block_ids bm'
        ↔ x ∈ BlockManager.free_block_ids bm ∧ x ≠ b) →
  (∀ x, x ∈ BlockManager.used_block_ids bm'
        ↔ x = b ∨ x ∈ BlockManager.used_block_ids bm) →
  (∀ h id, BlockManager.hash_to_block_id bm' !! h = Some id →
           id = b ∨ BlockManager.hash_to_block_id bm !! h = Some id) →
  BlockManager.hash_to_block_id bm' !! (-1)%Z = None →
  pool_inv n (bump b cnt) bm'.
Proof.
  intros [H1 H2 H3 H4 H5 H6 H7 H8] Hb Hlen Hother Hat Hrc Hnd Hfree Hused Hidx Hs.
  split; try done.
  - intros id. rewrite Hfree, H3. destruct (decide (id = b)) as [->|Hne].
    + rewrite bump_same. lia.
    + rewrite bump_other by done. tauto.
  - intros id. rewrite Hused, H4. destruct (decide (id = b)) as [->|Hne].
    + rewrite bump_same. intuition lia.
    + rewrite bump_other by done. tauto.
  - intros id block. destruct (decide (id = b)) as [->|Hne].
    + rewrite Hat, bump_same. intros [= <-]. lia.
    + rewrite Hother, bump_other by done. apply H5.
  - intros h id [->|Hl]%Hidx; [done|]. by eapply H6.
  - intros id Hid. rewrite bump_other by lia. by apply H8.
Qed.

(** The pool after one reference on [b] was dropped. *)
Lemma pool_inv_unbind n cnt b (bm bm' : BlockManager.t) blk' :
  pool_inv n (bump b cnt) bm →
  length (BlockManager.blocks bm') = n →
  (∀ id, id ≠ b → BlockManager.blocks bm' !! id = BlockManager.blocks bm !! id) →
  BlockManager.blocks bm' !! b = Some blk' →
  Block.ref_count blk' = Z.of_nat (cnt b) →
  NoDup (BlockManager.free_block_ids bm') →
  (∀ x, x ∈ BlockManager.free_block_ids bm'
        ↔ x ∈ BlockManager.free_block_ids bm ∨ (x = b ∧ cnt b = 0)) →
  (∀ x, x ∈ BlockManager.used_block_ids bm'
        ↔ x ∈ BlockManager.used_block_ids bm ∧ (x ≠ b ∨ cnt b ≠ 0)) →
  BlockManager.hash_to_block_id bm' = BlockManager.hash_to_block_id bm →
  pool_inv n cnt bm'.
Proof.
  intros [H1 H2 H3 H4 H5 H6 H7 H8] Hlen Hother Hat Hrc Hnd Hfree Hused Hidx.
  assert (Hb : b < n).
  { destruct (decide (b < n)); [done|]. specialize (H8 b ltac:(lia)).
    rewrite bump_same in H8. lia. }
  split; try done; rewrite ?Hidx; try done.
  - intros id. rewrite Hfree, H3. destruct (decide (id = b)) as [->|Hne].
    + rewrite bump_same. intuition lia.
    + rewrite bump_other by done. intuition lia.
  - intros id. rewrite Hused, H4. destruct (decide (id = b)) as [->|Hne].
    + rewrite bump_same. intuition lia.
    + rewrite bump_other by done. intuition lia.
  - intros id block. destruct (decide (id = b)) as [->|Hne].
    + rewrite Hat. intros [= <-]. done.
    + rewrite Hother by done. intros Hl. apply H5 in Hl.
      by rewrite bump_other in Hl.
  - intros id Hid. specialize (H8 id Hid). by rewrite bump_other in H8 by lia.
Qed.

Lemma deque_remove_spec b l l' :
  BlockManager.deque_remove b l = Some l' → NoDup l →
  NoDup l' ∧ (∀ x, x ∈ l' ↔ x ∈ l ∧ x ≠ b) ∧ length l = S (length l').
Proof.
  revert l'. induction l as [|y l IH]; intros l' Hrm Hnd; [done|].
  apply NoDup_cons in Hnd as [Hy Hnd]. simpl in Hrm.
  destruct (decide (y = b)) as [->|Hne].
  - injection Hrm as <-. split; [done|]. split; [|done].
    intros x. rewrite elem_of_cons. split; [|intros [[?|?] ?]; done].
    intros Hx. split; [by right|]. by intros ->.
  - destruct (BlockManager.deque_remove b l) as [l''|] eqn:Hrm'; [|done].
    injection Hrm as <-. destruct (IH l'' eq_refl Hnd) as (Hnd' & Hel & Hlen).
    split; [|split].
    + apply NoDup_cons. split; [|done]. rewrite Hel. tauto.
    + intros x. rewrite !elem_of_cons, Hel. split; [|tauto].
      intros [->|[? ?]]; [split; [by left|done]|tauto].
    + simpl. lia.
Qed.

Lemma cache_hit_true (bm : BlockManager.t) h toks :
  cache_hit bm h toks = true →
  ∃ b blk, BlockManager.hash_to_block_id bm !! h = Some b ∧
           BlockManager.blocks bm !! b = Some blk ∧
           Block.token_ids blk = toks.
Proof.
  unfold cache_hit.
  destruct (BlockManager.hash_to_block_id bm !! h) as [b|]; [|done].
  destruct (BlockManager.blocks bm !! b) as [blk|] eqn:Hb; [|done].
  intros H%bool_decide_eq_true. eauto.
Qed.

(** An iteration of [allocate] on a consistent pool with a free block
    returns, and the pool stays consistent with one more reference. *)
Lemma allocate_iter_inv n cnt i h cm (bm : BlockManager.t) (s : Sequence.t) toks :
  pool_inv n cnt bm →
  Sequence.block block_size (Z.of_nat i) s = inr toks →
  BlockManager.free_block_ids bm ≠ [] →
  ∃ loc b bm' s',
    allocate_iter i (h, cm) (bm, s) = (inr loc, (bm', s')) ∧
    Sequence.block_table s' = Sequence.block_table s ++ [b] ∧
    same_tokens s s' ∧
    pool_inv n (bump b cnt) bm' ∧
    length (BlockManager.free_block_ids bm)
    ≤ S (length (BlockManager.free_block_ids bm')).
Proof.
  intros Hinv Htoks Hfree.
  set (h' := block_hash bm toks h).
  destruct (decide (cm = true ∨ cache_hit bm h' toks = false)) as [Hmiss|Hhit].
  - (* a miss: the head of the free list *)
    destruct (BlockManager.free_block_ids bm) as [|b free'] eqn:Hf; [done|].
    assert (Hbfree : b ∈ BlockManager.free_block_ids bm)
      by (rewrite Hf; apply list_elem_of_here).
    apply (inv_free _ _ _ Hinv) in Hbfree as [Hb Hcnt].
    destruct (pool_inv_lookup _ _ _ b Hinv Hb) as [blk Hblk].
    pose proof (inv_count _ _ _ Hinv _ _ Hblk) as Hrc. rewrite Hcnt in Hrc.
    pose proof (inv_nodup _ _ _ Hinv) as Hnd. rewrite Hf in Hnd.
    apply NoDup_cons in Hnd as [Hnotin Hnd].
    eexists _, b, _, _. split.
    { apply (allocate_iter_miss_run i h cm bm s toks b free' blk); try done.
      intros b' Hb'. eapply pool_inv_lookup; [done|]. by eapply inv_index. }
    fold h'. split; [done|]. split; [done|]. split; [|simpl; lia].
    eapply (pool_inv_bind n cnt b bm); try done; simpl.
    + rewrite length_insert. apply (inv_length _ _ _ Hinv).
    + intros id Hid. apply list_lookup_insert_ne. congruence.
    + eapply lookup_insert_present, Hblk.
    + rewrite Hcnt. by case_bool_decide.
    + intros x. rewrite Hf, elem_of_cons. split; [|tauto].
      intros Hx. split; [by right|]. by intros ->.
    + intros x. rewrite elem_of_union, elem_of_singleton. tauto.
    + intros h0 id. case_bool_decide; [|by right].
      rewrite lookup_insert. case_decide; [intros [= <-]; by left|by right].
    + case_bool_decide as Hh'; [|apply (inv_sentinel _ _ _ Hinv)].
      rewrite lookup_insert_ne by done. apply (inv_sentinel _ _ _ Hinv).
  - (* a hit *)
    assert (cm = false) as -> by (destruct cm; tauto).
    assert (Hhit' : cache_hit bm h' toks = true)
      by (destruct (cache_hit bm h' toks); tauto).
    apply cache_hit_true in Hhit' as (b & blk & Hidx & Hblk & Htok).
    assert (Hh' : h' ≠ (-1)%Z).
    { intros E. rewrite E, (inv_sentinel _ _ _ Hinv) in Hidx. done. }
    subst h'. unfold block_hash in *. case_bool_decide as Hlen; [|done].
    pose proof (inv_index _ _ _ Hinv _ _ Hidx) as Hb.
    pose proof (inv_count _ _ _ Hinv _ _ Hblk) as Hrc.
    destruct (decide (b ∈ BlockManager.used_block_ids bm)) as [Hused|Hused].
    + eexists _, b, _, _. split.
      { by apply (allocate_iter_hit_run i h bm s toks b blk). }
      split; [done|]. split; [done|]. split; [|simpl; lia].
      pose proof (proj1 (inv_used _ _ _ Hinv b) Hused) as [_ Hcnt].
      eapply (pool_inv_bind n cnt b bm); try done; simpl.
      * rewrite length_insert. apply (inv_length _ _ _ Hinv).
      * intros id Hid. apply list_lookup_insert_ne. congruence.
      * eapply lookup_insert_present, Hblk.
      * simpl. lia.
      * apply (inv_nodup _ _ _ Hinv).
      * intros x. split; [|tauto]. intros Hx. split; [done|].
        intros ->. apply (inv_free _ _ _ Hinv) in Hx. tauto.
      * intros x. split; [tauto|]. by intros [->|?].
      * intros h0 id ?. by right.
      * apply (inv_sentinel _ _ _ Hinv).
    + assert (Hcnt : cnt b = 0).
      { destruct (decide (cnt b = 0)); [done|].
        exfalso. apply Hused. by apply (inv_used _ _ _ Hinv). }
      assert (Hbfree : b ∈ BlockManager.free_block_ids bm)
        by (by apply (inv_free _ _ _ Hinv)).
      rewrite Hcnt in Hrc.
      destruct (allocate_iter_reclaim_run bm s i h toks b blk)
        as (free' & Hrm & Hrun); try done.
      destruct (deque_remove_spec _ _ _ Hrm (inv_nodup _ _ _ Hinv))
        as (Hnd' & Hel & Hlen').
      eexists _, b, _, _. split; [exact Hrun|].
      split; [done|]. split; [done|]. split; [|simpl; lia].
      eapply (pool_inv_bind n cnt b bm); try done; simpl.
      * rewrite length_insert. apply (inv_length _ _ _ Hinv).
      * intros id Hid. apply list_lookup_insert_ne. congruence.
      * eapply lookup_insert_present, Hblk.
      * simpl. lia.
      * intros x. rewrite elem_of_union, elem_of_singleton. tauto.
      * intros h0 id ?. by right.
      * apply (inv_sentinel _ _ _ Hinv).
Qed.


Lemma count_occ_bump b l cnt id :
  bump b cnt id + count_occ Nat.eq_dec l id = cnt id + count_occ Nat.eq_dec (b :: l) id.
Proof.
  unfold bump. simpl. destruct (Nat.eq_dec b id) as [->|Hne].
  - rewrite decide_True by done. lia.
  - rewrite decide_False by congruence. lia.
Qed.

Lemma allocate_loop_inv n l : ∀ cnt loc (bm : BlockManager.t) (s : Sequence.t),
  pool_inv n cnt bm →
  length l ≤ length (BlockManager.free_block_ids bm) →
  (∀ i, i ∈ l → ∃ toks, Sequence.block block_size (Z.of_nat i) s = inr toks) →
  ∃ loc' bm' s' bt',
    for_each allocate_iter l loc (bm, s) = (inr loc', (bm', s')) ∧
    Sequence.block_table s' = Sequence.block_table s ++ bt' ∧
    pool_inv n (λ id, cnt id + count_occ Nat.eq_dec bt' id) bm'.
Proof.
  induction l as [|i l IH]; intros cnt [h cm] bm s Hinv Hlen Hblk.
  - exists (h, cm), bm, s, []. simpl. rewrite app_nil_r.
    split; [done|]. split; [done|].
    eapply pool_inv_ext; [|done]. intros id. simpl. lia.
  - destruct (Hblk i) as [toks Htoks]; [apply list_elem_of_here|].
    destruct (allocate_iter_inv n cnt i h cm bm s toks Hinv Htoks)
      as (loc1 & b & bm1 & s1 & Hrun1 & Hbt1 & Hsame & Hinv1 & Hlen1).
    { intros E. rewrite E in Hlen. simpl in Hlen. lia. }
    destruct (IH (bump b cnt) loc1 bm1 s1 Hinv1) as (loc2 & bm2 & s2 & bt2 & Hrun2 & Hbt2 & Hinv2).
    + simpl in Hlen. lia.
    + intros i' Hi'. destruct (Hblk i') as [toks' Ht']; [by apply list_elem_of_further|].
      exists toks'. by rewrite (block_same_tokens _ s s1).
    + exists loc2, bm2, s2, (b :: bt2). split; [|split].
      * cbn [for_each]. unfold mbind, M_bind. by rewrite Hrun1.
      * by rewrite Hbt2, Hbt1, <- app_assoc.
      * eapply pool_inv_ext; [|done]. intros id. apply count_occ_bump.
Qed.

Lemma allocate_inv n cnt (bm : BlockManager.t) (s : Sequence.t) nb :
  pool_inv n cnt bm →
  Sequence.block_table s = [] →
  Sequence.num_blocks block_size s = inr nb →
  nb ≤ length (BlockManager.free_block_ids bm) →
  ∃ bm' s',
    allocate (bm, s) = (inr tt, (bm', s')) ∧
    pool_inv n (λ id, cnt id + count_occ Nat.eq_dec (Sequence.block_table s') id) bm'.
Proof.
  intros Hinv Hbt Hnb Hcap.
  destruct (allocate_loop_inv n (seq 0 nb) cnt ((-1)%Z, false) bm s Hinv)
    as (loc & bm' & s' & bt' & Hrun & Hbt' & Hinv').
  - by rewrite length_seq.
  - intros i [_ Hi]%elem_of_seq. eexists. by apply (block_chunk s nb).
  - exists bm', s'. rewrite allocate_unfold, Hbt, Hnb, Hrun.
    split; [done|]. by rewrite Hbt', Hbt.
Qed.

Lemma deallocate_iter_release b (bm : BlockManager.t) (s : Sequence.t) blk :
  BlockManager.blocks bm !! b = Some blk →
  (Block.ref_count blk - 1)%Z = 0%Z →
  b ∈ BlockManager.used_block_ids bm →
  BlockManager.deallocate_iter b tt (bm, s)
  = (inr tt,
     ({| BlockManager.block_size := BlockManager.block_size bm;
         BlockManager.blocks :=
           <[b := Block.set_ref_count 0 blk]> (BlockManager.blocks bm);
         BlockManager.hash_to_block_id := BlockManager.hash_to_block_id bm;
         BlockManager.free_block_ids := BlockManager.free_block_ids bm ++ [b];
         BlockManager.used_block_ids := BlockManager.used_block_ids bm ∖ {[b]} |},
      s)).
Proof.
  intros Hblk Hrc Hused.
  apply post_eq. unfold BlockManager.deallocate_iter.
  wp; rewrite ?(alter_lookup_insert _ _ _ _ Hblk) in *; simpl in *.
  - by erewrite lookup_insert_present in * by done.
  - erewrite lookup_insert_present in * by done. by simplify_eq/=.
  - done.
  - by rewrite Hrc.
Qed.

Lemma deallocate_iter_keep b (bm : BlockManager.t) (s : Sequence.t) blk :
  BlockManager.blocks bm !! b = Some blk →
  (Block.ref_count blk - 1)%Z ≠ 0%Z →
  BlockManager.deallocate_iter b tt (bm, s)
  = (inr tt,
     (BlockManager.set_blocks
        (<[b := Block.set_ref_count (Block.ref_count blk - 1) blk]>
           (BlockManager.blocks bm)) bm,
      s)).
Proof.
  intros Hblk Hrc.
  apply post_eq. unfold BlockManager.deallocate_iter.
  wp. by rewrite (alter_lookup_insert _ _ _ _ Hblk).
Qed.

Lemma deallocate_iter_inv n cnt b (bm : BlockManager.t) (s : Sequence.t) :
  pool_inv n (bump b cnt) bm →
  ∃ bm', BlockManager.deallocate_iter b tt (bm, s) = (inr tt, (bm', s)) ∧
         pool_inv n cnt bm'.
Proof.
  intros Hinv.
  assert (Hb : b < n).
  { destruct (decide (b < n)); [done|].
    pose proof (inv_range _ _ _ Hinv b ltac:(lia)) as H. rewrite bump_same in H. lia. }
  destruct (pool_inv_lookup _ _ _ b Hinv Hb) as [blk Hblk].
  pose proof (inv_count _ _ _ Hinv _ _ Hblk) as Hrc. rewrite bump_same in Hrc.
  assert (Hused : b ∈ BlockManager.used_block_ids bm).
  { apply (inv_used _ _ _ Hinv). rewrite bump_same. lia. }
  assert (Hnotfree : b ∉ BlockManager.free_block_ids bm).
  { intros [_ H]%(inv_free _ _ _ Hinv). rewrite bump_same in H. lia. }
  destruct (decide (cnt b = 0)) as [Hz|Hnz].
  - eexists. split; [apply (deallocate_iter_release b bm s blk); [done|lia|done]|].
    apply (pool_inv_unbind n cnt b bm _ (Block.set_ref_count 0 blk)); simpl; try done.
    + rewrite length_insert. apply (inv_length _ _ _ Hinv).
    + intros id Hid. apply list_lookup_insert_ne. congruence.
    + eapply lookup_insert_present, Hblk.
    + lia.
    + apply NoDup_app. split; [apply (inv_nodup _ _ _ Hinv)|]. split.
      * intros x Hx ->%list_elem_of_singleton. done.
      * apply NoDup_singleton.
    + intros x. rewrite elem_of_app, list_elem_of_singleton. tauto.
    + intros x. rewrite elem_of_difference, elem_of_singleton. intuition lia.
  - eexists. split; [apply (deallocate_iter_keep b bm s blk); [done|lia]|].
    apply (pool_inv_unbind n cnt b bm _
             (Block.set_ref_count (Block.ref_count blk - 1) blk)); simpl; try done.
    + rewrite length_insert. apply (inv_length _ _ _ Hinv).
    + intros id Hid. apply list_lookup_insert_ne. congruence.
    + eapply lookup_insert_present, Hblk.
    + lia.
    + apply (inv_nodup _ _ _ Hinv).
    + intros x. intuition lia.
    + intros x. intuition lia.
Qed.

Lemma deallocate_loop_inv n l : ∀ cnt (bm : BlockManager.t) (s : Sequence.t),
  pool_inv n (λ id, cnt id + count_occ Nat.eq_dec l id) bm →
  ∃ bm', for_each BlockManager.deallocate_iter l tt (bm, s) = (inr tt, (bm', s)) ∧
         pool_inv n cnt bm'.
Proof.
  induction l as [|b l IH]; intros cnt bm s Hinv.
  - exists bm. split; [done|]. eapply pool_inv_ext; [|done]. intros id. simpl. lia.
  - destruct (deallocate_iter_inv n (λ id, cnt id + count_occ Nat.eq_dec l id) b bm s)
      as (bm1 & Hrun1 & Hinv1).
    { eapply pool_inv_ext; [|done]. intros id. unfold bump. simpl.
      destruct (Nat.eq_dec b id) as [->|Hne].
      - rewrite decide_True by done. lia.
      - rewrite decide_False by congruence. lia. }
    destruct (IH cnt bm1 s Hinv1) as (bm2 & Hrun2 & Hinv2).
    exists bm2. split; [|done].
    cbn [for_each]. unfold mbind, M_bind. by rewrite Hrun1.
Qed.

Lemma deallocate_inv n cnt (bm : BlockManager.t) (s : Sequence.t) :
  pool_inv n (λ id, cnt id + count_occ Nat.eq_dec (Sequence.block_table s) id) bm →
  ∃ bm' s',
    BlockManager.deallocate (bm, s) = (inr tt, (bm', s')) ∧
    Sequence.block_table s' = [] ∧
    pool_inv n cnt bm'.
Proof.
  intros Hinv.
  destruct (deallocate_loop_inv n (reverse (Sequence.block_table s)) cnt bm s)
    as (bm' & Hrun & Hinv').
  { eapply pool_inv_ext; [|done]. intros id. simpl. f_equal.
    apply Permutation_count_occ. symmetry. apply reverse_Permutation. }
  exists bm', (Sequence.set_block_table [] (Sequence.set_num_cached_tokens 0 s)).
  split; [|done].
  unfold BlockManager.deallocate, BlockManager.on_seq, zoom, gets, modify,
    mbind, M_bind. simpl. by rewrite Hrun.
Qed.

Lemma can_allocate_true (bm : BlockManager.t) (s : Sequence.t) :
  (BlockManager.can_allocate block_size (bm, s)).1 = inr true →
  ∃ nb, Sequence.num_blocks block_size s = inr nb ∧
        nb ≤ length (BlockManager.free_block_ids bm).
Proof.
  unfold BlockManager.can_allocate, BlockManager.seq_call, BlockManager.on_self,
    zoom, gets, lift_res, mbind, M_bind, mret, M_ret. simpl.
  destruct (Sequence.num_blocks block_size s) as [e|nb]; simpl; [done|].
  intros [= H%bool_decide_eq_true]. by exists nb.
Qed.

(** The references held by a store of sequences, with those of the
    sequence at index [i] set apart. *)
Lemma references_insert (seqs : list Sequence.t) i s :
  seqs !! i = Some s →
  ∃ rest : nat → nat,
    (∀ id, references seqs id
           = rest id + count_occ Nat.eq_dec (Sequence.block_table s) id) ∧
    (∀ s' id, references (<[i := s']> seqs) id
              = rest id + count_occ Nat.eq_dec (Sequence.block_table s') id).
Proof.
  intros Hi.
  exists (λ id, references (take i seqs) id + references (drop (S i) seqs) id).
  assert (Hlen : i < length seqs) by (by eapply lookup_lt_Some).
  split.
  - intros id. rewrite <- (take_drop_middle seqs i s Hi) at 1.
    unfold references. rewrite fmap_app, concat_app, fmap_cons. simpl.
    rewrite !count_occ_app. lia.
  - intros s' id. rewrite insert_take_drop by done.
    unfold references. rewrite fmap_app, concat_app, fmap_cons. simpl.
    rewrite !count_occ_app. lia.
Qed.

Lemma references_empty (seqs : list Sequence.t) id :
  (∀ i s, seqs !! i = Some s → Sequence.block_table s = []) →
  references seqs id = 0.
Proof.
  unfold references. induction seqs as [|s seqs IH]; intros H; [done|].
  rewrite fmap_cons. simpl. rewrite count_occ_app, (H 0 s eq_refl). simpl.
  apply IH. intros i s' Hi. by apply (H (S i)).
Qed.

Lemma exec_inv n held ev sys :
  sys_inv n held sys → admissible ev sys = true →
  ∃ sys', exec ev tt sys = (inr tt, sys') ∧ sys_inv n (live [ev] held) sys'.
Proof.
  intros [Hinv Hheld] Hadm. destruct ev as [i|i]; simpl in Hadm.
  - destruct (sequences sys !! i) as [s|] eqn:Hi; [|done].
    apply andb_true_iff in Hadm as [Hbt%bool_decide_eq_true Hcan%bool_decide_eq_true].
    destruct (can_allocate_true _ _ Hcan) as (nb & Hnb & Hcap).
    destruct (references_insert _ _ _ Hi) as (rest & Hrest & Hrest').
    destruct (allocate_inv n rest (manager sys) s nb) as (bm' & s' & Hrun & Hinv');
      [|done..|].
    { eapply pool_inv_ext; [|done]. intros id. rewrite Hrest, Hbt. simpl. lia. }
    eexists. split.
    + unfold exec, call. rewrite Hi. fold allocate. by rewrite Hrun.
    + split; simpl.
      * eapply pool_inv_ext; [|done]. intros id. by rewrite Hrest'.
      * intros j sj Hj Hnot. apply (Hheld j); [|set_solver].
        rewrite list_lookup_insert_ne in Hj; [done|]. set_solver.
  - apply bool_decide_eq_true in Hadm as [s Hi].
    destruct (references_insert _ _ _ Hi) as (rest & Hrest & Hrest').
    destruct (deallocate_inv n rest (manager sys) s) as (bm' & s' & Hrun & Hbt' & Hinv').
    { eapply pool_inv_ext; [|done]. intros id. by rewrite Hrest. }
    eexists. split.
    + unfold exec, call. by rewrite Hi, Hrun.
    + split; simpl.
      * eapply pool_inv_ext; [|done]. intros id. rewrite Hrest', Hbt'. simpl. lia.
      * intros j sj Hj Hnot. destruct (decide (j = i)) as [->|Hne].
        -- rewrite list_lookup_insert_eq in Hj by (by eapply lookup_lt_Some).
           by injection Hj as <-.
        -- rewrite list_lookup_insert_ne in Hj by done.
           apply (Hheld j); [done|set_solver].
Qed.

Lemma run_inv n evs : ∀ held sys,
  sys_inv n held sys → preconditions_met evs sys = true →
  ∃ sys', run evs sys = (inr tt, sys') ∧ sys_inv n (live evs held) sys'.
Proof.
  induction evs as [|ev evs IH]; intros held sys Hinv Hpre.
  - by exists sys.
  - simpl in Hpre. apply andb_true_iff in Hpre as [Hadm Hpre].
    destruct (exec_inv n held ev sys Hinv Hadm) as (sys1 & Hrun1 & Hinv1).
    rewrite Hrun1 in Hpre.
    destruct (IH _ sys1 Hinv1 Hpre) as (sys2 & Hrun2 & Hinv2).
    exists sys2. split.
    + unfold run. cbn [for_each]. unfold mbind, M_bind. by rewrite Hrun1.
    + by destruct ev.
Qed.

(** The manager as built is a pool at rest. *)
Lemma pool_inv_fresh n bs : pool_inv n (λ _, 0) (BlockManager.__init__ n bs).
Proof.
  split; simpl.
  - by rewrite length_fmap, length_seq.
  - apply NoDup_seq.
  - intros id. rewrite elem_of_seq. lia.
  - intros id. rewrite elem_of_empty. lia.
  - intros id blk. rewrite list_lookup_fmap.
    destruct (seq 0 n !! id); [|done]. by intros [= <-].
  - intros h id. by rewrite lookup_empty.
  - apply lookup_empty.
  - done.
Qed.

Lemma pool_inv_idle n (bm : BlockManager.t) :
  pool_inv n (λ _, 0) bm →
  length (BlockManager.blocks bm) = n ∧
  (∀ id blk, BlockManager.blocks bm !! id = Some blk → Block.ref_count blk = 0%Z) ∧
  BlockManager.used_block_ids bm = ∅ ∧
  BlockManager.free_block_ids bm ≡ₚ seq 0 n.
Proof.
  intros Hinv. split; [|split; [|split]].
  - apply (inv_length _ _ _ Hinv).
  - intros id blk Hb. by rewrite (inv_count _ _ _ Hinv _ _ Hb).
  - apply set_eq. intros id. rewrite (inv_used _ _ _ Hinv), elem_of_empty. tauto.
  - apply NoDup_Permutation; [apply (inv_nodup _ _ _ Hinv)|apply NoDup_seq|].
    intros id. rewrite (inv_free _ _ _ Hinv), elem_of_seq. lia.
Qed.

(** C3. Reference counts are conserved.  [bm] is a pool of [n] blocks at
    rest ([pool_inv] with no reference counted: every block id once on
    the free list, none in use, every [ref_count] 0; the manager as
    built is one, and so is a manager with a warm cache).  Sequences
    that hold no block are allocated and released on it, in any
    interleaving, every call being made with its precondition met (the
    sequence exists, it holds no block when it is allocated and
    [can_allocate] answered [True]).  If every sequence that was
    allocated has been released when the trace ends, then no call
    raised, the pool keeps its [n] blocks, every block has [ref_count]
    0, [used_block_ids] is empty and [free_block_ids] holds every block
    id of the pool exactly once. *)
Theorem ref_counts_conserved
    (n : nat) (bm : BlockManager.t) (seqs : list Sequence.t) (evs : list event) :
  pool_inv n (λ _, 0) bm →
  Forall (λ s, Sequence.block_table s = []) seqs →
  preconditions_met evs {| manager := bm; sequences := seqs |} = true →
  live evs ∅ = ∅ →
  ∃ sys',
    run evs {| manager := bm; sequences := seqs |} = (inr tt, sys') ∧
    length (BlockManager.blocks (manager sys')) = n ∧
    (∀ id blk, BlockManager.blocks (manager sys') !! id = Some blk →
               Block.ref_count blk = 0%Z) ∧
    BlockManager.used_block_ids (manager sys') = ∅ ∧
    BlockManager.free_block_ids (manager sys') ≡ₚ seq 0 n.
Proof.
  intros Hrest Hemp Hpre Hlive.
  assert (Hemp' : ∀ i s, seqs !! i = Some s → Sequence.block_table s = []).
  { intros i s Hi. by apply (proj1 (Forall_lookup _ _) Hemp i s). }
  destruct (run_inv n evs ∅ {| manager := bm; sequences := seqs |})
    as (sys' & Hrun & Hinv & Hheld); [|done|].
  { split; simpl; [|intros i s Hi _; by apply (Hemp' i)].
    eapply pool_inv_ext; [|done]. intros id. by rewrite references_empty. }
  exists sys'. split; [done|].
  apply pool_inv_idle. eapply pool_inv_ext; [|done].
  intros id. simpl. apply references_empty.
  intros i s Hi. apply (Hheld i s Hi). rewrite Hlive. set_solver.
Qed.

(** * Further properties of the code *)

(** ** The life of a sequence object *)

Lemma append_tokens_spec completion : ∀ s,
  let s' := foldl (λ s t, Sequence.append_token t s) s completion in
  Sequence.token_ids s' = Sequence.token_ids s ++ completion ∧
  Sequence.num_tokens s' = Sequence.num_tokens s + length completion ∧
  Sequence.num_prompt_tokens s' = Sequence.num_prompt_tokens s ∧
  Sequence.last_token s' = default (Sequence.last_token s) (last completion) ∧
  Sequence.seq_id s' = Sequence.seq_id s ∧
  Sequence.status s' = Sequence.status s ∧
  Sequence.block_table s' = Sequence.block_table s ∧
  Sequence.num_cached_tokens s' = Sequence.num_cached_tokens s.
Proof.
  induction completion as [|t l IH] using rev_ind; intros s; simpl.
  - rewrite app_nil_r. repeat split; try done.
  - rewrite foldl_app. simpl. destruct (IH s) as (H1 & H2 & H3 & H4 & H5 & H6 & H7 & H8).
    rewrite H1, H2, H3, H5, H6, H7, H8, last_snoc, length_app, <- app_assoc. simpl.
    repeat split; try done. lia.
Qed.

(** A sequence built from a prompt and given completion tokens one by
    one splits again into that prompt and those tokens, counts them, and
    its [last_token] is the last token of all. *)
Theorem prompt_and_completion
    (tokens : list Z) (sp : SamplingParams.t) (c c' : nat) (s : Sequence.t)
    (completion : list Z) :
  Sequence.__init__ tokens sp c = (inr s, c') →
  let s' := foldl (λ s t, Sequence.append_token t s) s completion in
  Sequence.token_ids s' = tokens ++ completion ∧
  Sequence.prompt_token_ids s' = tokens ∧
  Sequence.completion_token_ids s' = completion ∧
  Sequence.num_completion_tokens s' = Z.of_nat (length completion) ∧
  Sequence.len s' = length tokens + length completion ∧
  last (tokens ++ completion) = Some (Sequence.last_token s') ∧
  Sequence.seq_id s' = c ∧
  Sequence.is_finished s' = false.
Proof.
  intros Hinit. simpl.
  destruct (append_tokens_spec completion s) as (H1 & H2 & H3 & H4 & H5 & H6 & _).
  revert Hinit. unfold Sequence.__init__. munfold. simpl.
  destruct (last tokens) as [x|] eqn:Hlast; [|done]. intros [= <- _].
  simpl in *.
  unfold Sequence.prompt_token_ids, Sequence.completion_token_ids,
    Sequence.num_completion_tokens, Sequence.len, Sequence.is_finished.
  rewrite H1, H2, H3, H4, H5, H6.
  rewrite take_app_length, drop_app_length.
  repeat split; try done; try lia.
  destruct completion as [|t l] using rev_ind.
  - by rewrite app_nil_r.
  - by rewrite app_assoc, !last_snoc.
Qed.

(** ** Logical blocks of a sequence *)

Lemma concat_chunks tokens k :
  concat (chunk tokens <$> seq 0 k) = take (k * block_size) tokens.
Proof.
  induction k as [|k IH]; [done|].
  rewrite seq_S, fmap_app, concat_app, IH. simpl. rewrite app_nil_r.
  unfold chunk. rewrite take_take_drop. f_equal. lia.
Qed.

(** The logical blocks of a sequence cut its token list into pieces of
    [block_size] tokens, the last one not empty and possibly shorter, of
    the length [last_block_num_tokens] reports; any index outside
    [0 .. num_blocks - 1] is refused. *)
Theorem blocks_partition (s : Sequence.t) :
  0 < block_size →
  Sequence.num_tokens s = length (Sequence.token_ids s) →
  ∃ cs : list (list Z),
    Sequence.num_blocks block_size s = inr (length cs) ∧
    concat cs = Sequence.token_ids s ∧
    (∀ i c, cs !! i = Some c →
       Sequence.block block_size (Z.of_nat i) s = inr c ∧
       1 ≤ length c ≤ block_size ∧
       (S i < length cs → length c = block_size) ∧
       (S i = length cs →
        Sequence.last_block_num_tokens block_size s = inr (Z.of_nat (length c)))) ∧
    (∀ i : Z, (i < 0 ∨ Z.of_nat (length cs) ≤ i)%Z →
       Sequence.block block_size i s = inl AssertionError).
Proof.
  intros Hbs Hcons.
  set (tokens := Sequence.token_ids s) in *.
  set (nb := (length tokens + block_size - 1) / block_size).
  assert (Hnb : Sequence.num_blocks block_size s = inr nb).
  { rewrite num_blocks_spec by done. by rewrite Hcons. }
  pose proof (ceil_div_bounds (length tokens) Hbs) as [Hup Hlow]. fold nb in Hup, Hlow.
  exists (chunk tokens <$> seq 0 nb).
  rewrite length_fmap, length_seq. split; [done|]. split; [|split].
  - rewrite concat_chunks. by apply take_ge.
  - intros i c Hc. rewrite list_lookup_fmap in Hc.
    destruct (seq 0 nb !! i) as [j|] eqn:Hj; [|done].
    apply lookup_seq in Hj as [-> Hi]. injection Hc as <-. simpl.
    assert (0 < length tokens) as Hpos.
    { destruct (decide (length tokens = 0)) as [E|]; [|lia].
      assert (nb = 0); [|lia]. unfold nb. rewrite E. apply Nat.div_small. lia. }
    destruct (Hlow Hpos) as [Hlt _].
    rewrite length_chunk.
    split; [by apply (block_chunk s nb)|].
    split; [nia|]. split; [intros; nia|].
    intros Hlast. unfold Sequence.last_block_num_tokens. rewrite Hnb, Hcons.
    f_equal. nia.
  - intros i Hi. unfold Sequence.block. rewrite Hnb.
    by rewrite bool_decide_eq_false_2 by lia.
Qed.

(** ** What the pickled state carries *)

(** [__setstate__] on the state of [s] gives the receiving object the
    three counters and the block table of [s], and leaves its
    identifier, status and sampling values alone.  Of the tokens it
    stores the whole list while [s] has no completion token, and then
    does not touch [last_token]; afterwards it stores [last_token] only
    and leaves the list of the receiver as it is.  Restoring an object
    from its own state changes nothing. *)
Theorem setstate_getstate_fields (s blank : Sequence.t) :
  let r := Sequence.__setstate__ (Sequence.__getstate__ s) blank in
  Sequence.num_tokens r = Sequence.num_tokens s ∧
  Sequence.num_prompt_tokens r = Sequence.num_prompt_tokens s ∧
  Sequence.num_cached_tokens r = Sequence.num_cached_tokens s ∧
  Sequence.block_table r = Sequence.block_table s ∧
  Sequence.seq_id r = Sequence.seq_id blank ∧
  Sequence.status r = Sequence.status blank ∧
  Sequence.temperature r = Sequence.temperature blank ∧
  Sequence.max_tokens r = Sequence.max_tokens blank ∧
  Sequence.ignore_eos r = Sequence.ignore_eos blank ∧
  (if bool_decide (Sequence.num_completion_tokens s = 0%Z)
   then Sequence.token_ids r = Sequence.token_ids s ∧
        Sequence.last_token r = Sequence.last_token blank
   else Sequence.token_ids r = Sequence.token_ids blank ∧
        Sequence.last_token r = Sequence.last_token s) ∧
  Sequence.__setstate__ (Sequence.__getstate__ s) s = s.
Proof.
  unfold Sequence.__getstate__, Sequence.__setstate__.
  unfold Sequence.num_completion_tokens. simpl.
  destruct s. simpl. case_bool_decide; simpl; repeat split; done.
Qed.

(** ** A block size of zero *)


(** ** The ways [_allocate_block] and a release can end *)

Lemma deque_remove_None b l : BlockManager.deque_remove b l = None ↔ b ∉ l.
Proof.
  induction l as [|y l IH]; simpl.
  - split; [intros _ ?%elem_of_nil; done|done].
  - destruct (decide (y = b)) as [->|Hne].
    + split; [done|]. intros H. destruct H. by left.
    + rewrite fmap_None, IH, not_elem_of_cons. split; [intros ?; split; congruence|tauto].
Qed.

(** [_allocate_block(b)] returns [b] when block [b] exists, has no
    reference and is on the free list: the block is reset, leaves the
    free list and enters the used set.  Otherwise it raises:
    [IndexError] for an id outside the pool and [AssertionError] for a
    referenced block, both without a change, and [ValueError] for an
    unreferenced block that is not on the free list, after the block
    was reset. *)
Theorem allocate_block_outcomes (b : nat) (bm : BlockManager.t) :
  BlockManager._allocate_block b bm
  = match BlockManager.blocks bm !! b with
    | None => (inl IndexError, bm)
    | Some blk =>
        if bool_decide (Block.ref_count blk = 0%Z)
        then match BlockManager.deque_remove b (BlockManager.free_block_ids bm) with
             | None =>
                 (inl ValueError,
                  BlockManager.set_blocks
                    (<[b := Block.reset blk]> (BlockManager.blocks bm)) bm)
             | Some free' =>
                 (inr b,
                  {| BlockManager.block_size := BlockManager.block_size bm;
                     BlockManager.blocks :=
                       <[b := Block.reset blk]> (BlockManager.blocks bm);
                     BlockManager.hash_to_block_id := BlockManager.hash_to_block_id bm;
                     BlockManager.free_block_ids := free';
                     BlockManager.used_block_ids :=
                       {[b]} ∪ BlockManager.used_block_ids bm |})
             end
        else (inl AssertionError, bm)
    end
  ∧ (BlockManager.deque_remove b (BlockManager.free_block_ids bm) = None
     ↔ b ∉ BlockManager.free_block_ids bm).
Proof.
  split; [|apply deque_remove_None].
  apply post_eq, post_allocate_block.
  - by intros ->.
  - intros blk -> Hrc. by rewrite bool_decide_eq_false_2.
  - intros blk -> Hrc ->. by rewrite bool_decide_eq_true_2.
  - intros blk free' -> Hrc ->. by rewrite bool_decide_eq_true_2.
Qed.

(** One turn of the loop of [deallocate] on block [b], in all its
    outcomes. *)
Lemma deallocate_iter_outcomes (b : nat) (bm : BlockManager.t) (s : Sequence.t) :
  BlockManager.deallocate_iter b tt (bm, s)
  = match BlockManager.blocks bm !! b with
    | None => (inl IndexError, (bm, s))
    | Some blk =>
        let lowered :=
          <[b := Block.set_ref_count (Block.ref_count blk - 1) blk]>
            (BlockManager.blocks bm) in
        if bool_decide (Block.ref_count blk = 1%Z)
        then if bool_decide (b ∈ BlockManager.used_block_ids bm)
             then (inr tt,
                   ({| BlockManager.block_size := BlockManager.block_size bm;
                       BlockManager.blocks := lowered;
                       BlockManager.hash_to_block_id := BlockManager.hash_to_block_id bm;
                       BlockManager.free_block_ids :=
                         BlockManager.free_block_ids bm ++ [b];
                       BlockManager.used_block_ids :=
                         BlockManager.used_block_ids bm ∖ {[b]} |}, s))
             else (inl KeyError, (BlockManager.set_blocks lowered bm, s))
        else (inr tt, (BlockManager.set_blocks lowered bm, s))
    end.
Proof.
  destruct (BlockManager.blocks bm !! b) as [blk|] eqn:Hblk.
  - simpl. apply post_eq. unfold BlockManager.deallocate_iter.
    wp; rewrite ?(alter_lookup_insert _ _ _ _ Hblk) in *; simpl in *.
    all: try (erewrite lookup_insert_present in * by done).
    all: simplify_eq/=.
    all: repeat case_bool_decide; try done; try lia.
  - apply post_eq. unfold BlockManager.deallocate_iter. wp; congruence.
Qed.

(** [deallocate] has no guard against a count that is already spent: a
    turn of its loop on a block without reference returns as if nothing
    were wrong, leaves the count negative and the free list, the used
    set and the index as they were; from then on [_allocate_block]
    refuses that block with [AssertionError]. *)
Theorem release_without_reference
    (b : nat) (blk : Block.t) (bm : BlockManager.t) (s : Sequence.t) :
  BlockManager.blocks bm !! b = Some blk →
  (Block.ref_count blk ≤ 0)%Z →
  ∃ bm',
    BlockManager.deallocate_iter b tt (bm, s) = (inr tt, (bm', s)) ∧
    BlockManager.blocks bm'
    = <[b := Block.set_ref_count (Block.ref_count blk - 1) blk]>
        (BlockManager.blocks bm) ∧
    BlockManager.free_block_ids bm' = BlockManager.free_block_ids bm ∧
    BlockManager.used_block_ids bm' = BlockManager.used_block_ids bm ∧
    BlockManager.hash_to_block_id bm' = BlockManager.hash_to_block_id bm ∧
    BlockManager._allocate_block b bm' = (inl AssertionError, bm').
Proof.
  intros Hblk Hrc. eexists. split; [|split; [|split; [|split; [|split]]]].
  - rewrite deallocate_iter_outcomes, Hblk. simpl.
    rewrite bool_decide_eq_false_2 by lia. reflexivity.
  - done.
  - done.
  - done.
  - done.
  - apply post_eq, post_allocate_block; simpl.
    + intros H. by erewrite lookup_insert_present in H.
    + done.
    + intros blk' H. erewrite lookup_insert_present in H by done.
      injection H as <-. simpl. lia.
    + intros blk' free' H. erewrite lookup_insert_present in H by done.
      injection H as <-. simpl. lia.
Qed.

(** ** What [can_allocate] promises *)

Lemma allocate_loop_sound n l : ∀ cnt loc (bm : BlockManager.t) (s : Sequence.t),
  pool_inv n cnt bm →
  length l ≤ length (BlockManager.free_block_ids bm) →
  (∀ i, i ∈ l → ∃ toks, Sequence.block block_size (Z.of_nat i) s = inr toks) →
  ∃ loc' bm' s' bt',
    for_each allocate_iter l loc (bm, s) = (inr loc', (bm', s')) ∧
    Sequence.block_table s' = Sequence.block_table s ++ bt' ∧
    length bt' = length l ∧
    same_tokens s s' ∧
    pool_inv n (λ id, cnt id + count_occ Nat.eq_dec bt' id) bm' ∧
    length (BlockManager.free_block_ids bm)
    ≤ length (BlockManager.free_block_ids bm') + length l.
Proof.
  induction l as [|i l IH]; intros cnt [h cm] bm s Hinv Hlen Hblk.
  - exists (h, cm), bm, s, []. simpl. rewrite app_nil_r.
    split; [done|]. split; [done|]. split; [done|]. split; [done|].
    split; [|lia]. eapply pool_inv_ext; [|done]. intros id. simpl. lia.
  - destruct (Hblk i) as [toks Htoks]; [apply list_elem_of_here|].
    destruct (allocate_iter_inv n cnt i h cm bm s toks Hinv Htoks)
      as (loc1 & b & bm1 & s1 & Hrun1 & Hbt1 & Hsame & Hinv1 & Hlen1).
    { intros E. rewrite E in Hlen. simpl in Hlen. lia. }
    destruct (IH (bump b cnt) loc1 bm1 s1 Hinv1)
      as (loc2 & bm2 & s2 & bt2 & Hrun2 & Hbt2 & Hl2 & Hsame2 & Hinv2 & Hlen2).
    + simpl in Hlen. lia.
    + intros i' Hi'. destruct (Hblk i') as [toks' Ht']; [by apply list_elem_of_further|].
      exists toks'. by rewrite (block_same_tokens _ s s1).
    + exists loc2, bm2, s2, (b :: bt2). split; [|split; [|split; [|split; [|split]]]].
      * cbn [for_each]. unfold mbind, M_bind. by rewrite Hrun1.
      * by rewrite Hbt2, Hbt1, <- app_assoc.
      * simpl. by rewrite Hl2.
      * destruct Hsame, Hsame2. split; congruence.
      * eapply pool_inv_ext; [|done]. intros id. apply count_occ_bump.
      * simpl. lia.
Qed.

(** When [can_allocate] answers [True] for a sequence that holds no
    block, on a pool whose bookkeeping agrees with the reference counts
    [cnt], [allocate] returns: the sequence gets one block of the pool
    per logical block, each in use afterwards; every entry of its table
    is counted as one more reference; at most that many blocks left the
    free list; the tokens are untouched. *)
Theorem can_allocate_sound
    (n : nat) (cnt : nat → nat) (bm : BlockManager.t) (s : Sequence.t) :
  pool_inv n cnt bm →
  Sequence.block_table s = [] →
  (BlockManager.can_allocate block_size (bm, s)).1 = inr true →
  ∃ bm' s',
    allocate (bm, s) = (inr tt, (bm', s')) ∧
    pool_inv n (λ id, cnt id + count_occ Nat.eq_dec (Sequence.block_table s') id) bm' ∧
    Sequence.num_blocks block_size s = inr (length (Sequence.block_table s')) ∧
    (∀ b, b ∈ Sequence.block_table s' →
          b < n ∧ b ∈ BlockManager.used_block_ids bm') ∧
    length (BlockManager.free_block_ids bm)
    ≤ length (BlockManager.free_block_ids bm') + length (Sequence.block_table s') ∧
    Sequence.token_ids s' = Sequence.token_ids s.
Proof.
  intros Hinv Hbt Hcan.
  destruct (can_allocate_true _ _ Hcan) as (nb & Hnb & Hcap).
  destruct (allocate_loop_sound n (seq 0 nb) cnt ((-1)%Z, false) bm s Hinv)
    as (loc & bm' & s' & bt' & Hrun & Hbt' & Hl & [Htok _] & Hinv' & Hfree).
  - by rewrite length_seq.
  - intros i [_ Hi]%elem_of_seq. eexists. by apply (block_chunk s nb).
  - rewrite Hbt in Hbt'. simpl in Hbt'. rewrite length_seq in Hl, Hfree.
    exists bm', s'. rewrite allocate_unfold, Hbt, Hnb, Hrun, Hbt'.
    split; [done|]. split; [done|]. split; [by rewrite Hl|].
    split; [|split; [lia|done]].
    intros b Hb.
    assert (Hocc : 0 < count_occ Nat.eq_dec bt' b).
    { apply count_occ_In. by apply list_elem_of_In. }
    assert (Hlt : b < n).
    { destruct (decide (b < n)); [done|].
      pose proof (inv_range _ _ _ Hinv' b ltac:(lia)) as H0. simpl in H0. lia. }
    split; [done|]. apply (inv_used _ _ _ Hinv'). split; [done|]. lia.
Qed.

(** ** [allocate] without enough free blocks *)

Lemma allocate_iter_exhausted i h cm (bm : BlockManager.t) (s : Sequence.t) toks :
  Sequence.block block_size (Z.of_nat i) s = inr toks →
  BlockManager.free_block_ids bm = [] →
  cm = true ∨ cache_hit bm (block_hash bm toks h) toks = false →
  (∀ b', BlockManager.hash_to_block_id bm !! block_hash bm toks h = Some b' →
         is_Some (BlockManager.blocks bm !! b')) →
  allocate_iter i (h, cm) (bm, s) = (inl IndexError, (bm, s)).
Proof.
  intros Htoks Hfree Hmiss Hidx.
  assert (allocate_iter i (h, cm) (bm, s) = allocate_iter i (h, true) (bm, s)) as ->.
  { destruct Hmiss as [->|Hmiss]; [done|]. destruct cm; [done|].
    by eapply allocate_iter_first_miss. }
  unfold block_hash in *.
  apply post_eq. unfold BlockManager.allocate_iter.
  wp.
  all: try (destruct (Hidx _ eq_refl) as [? ?]; congruence).
  all: by destruct bm, s.
Qed.

(** An iteration of [allocate] on a consistent pool either binds a
    block, or finds the free list empty on a miss and raises with
    nothing changed. *)
Lemma allocate_iter_total n cnt i h cm (bm : BlockManager.t) (s : Sequence.t) toks :
  pool_inv n cnt bm →
  Sequence.block block_size (Z.of_nat i) s = inr toks →
  (∃ loc b bm' s',
     allocate_iter i (h, cm) (bm, s) = (inr loc, (bm', s')) ∧
     Sequence.block_table s' = Sequence.block_table s ++ [b] ∧
     same_tokens s s' ∧
     pool_inv n (bump b cnt) bm')
  ∨ (allocate_iter i (h, cm) (bm, s) = (inl IndexError, (bm, s)) ∧
     BlockManager.free_block_ids bm = []).
Proof.
  intros Hinv Htoks.
  destruct (BlockManager.free_block_ids bm) as [|b0 free0] eqn:Hfree.
  2:{ left. destruct (allocate_iter_inv n cnt i h cm bm s toks Hinv Htoks)
        as (loc & b & bm' & s' & H1 & H2 & H3 & H4 & _); [by rewrite Hfree|].
      by exists loc, b, bm', s'. }
  set (h' := block_hash bm toks h).
  destruct (decide (cm = true ∨ cache_hit bm h' toks = false)) as [Hmiss|Hhit].
  - right. split; [|done].
    apply (allocate_iter_exhausted i h cm bm s toks); try done.
    intros b' Hb'. eapply pool_inv_lookup; [done|]. by eapply inv_index.
  - left.
    assert (cm = false) as -> by (destruct cm; tauto).
    assert (Hhit' : cache_hit bm h' toks = true)
      by (destruct (cache_hit bm h' toks); tauto).
    apply cache_hit_true in Hhit' as (b & blk & Hidx & Hblk & Htok).
    assert (Hh' : h' ≠ (-1)%Z).
    { intros E. rewrite E, (inv_sentinel _ _ _ Hinv) in Hidx. done. }
    subst h'. unfold block_hash in *. case_bool_decide as Hlen; [|done].
    pose proof (inv_index _ _ _ Hinv _ _ Hidx) as Hb.
    pose proof (inv_count _ _ _ Hinv _ _ Hblk) as Hrc.
    assert (Hused : b ∈ BlockManager.used_block_ids bm).
    { apply (inv_used _ _ _ Hinv). split; [done|]. intros Hz.
      assert (Hin : b ∈ BlockManager.free_block_ids bm)
        by (by apply (inv_free _ _ _ Hinv)).
      rewrite Hfree in Hin. by apply elem_of_nil in Hin. }
    eexists _, b, _, _. split.
    { by apply (allocate_iter_hit_run i h bm s toks b blk). }
    split; [done|]. split; [done|].
    pose proof (proj1 (inv_used _ _ _ Hinv b) Hused) as [_ Hcnt].
    eapply (pool_inv_bind n cnt b bm); try done; simpl.
    + rewrite length_insert. apply (inv_length _ _ _ Hinv).
    + intros id Hid. apply list_lookup_insert_ne. congruence.
    + eapply lookup_insert_present, Hblk.
    + simpl. lia.
    + apply (inv_nodup _ _ _ Hinv).
    + intros x. split; [|tauto]. intros Hx. split; [done|].
      intros ->. apply (inv_free _ _ _ Hinv) in Hx. tauto.
    + intros x. split; [tauto|]. by intros [->|?].
    + intros h0 id ?. by right.
    + apply (inv_sentinel _ _ _ Hinv).
Qed.

Lemma allocate_loop_total n l : ∀ cnt loc (bm : BlockManager.t) (s : Sequence.t),
  pool_inv n cnt bm →
  (∀ i, i ∈ l → ∃ toks, Sequence.block block_size (Z.of_nat i) s = inr toks) →
  ∃ r bm' s' bt',
    for_each allocate_iter l loc (bm, s) = (r, (bm', s')) ∧
    Sequence.block_table s' = Sequence.block_table s ++ bt' ∧
    same_tokens s s' ∧
    pool_inv n (λ id, cnt id + count_occ Nat.eq_dec bt' id) bm' ∧
    match r with
    | inr _ => length bt' = length l
    | inl e => e = IndexError ∧ BlockManager.free_block_ids bm' = [] ∧
               length bt' < length l
    end.
Proof.
  induction l as [|i l IH]; intros cnt [h cm] bm s Hinv Hblk.
  - exists (inr (h, cm)), bm, s, []. simpl. rewrite app_nil_r.
    split; [done|]. split; [done|]. split; [done|]. split; [|done].
    eapply pool_inv_ext; [|done]. intros id. simpl. lia.
  - destruct (Hblk i) as [toks Htoks]; [apply list_elem_of_here|].
    destruct (allocate_iter_total n cnt i h cm bm s toks Hinv Htoks)
      as [(loc1 & b & bm1 & s1 & Hrun1 & Hbt1 & Hsame & Hinv1)|[Hrun1 Hfree]].
    + destruct (IH (bump b cnt) loc1 bm1 s1 Hinv1)
        as (r & bm2 & s2 & bt2 & Hrun2 & Hbt2 & Hsame2 & Hinv2 & Hr).
      { intros i' Hi'. destruct (Hblk i') as [toks' Ht']; [by apply list_elem_of_further|].
        exists toks'. by rewrite (block_same_tokens _ s s1). }
      exists r, bm2, s2, (b :: bt2). split; [|split; [|split; [|split]]].
      * cbn [for_each]. unfold mbind, M_bind. by rewrite Hrun1.
      * by rewrite Hbt2, Hbt1, <- app_assoc.
      * destruct Hsame, Hsame2. split; congruence.
      * eapply pool_inv_ext; [|done]. intros id. apply count_occ_bump.
      * destruct r as [e|?]; simpl; [|lia].
        destruct Hr as (-> & ? & ?). repeat split; try done. lia.
    + exists (inl IndexError), bm, s, []. rewrite app_nil_r.
      split; [cbn [for_each]; unfold mbind, M_bind; by rewrite Hrun1|].
      split; [done|]. split; [done|]. split.
      * eapply pool_inv_ext; [|done]. intros id. simpl. lia.
      * repeat split; try done. simpl. lia.
Qed.

(** [allocate] on a consistent pool, for a sequence that holds no
    block, either returns with one block bound per logical block, or
    runs out of free blocks and raises [IndexError] with the blocks
    bound so far left in the table of the sequence.  Either way the
    bookkeeping counts exactly the entries of that table as new
    references, so that [deallocate] on the sequence returns and brings
    the counts back to what they were. *)
Theorem allocate_then_deallocate
    (n : nat) (cnt : nat → nat) (bm : BlockManager.t) (s : Sequence.t) :
  0 < block_size →
  pool_inv n cnt bm →
  Sequence.block_table s = [] →
  ∃ r bm' s' bm'' s'',
    allocate (bm, s) = (r, (bm', s')) ∧
    pool_inv n (λ id, cnt id + count_occ Nat.eq_dec (Sequence.block_table s') id) bm' ∧
    Sequence.token_ids s' = Sequence.token_ids s ∧
    match r with
    | inr _ => Sequence.num_blocks block_size s = inr (length (Sequence.block_table s'))
    | inl e =>
        e = IndexError ∧ BlockManager.free_block_ids bm' = [] ∧
        ∃ nb, Sequence.num_blocks block_size s = inr nb ∧
              length (Sequence.block_table s') < nb
    end ∧
    BlockManager.deallocate (bm', s') = (inr tt, (bm'', s'')) ∧
    pool_inv n cnt bm'' ∧
    Sequence.block_table s'' = [].
Proof.
  intros Hbs Hinv Hbt.
  pose proof (num_blocks_spec s Hbs) as Hnb.
  set (nb := (Sequence.num_tokens s + block_size - 1) / block_size) in *.
  destruct (allocate_loop_total n (seq 0 nb) cnt ((-1)%Z, false) bm s Hinv)
    as (r & bm' & s' & bt' & Hrun & Hbt' & [Htok _] & Hinv' & Hr).
  { intros i [_ Hi]%elem_of_seq. eexists. by apply (block_chunk s nb). }
  rewrite Hbt in Hbt'. simpl in Hbt'. rewrite length_seq in Hr.
  rewrite <- Hbt' in Hinv', Hr.
  destruct (deallocate_inv n cnt bm' s' Hinv') as (bm'' & s'' & Hd & Hbt'' & Hinv'').
  exists (match r with inl e => inl e | inr _ => inr tt end), bm', s', bm'', s''.
  split; [|split; [done|split; [done|split; [|split; [exact Hd|done]]]]].
  - rewrite allocate_unfold, Hbt, Hnb, Hrun. simpl. by destruct r.
  - destruct r as [e|?]; [|by rewrite Hr].
    destruct Hr as (-> & ? & ?). repeat split; try done. by exists nb.
Qed.

(** ** What [deallocate] does to a pool in order *)

Lemma deallocate_iter_sound n cnt b (bm : BlockManager.t) (s : Sequence.t) :
  pool_inv n (bump b cnt) bm →
  ∃ bm',
    BlockManager.deallocate_iter b tt (bm, s) = (inr tt, (bm', s)) ∧
    pool_inv n cnt bm' ∧
    BlockManager.free_block_ids bm'
    = BlockManager.free_block_ids bm ++ (if decide (cnt b = 0) then [b] else []) ∧
    BlockManager.hash_to_block_id bm' = BlockManager.hash_to_block_id bm ∧
    Block.token_ids <$> BlockManager.blocks bm'
    = Block.token_ids <$> BlockManager.blocks bm ∧
    Block.hash <$> BlockManager.blocks bm' = Block.hash <$> BlockManager.blocks bm.
Proof.
  intros Hinv.
  destruct (deallocate_iter_inv n cnt b bm s Hinv) as (bm' & Hrun & Hinv').
  exists bm'. split; [done|]. split; [done|].
  assert (Hb : b < n).
  { destruct (decide (b < n)); [done|].
    pose proof (inv_range _ _ _ Hinv b ltac:(lia)) as H. rewrite bump_same in H. lia. }
  destruct (pool_inv_lookup _ _ _ b Hinv Hb) as [blk Hblk].
  pose proof (inv_count _ _ _ Hinv _ _ Hblk) as Hrc. rewrite bump_same in Hrc.
  assert (Hused : b ∈ BlockManager.used_block_ids bm).
  { apply (inv_used _ _ _ Hinv). rewrite bump_same. lia. }
  assert (Hfmap : ∀ {A} (f : Block.t → A) v,
            f (Block.set_ref_count v blk) = f blk →
            f <$> <[b := Block.set_ref_count v blk]> (BlockManager.blocks bm)
            = f <$> BlockManager.blocks bm).
  { intros A f v E. rewrite list_fmap_insert, E. apply list_insert_id.
    by rewrite list_lookup_fmap, Hblk. }
  destruct (decide (cnt b = 0)) as [Hz|Hnz].
  - rewrite (deallocate_iter_release b bm s blk) in Hrun by (done || lia).
    injection Hrun as <-. simpl. repeat split; try done; by apply Hfmap.
  - rewrite (deallocate_iter_keep b bm s blk) in Hrun by (done || lia).
    injection Hrun as <-. simpl. rewrite app_nil_r.
    repeat split; try done; by apply Hfmap.
Qed.

Lemma deallocate_loop_sound n l : ∀ cnt (bm : BlockManager.t) (s : Sequence.t),
  pool_inv n (λ id, cnt id + count_occ Nat.eq_dec l id) bm →
  ∃ bm' released,
    for_each BlockManager.deallocate_iter l tt (bm, s) = (inr tt, (bm', s)) ∧
    pool_inv n cnt bm' ∧
    BlockManager.free_block_ids bm' = BlockManager.free_block_ids bm ++ released ∧
    (∀ x, x ∈ released ↔ x ∈ l ∧ cnt x = 0) ∧
    BlockManager.hash_to_block_id bm' = BlockManager.hash_to_block_id bm ∧
    Block.token_ids <$> BlockManager.blocks bm'
    = Block.token_ids <$> BlockManager.blocks bm ∧
    Block.hash <$> BlockManager.blocks bm' = Block.hash <$> BlockManager.blocks bm.
Proof.
  induction l as [|b l IH]; intros cnt bm s Hinv.
  - exists bm, []. rewrite app_nil_r. split; [done|].
    split; [eapply pool_inv_ext; [|done]; intros id; simpl; lia|].
    split; [done|]. split; [|done].
    intros x. rewrite !elem_of_nil. tauto.
  - destruct (deallocate_iter_sound n (λ id, cnt id + count_occ Nat.eq_dec l id) b bm s)
      as (bm1 & Hrun1 & Hinv1 & Hfree1 & Hidx1 & Htok1 & Hh1).
    { eapply pool_inv_ext; [|done]. intros id. unfold bump. simpl.
      destruct (Nat.eq_dec b id) as [->|Hne].
      - rewrite decide_True by done. lia.
      - rewrite decide_False by congruence. lia. }
    destruct (IH cnt bm1 s Hinv1)
      as (bm2 & rel & Hrun2 & Hinv2 & Hfree2 & Hrel & Hidx2 & Htok2 & Hh2).
    exists bm2, ((if decide (cnt b + count_occ Nat.eq_dec l b = 0) then [b] else []) ++ rel).
    split; [cbn [for_each]; unfold mbind, M_bind; by rewrite Hrun1|].
    split; [done|]. split; [by rewrite Hfree2, Hfree1, <- app_assoc|].
    split; [|repeat split; congruence].
    intros x. rewrite elem_of_app, Hrel, elem_of_cons.
    destruct (decide (cnt b + count_occ Nat.eq_dec l b = 0)) as [Hz|Hnz].
    + rewrite list_elem_of_singleton. split; [|tauto].
      intros [->|[? ?]]; [split; [by left|lia]|tauto].
    + rewrite elem_of_nil. split; [tauto|].
      intros [[->|Hx] Hc]; [|tauto]. right. split; [|done].
      apply list_elem_of_In, (count_occ_In Nat.eq_dec). lia.
Qed.

(** On a pool whose bookkeeping counts the entries of the block table
    of [s] among its references, [deallocate] returns: the table of [s]
    is emptied and its cached-token count reset; the reference counts
    drop by what the table held; the blocks that no one references any
    more, and only they, are appended to the free list, behind the
    blocks that were free before; the hash index and the tokens and
    hashes stored in the blocks stay as they are. *)
Theorem deallocate_sound
    (n : nat) (cnt : nat → nat) (bm : BlockManager.t) (s : Sequence.t) :
  pool_inv n (λ id, cnt id + count_occ Nat.eq_dec (Sequence.block_table s) id) bm →
  ∃ bm' released,
    BlockManager.deallocate (bm, s)
    = (inr tt, (bm', Sequence.set_block_table []
                       (Sequence.set_num_cached_tokens 0 s))) ∧
    pool_inv n cnt bm' ∧
    BlockManager.free_block_ids bm' = BlockManager.free_block_ids bm ++ released ∧
    (∀ x, x ∈ released ↔ x ∈ Sequence.block_table s ∧ cnt x = 0) ∧
    BlockManager.hash_to_block_id bm' = BlockManager.hash_to_block_id bm ∧
    Block.token_ids <$> BlockManager.blocks bm'
    = Block.token_ids <$> BlockManager.blocks bm ∧
    Block.hash <$> BlockManager.blocks bm' = Block.hash <$> BlockManager.blocks bm.
Proof.
  intros Hinv.
  destruct (deallocate_loop_sound n (reverse (Sequence.block_table s)) cnt bm s)
    as (bm' & rel & Hrun & Hinv' & Hfree & Hrel & Hidx & Htok & Hh).
  { eapply pool_inv_ext; [|done]. intros id. simpl. f_equal.
    apply Permutation_count_occ. symmetry. apply reverse_Permutation. }
  exists bm', rel. split; [|split; [done|split; [done|split; [|done]]]].
  - unfold BlockManager.deallocate, BlockManager.on_seq, zoom, gets, modify,
      mbind, M_bind. simpl. by rewrite Hrun.
  - intros x. by rewrite Hrel, elem_of_reverse.
Qed.

(** ** [may_append] is all or nothing *)

Lemma block_ids_alter (f : Block.t → Block.t) id (l : list Block.t) :
  (∀ b, Block.block_id (f b) = Block.block_id b) →
  (∀ i blk, l !! i = Some blk → Block.block_id blk = i) →
  ∀ i blk, alter f id l !! i = Some blk → Block.block_id blk = i.
Proof.
  intros Hf Hl i blk. destruct (decide (id = i)) as [->|Hne].
  - rewrite list_lookup_alter_eq. intros (b & Hb & ->)%fmap_Some.
    rewrite Hf. by apply Hl.
  - rewrite list_lookup_alter_ne by done. apply Hl.
Qed.

Lemma block_ids_insert id (b b' : Block.t) (l : list Block.t) :
  l !! id = Some b → Block.block_id b' = Block.block_id b →
  (∀ i blk, l !! i = Some blk → Block.block_id blk = i) →
  ∀ i blk, <[id := b']> l !! i = Some blk → Block.block_id blk = i.
Proof.
  intros Hb Hid Hl i blk. destruct (decide (id = i)) as [->|Hne].
  - erewrite lookup_insert_present by done. intros [= <-]. rewrite Hid. by apply Hl.
  - rewrite list_lookup_insert_ne by done. apply Hl.
Qed.

(** A pool stays consistent when a block is given a hash and tokens and
    the index is pointed at a block of the pool. *)
Lemma pool_inv_finalize n cnt (bm : BlockManager.t) id h toks target :
  pool_inv n cnt bm → h ≠ (-1)%Z → target < n →
  pool_inv n cnt
    (BlockManager.set_hash_to_block_id
       (<[h := target]> (BlockManager.hash_to_block_id bm))
       (BlockManager.set_blocks
          (alter (Block.update h toks) id (BlockManager.blocks bm)) bm)).
Proof.
  intros [H1 H2 H3 H4 H5 H6 H7 H8] Hh Ht. split; simpl; try done.
  - by rewrite length_alter.
  - intros i blk. destruct (decide (id = i)) as [->|Hne].
    + rewrite list_lookup_alter_eq. intros (b & Hb & ->)%fmap_Some. simpl. eauto.
    + rewrite list_lookup_alter_ne by done. eauto.
  - intros h0 i. rewrite lookup_insert. case_decide; [by intros [= <-]|eauto].
  - by rewrite lookup_insert_ne.
Qed.

Lemma may_append_post_holds n cnt (bm : BlockManager.t) (s : Sequence.t) :
  (∀ p t, xxh64 p t ≠ (-1)%Z) →
  pool_inv n cnt bm →
  (∀ i blk, BlockManager.blocks bm !! i = Some blk → Block.block_id blk = i) →
  post may_append (bm, s) (may_append_post n cnt bm s).
Proof.
  intros Hx Hinv Hids.
  unfold BlockManager.may_append.
  wp; try done.
  - (* the head of the free list cannot be missing from it *)
    match goal with
    | H : BlockManager.free_block_ids bm = _ :: _,
      H' : BlockManager.deque_remove _ _ = None |- _ =>
        rewrite H, deque_remove_head in H'; done
    end.
  - (* a new block *)
    match goal with
    | H : BlockManager.free_block_ids bm = ?b :: ?l,
      H' : BlockManager.deque_remove _ _ = Some _ |- _ =>
        rewrite H, deque_remove_head in H'; injection H' as <-;
        rename H into Hfree
    end.
    split; [done|]. split; [by eapply block_ids_insert|].
    left. split; [done|]. eexists. split; [done|]. split; [done|].
    match goal with Hb : BlockManager.blocks bm !! ?b = Some ?blk |- pool_inv _ (bump ?b _) _ =>
      rename Hb into Hblk end.
    pose proof (inv_nodup _ _ _ Hinv) as Hnd. rewrite Hfree in Hnd.
    apply NoDup_cons in Hnd as [Hnotin Hnd].
    eapply (pool_inv_bind n cnt _ bm); try done; simpl.
    + by eapply lookup_lt_Some in Hblk; rewrite (inv_length _ _ _ Hinv) in Hblk.
    + rewrite length_insert. apply (inv_length _ _ _ Hinv).
    + intros id Hid. apply list_lookup_insert_ne. congruence.
    + eapply lookup_insert_present, Hblk.
    + simpl. pose proof (inv_count _ _ _ Hinv _ _ Hblk). lia.
    + intros x. rewrite Hfree, elem_of_cons. split; [|tauto].
      intros Hxl. split; [by right|]. by intros ->.
    + intros x. rewrite elem_of_union, elem_of_singleton. tauto.
    + intros h0 id ?. by right.
    + apply (inv_sentinel _ _ _ Hinv).
  - (* the last block is finalized, with a prefix *)
    split; [done|]. split; [by apply block_ids_alter|].
    right. do 4 (split; [done|]).
    apply pool_inv_finalize; [done|apply Hx|].
    match goal with Hb : BlockManager.blocks bm !! ?i = Some ?b |- Block.block_id ?b < _ =>
      rewrite (Hids _ _ Hb); apply lookup_lt_Some in Hb;
      by rewrite (inv_length _ _ _ Hinv) in Hb end.
  - (* the last block is finalized, the first of the sequence *)
    split; [done|]. split; [by apply block_ids_alter|].
    right. do 4 (split; [done|]).
    apply pool_inv_finalize; [done|apply Hx|].
    match goal with Hb : BlockManager.blocks bm !! ?i = Some ?b |- Block.block_id ?b < _ =>
      rewrite (Hids _ _ Hb); apply lookup_lt_Some in Hb;
      by rewrite (inv_length _ _ _ Hinv) in Hb end.
  - (* inside a block *)
    split; [done|]. split; [done|]. right. by do 4 (split; [done|]).
Qed.

(** On a consistent pool, [may_append] that raises has changed neither
    the manager nor the sequence.  When it returns, it has either bound
    the head of the free list as a new last block (the length of the
    sequence is 1 modulo the block size), counted as one more
    reference, or left the table, the free list, the used set and the
    reference counts as they were; the tokens of the sequence are
    untouched and the pool stays consistent. *)
Theorem may_append_all_or_nothing
    (n : nat) (cnt : nat → nat) (bm : BlockManager.t) (s : Sequence.t) :
  (∀ p t, xxh64 p t ≠ (-1)%Z) →
  pool_inv n cnt bm →
  (∀ i blk, BlockManager.blocks bm !! i = Some blk → Block.block_id blk = i) →
  ∃ r bm' s',
    may_append (bm, s) = (r, (bm', s')) ∧
    match r with
    | inl _ => bm' = bm ∧ s' = s
    | inr _ =>
        Sequence.token_ids s' = Sequence.token_ids s ∧
        (∀ i blk, BlockManager.blocks bm' !! i = Some blk → Block.block_id blk = i) ∧
        ((Sequence.len s mod BlockManager.block_size bm = 1 ∧
          ∃ b, BlockManager.free_block_ids bm = b :: BlockManager.free_block_ids bm' ∧
               s' = Sequence.set_block_table (Sequence.block_table s ++ [b]) s ∧
               pool_inv n (bump b cnt) bm')
         ∨ (Sequence.len s mod BlockManager.block_size bm ≠ 1 ∧
            s' = s ∧
            BlockManager.free_block_ids bm' = BlockManager.free_block_ids bm ∧
            BlockManager.used_block_ids bm' = BlockManager.used_block_ids bm ∧
            pool_inv n cnt bm'))
    end.
Proof.
  intros Hx Hinv Hids.
  pose proof (may_append_post_holds n cnt bm s Hx Hinv Hids) as H.
  unfold post, may_append_post in H.
  destruct (may_append (bm, s)) as [r [bm' s']]. simpl in H.
  exists r, bm', s'. split; [done|]. destruct r; [|done]. by injection H as -> ->.
Qed.

(** ** When a sequence grows into a new block *)

Lemma ceil_div_succ n :
  1 < block_size →
  (S n + block_size - 1) / block_size
  = (n + block_size - 1) / block_size + (if bool_decide (S n mod block_size = 1) then 1 else 0).
Proof.
  intros Hbs.
  pose proof (Nat.div_mod n block_size ltac:(lia)) as Hdm.
  pose proof (Nat.mod_upper_bound n block_size ltac:(lia)) as Hub.
  set (q := n / block_size) in *. set (r := n mod block_size) in *.
  destruct (decide (r = 0)) as [Hr|Hr].
  - assert (S n mod block_size = 1) as ->.
    { symmetry. apply (Nat.mod_unique _ _ q); lia. }
    rewrite bool_decide_eq_true_2 by done.
    assert ((n + block_size - 1) / block_size = q) as ->.
    { symmetry. apply (Nat.div_unique _ _ _ (block_size - 1)); lia. }
    symmetry. apply (Nat.div_unique _ _ _ 0); lia.
  - assert (S n mod block_size ≠ 1).
    { destruct (decide (S r = block_size)) as [E|E].
      - assert (S n mod block_size = 0) as ->; [|lia].
        symmetry. apply (Nat.mod_unique _ _ (S q)); lia.
      - assert (S n mod block_size = S r) as ->; [|lia].
        symmetry. apply (Nat.mod_unique _ _ q); lia. }
    rewrite bool_decide_eq_false_2 by done.
    assert ((n + block_size - 1) / block_size = S q) as ->.
    { symmetry. apply (Nat.div_unique _ _ _ (r - 1)); lia. }
    symmetry. apply (Nat.div_unique _ _ _ r); lia.
Qed.

(** [append_token] adds a logical block exactly when the new length is
    1 modulo the block size, which is the test of [can_append] and
    [may_append].  With a block size of 1 every token is a new logical
    block while the test never holds. *)
Theorem new_block_test (tok : Z) (s : Sequence.t) :
  0 < block_size →
  ∃ nb,
    Sequence.num_blocks block_size s = inr nb ∧
    Sequence.num_blocks block_size (Sequence.append_token tok s)
    = inr (if bool_decide (block_size = 1) then S nb
           else nb + (if bool_decide
                           (Sequence.len (Sequence.append_token tok s) mod block_size = 1)
                      then 1 else 0)) ∧
    (block_size = 1 →
     Sequence.len (Sequence.append_token tok s) mod block_size ≠ 1).
Proof.
  intros Hbs. exists ((Sequence.num_tokens s + block_size - 1) / block_size).
  rewrite !num_blocks_spec by done.
  split; [done|]. split.
  - f_equal. unfold Sequence.len. simpl.
    case_bool_decide as H1.
    + rewrite H1, !Nat.div_1_r. lia.
    + replace (Sequence.num_tokens s + 1) with (S (Sequence.num_tokens s)) by lia.
      apply ceil_div_succ. lia.
  - intros ->. by rewrite Nat.mod_1_r.
Qed.

(** One decoding step ([append_token], then [may_append]) that returns,
    on a consistent pool with the block size of the sequences (above
    1): a sequence that had one table entry per logical block still has,
    the new token is its last, and the pool stays consistent with the
    entries of the table counted as its references. *)
Theorem decode_step_keeps_table
    (n : nat) (cnt : nat → nat) (tok : Z)
    (bm bm' : BlockManager.t) (s s' : Sequence.t) :
  1 < block_size →
  BlockManager.block_size bm = block_size →
  (∀ p t, xxh64 p t ≠ (-1)%Z) →
  (∀ i blk, BlockManager.blocks bm !! i = Some blk → Block.block_id blk = i) →
  pool_inv n (λ id, cnt id + count_occ Nat.eq_dec (Sequence.block_table s) id) bm →
  Sequence.num_blocks block_size s = inr (length (Sequence.block_table s)) →
  decode_step tok tt (bm, s) = (inr tt, (bm', s')) →
  Sequence.token_ids s' = Sequence.token_ids s ++ [tok] ∧
  Sequence.last_token s' = tok ∧
  Sequence.len s' = S (Sequence.len s) ∧
  Sequence.num_blocks block_size s' = inr (length (Sequence.block_table s')) ∧
  pool_inv n (λ id, cnt id + count_occ Nat.eq_dec (Sequence.block_table s') id) bm' ∧
  (∀ i blk, BlockManager.blocks bm' !! i = Some blk → Block.block_id blk = i).
Proof.
  intros Hbs Hbm Hx Hids Hinv Hnb Hrun.
  set (sa := Sequence.append_token tok s) in *.
  assert (Hrun' : may_append (bm, sa) = (inr tt, (bm', s'))).
  { rewrite <- Hrun. unfold decode_step, BlockManager.on_seq. munfold. done. }
  pose proof (may_append_post_holds n _ bm sa Hx Hinv Hids) as Hpost.
  apply (post_run _ _ _ _ _ Hrun') in Hpost.
  destruct Hpost as (Htok & Hids' & Hcase). simpl in *.
  assert (Hnb1 : Sequence.num_blocks block_size sa
                 = inr (length (Sequence.block_table s)
                        + (if bool_decide (Sequence.len sa mod block_size = 1)
                           then 1 else 0))).
  { rewrite num_blocks_spec in Hnb |- * by lia. injection Hnb as <-. f_equal.
    unfold Sequence.len. simpl.
    replace (Sequence.num_tokens s + 1) with (S (Sequence.num_tokens s)) by lia.
    apply ceil_div_succ. lia. }
  rewrite Hbm in Hcase.
  destruct Hcase as [(Hmod & b & Hfree & -> & Hinv')|(Hmod & -> & _ & _ & Hinv')].
  - rewrite bool_decide_eq_true_2 in Hnb1 by done.
    split; [done|]. split; [done|]. split; [unfold Sequence.len; simpl; lia|].
    split.
    { unfold Sequence.num_blocks in *. simpl in *. rewrite Hnb1.
      by rewrite length_app. }
    split; [|done].
    eapply pool_inv_ext; [|done]. intros id. simpl.
    unfold bump. rewrite count_occ_app. simpl.
    destruct (Nat.eq_dec b id) as [->|Hne].
    + rewrite decide_True by done. lia.
    + rewrite decide_False by congruence. lia.
  - rewrite bool_decide_eq_false_2 in Hnb1 by done.
    split; [done|]. split; [done|]. split; [unfold Sequence.len; simpl; lia|].
    split; [by rewrite Hnb1, Nat.add_0_r|]. done.
Qed.

(** ** The layout of the pool in the reachable states *)

Lemma pool_shape_lookup n (bm : BlockManager.t) id :
  pool_shape n bm → (id < n ↔ is_Some (BlockManager.blocks bm !! id)).
Proof.
  intros H. rewrite lookup_lt_is_Some.
  rewrite <- (length_fmap Block.block_id), (shape_ids _ _ H), length_seq. done.
Qed.

Lemma block_ids_fmap_alter (f : Block.t → Block.t) id (l : list Block.t) :
  (∀ b, Block.block_id (f b) = Block.block_id b) →
  Block.block_id <$> alter f id l = Block.block_id <$> l.
Proof.
  intros Hf. apply list_eq. intros i. rewrite !list_lookup_fmap.
  destruct (decide (id = i)) as [->|Hne].
  - rewrite list_lookup_alter_eq. destruct (l !! i); simpl; [|done]. by rewrite Hf.
  - by rewrite list_lookup_alter_ne.
Qed.

Lemma block_ids_fmap_insert id (b b' : Block.t) (l : list Block.t) :
  l !! id = Some b → Block.block_id b' = Block.block_id b →
  Block.block_id <$> <[id := b']> l = Block.block_id <$> l.
Proof.
  intros Hb Hid. rewrite list_fmap_insert, Hid. apply list_insert_id.
  by rewrite list_lookup_fmap, Hb.
Qed.

Lemma pool_shape_block_id n (bm : BlockManager.t) id blk :
  pool_shape n bm → BlockManager.blocks bm !! id = Some blk →
  Block.block_id blk = id ∧ id < n.
Proof.
  intros H Hb.
  assert (Hlt : id < n) by (apply (pool_shape_lookup n bm id H); eauto).
  split; [|done].
  assert (Hl : (Block.block_id <$> BlockManager.blocks bm) !! id = Some (Block.block_id blk))
    by (by rewrite list_lookup_fmap, Hb).
  rewrite (shape_ids _ _ H) in Hl. apply lookup_seq in Hl as [-> _]. done.
Qed.

Lemma pool_shape_free n (bm : BlockManager.t) id l :
  pool_shape n bm → BlockManager.free_block_ids bm = id :: l → id < n.
Proof.
  intros H Hf. apply (shape_partition _ _ H). left. rewrite Hf. by left.
Qed.

Lemma pool_shape_alter n (bm : BlockManager.t) f id :
  pool_shape n bm → (∀ b, Block.block_id (f b) = Block.block_id b) →
  pool_shape n (BlockManager.set_blocks (alter f id (BlockManager.blocks bm)) bm).
Proof.
  intros [H1 H2 H3 H4 H5 H6] Hf. split; simpl; try done.
  by rewrite block_ids_fmap_alter.
Qed.

Lemma pool_shape_reset n (bm : BlockManager.t) id blk :
  pool_shape n bm → BlockManager.blocks bm !! id = Some blk →
  pool_shape n (BlockManager.set_blocks
                  (<[id := Block.reset blk]> (BlockManager.blocks bm)) bm).
Proof.
  intros [H1 H2 H3 H4 H5 H6] Hb. split; simpl; try done.
  by erewrite block_ids_fmap_insert.
Qed.

Lemma pool_shape_allocated n (bm : BlockManager.t) id blk free' :
  pool_shape n bm → BlockManager.blocks bm !! id = Some blk →
  BlockManager.deque_remove id (BlockManager.free_block_ids bm) = Some free' →
  pool_shape n
    {| BlockManager.block_size := BlockManager.block_size bm;
       BlockManager.blocks := <[id := Block.reset blk]> (BlockManager.blocks bm);
       BlockManager.hash_to_block_id := BlockManager.hash_to_block_id bm;
       BlockManager.free_block_ids := free';
       BlockManager.used_block_ids := {[id]} ∪ BlockManager.used_block_ids bm |}.
Proof.
  intros Hs Hb Hrm.
  destruct (pool_shape_block_id _ _ _ _ Hs Hb) as [_ Hlt].
  destruct Hs as [H1 H2 H3 H4 H5 H6].
  destruct (deque_remove_spec _ _ _ Hrm H3) as (Hnd & Hel & _).
  split; simpl; try done.
  - by erewrite block_ids_fmap_insert.
  - intros x. rewrite Hel, elem_of_union, elem_of_singleton.
    destruct (decide (x = id)) as [->|Hne]; [tauto|].
    rewrite H4. tauto.
  - intros x [Hx Hne]%Hel. rewrite elem_of_union, elem_of_singleton.
    intros [?|?]; [done|]. by eapply H5.
Qed.

Lemma pool_shape_released n (bm : BlockManager.t) bs id :
  pool_shape n (BlockManager.set_blocks bs bm) →
  id ∈ BlockManager.used_block_ids bm →
  pool_shape n
    {| BlockManager.block_size := BlockManager.block_size bm;
       BlockManager.blocks := bs;
       BlockManager.hash_to_block_id := BlockManager.hash_to_block_id bm;
       BlockManager.free_block_ids := BlockManager.free_block_ids bm ++ [id];
       BlockManager.used_block_ids := BlockManager.used_block_ids bm ∖ {[id]} |}.
Proof.
  intros [H1 H2 H3 H4 H5 H6] Hu. simpl in *. split; simpl; try done.
  - apply NoDup_app. split; [done|]. split; [|apply NoDup_singleton].
    intros x Hx ->%list_elem_of_singleton. by eapply H5.
  - intros x. rewrite elem_of_app, list_elem_of_singleton, elem_of_difference,
      elem_of_singleton, H4.
    destruct (decide (x = id)) as [->|]; tauto.
  - intros x. rewrite elem_of_app, list_elem_of_singleton, elem_of_difference,
      elem_of_singleton.
    intros [Hx| ->] [Hxu Hne]; [by eapply H5|done].
Qed.

Lemma pool_shape_index n (bm : BlockManager.t) h id :
  pool_shape n bm → id < n →
  pool_shape n (BlockManager.set_hash_to_block_id
                  (<[h := id]> (BlockManager.hash_to_block_id bm)) bm).
Proof.
  intros [H1 H2 H3 H4 H5 H6] Hid. split; simpl; try done.
  intros h0 i. rewrite lookup_insert. case_decide; [by intros [= <-]|eauto].
Qed.

(** Peels the outermost change off a manager state. *)
Ltac shape_tac Hs :=
  repeat lazymatch goal with
  | |- pool_shape _ ?bm =>
      lazymatch bm with
      | BlockManager.set_hash_to_block_id (<[?h := ?id]> _) ?bm' =>
          apply (pool_shape_index _ bm' h id);
          [|first [ by eapply (pool_shape_free _ _ _ _ Hs)
                  | by eapply (shape_index _ _ Hs)
                  | match goal with
                    | H : BlockManager.blocks _ !! ?i = Some ?b |- Block.block_id ?b < _ =>
                        destruct (pool_shape_block_id _ _ _ _ Hs H) as [-> ?]; done
                    end ]]
      | BlockManager.set_blocks (alter ?f ?id _) ?bm' =>
          apply (pool_shape_alter _ bm' f id); [|by intros []]
      | BlockManager.set_blocks (<[?id := Block.reset ?blk]> _) ?bm' =>
          apply (pool_shape_reset _ bm' id blk); [|done]
      | {| BlockManager.blocks := <[?id := Block.reset ?blk]> (BlockManager.blocks ?bm');
           BlockManager.free_block_ids := ?free' |} =>
          apply (pool_shape_allocated _ bm' id blk free'); [|done|done]
      | {| BlockManager.blocks := ?bs;
           BlockManager.free_block_ids := BlockManager.free_block_ids ?bm' ++ [?id] |} =>
          apply (pool_shape_released _ bm' bs id); [|done]
      | _ => exact Hs
      end
  end.

Lemma allocate_iter_shape n i loc (st : BlockManager.t * Sequence.t) :
  pool_shape n st.1 →
  post (allocate_iter i loc) st (λ _ st', pool_shape n st'.1).
Proof.
  destruct loc as [h cm], st as [bm s]. simpl. intros Hs.
  unfold BlockManager.allocate_iter.
  wp; try done.
  all: shape_tac Hs.
Qed.

Lemma allocate_shape n (st : BlockManager.t * Sequence.t) :
  pool_shape n st.1 → post allocate st (λ _ st', pool_shape n st'.1).
Proof.
  intros Hs. unfold BlockManager.allocate.
  wp; try done.
  eapply post_mono.
  - apply (post_for_each _ (λ _ _ st', pool_shape n st'.1)
             (λ _ st', pool_shape n st'.1)); [done|].
    intros x l' acc st' Hs'. eapply post_mono; [by apply allocate_iter_shape|].
    by intros [?|?] ?.
  - intros [e|acc] st' Hst'; wp; done.
Qed.

Lemma deallocate_shape n (st : BlockManager.t * Sequence.t) :
  pool_shape n st.1 → post BlockManager.deallocate st (λ _ st', pool_shape n st'.1).
Proof.
  intros Hs. unfold BlockManager.deallocate.
  wp.
  eapply post_mono.
  - apply (post_for_each _ (λ _ _ st', pool_shape n st'.1)
             (λ _ st', pool_shape n st'.1)); [done|].
    intros x l' acc [bm' s'] Hs'. unfold BlockManager.deallocate_iter.
    simpl in Hs'. wp; try done; shape_tac Hs'.
  - intros [e|acc] st' Hst'; wp; done.
Qed.

Lemma may_append_shape n (st : BlockManager.t * Sequence.t) :
  pool_shape n st.1 → post may_append st (λ _ st', pool_shape n st'.1).
Proof.
  destruct st as [bm s]. simpl. intros Hs.
  unfold BlockManager.may_append.
  wp; try done; shape_tac Hs.
Qed.

Lemma pool_shape_init n : pool_shape n (BlockManager.__init__ n block_size).
Proof.
  split; simpl; try done.
  - rewrite <- list_fmap_compose. apply list_fmap_id.
  - apply NoDup_seq.
  - intros id. rewrite elem_of_seq, elem_of_empty. intuition lia.
Qed.

(** Whatever calls of [allocate], [may_append] and [deallocate] were
    made, returning or raising, on whatever sequences: the pool keeps
    its [n] blocks, block [i] at index [i]; the free list has no
    duplicate; every block id is on the free list or in the used set,
    never both; the hash index names blocks of the pool only, so the
    lookup of line 90 cannot leave the pool. *)
Theorem reachable_layout (n : nat) (bm : BlockManager.t) :
  reachable n bm →
  BlockManager.block_size bm = block_size ∧
  length (BlockManager.blocks bm) = n ∧
  (∀ i blk, BlockManager.blocks bm !! i = Some blk → Block.block_id blk = i) ∧
  NoDup (BlockManager.free_block_ids bm) ∧
  (∀ id, id < n ↔ id ∈ BlockManager.free_block_ids bm
                  ∨ id ∈ BlockManager.used_block_ids bm) ∧
  (∀ id, id ∈ BlockManager.free_block_ids bm →
         id ∉ BlockManager.used_block_ids bm) ∧
  (∀ h id, BlockManager.hash_to_block_id bm !! h = Some id →
           is_Some (BlockManager.blocks bm !! id)).
Proof.
  intros Hr.
  assert (Hs : pool_shape n bm).
  { induction Hr as [|bm s _ IH Hc|bm s _ IH Hc|bm s _ IH Hc].
    - apply pool_shape_init.
    - apply (allocate_shape n (bm, s) IH).
    - apply (may_append_shape n (bm, s) IH).
    - apply (deallocate_shape n (bm, s) IH). }
  split; [apply (shape_block_size _ _ Hs)|].
  split.
  { rewrite <- (length_fmap Block.block_id), (shape_ids _ _ Hs). apply length_seq. }
  split; [intros i blk Hb; by apply (pool_shape_block_id n bm i blk Hs)|].
  split; [apply (shape_nodup _ _ Hs)|].
  split; [apply (shape_partition _ _ Hs)|].
  split; [apply (shape_disjoint _ _ Hs)|].
  intros h id Hh. apply (pool_shape_lookup n bm id Hs). by eapply shape_index.
Qed.

(** ** Reference counts under any schedule *)

Lemma allocate_any n cnt (bm : BlockManager.t) (s : Sequence.t) :
  pool_inv n (λ id, cnt id + count_occ Nat.eq_dec (Sequence.block_table s) id) bm →
  pool_inv n (λ id, cnt id + count_occ Nat.eq_dec
                               (Sequence.block_table (allocate (bm, s)).2.2) id)
    (allocate (bm, s)).2.1.
Proof.
  intros Hinv. rewrite allocate_unfold.
  case_bool_decide as Hbt; [|done].
  destruct (Sequence.num_blocks block_size s) as [e|nb] eqn:Hnb; [done|].
  destruct (allocate_loop_total n (seq 0 nb) _ ((-1)%Z, false) bm s Hinv)
    as (r & bm' & s' & bt' & Hrun & Hbt' & _ & Hinv' & _).
  { intros i [_ Hi]%elem_of_seq. eexists. by apply (block_chunk s nb). }
  rewrite Hrun.
  assert (Hgoal : pool_inv n (λ id, cnt id + count_occ Nat.eq_dec
                                               (Sequence.block_table s') id) bm').
  { eapply pool_inv_ext; [|done]. intros id. simpl.
    rewrite Hbt', Hbt, count_occ_app. simpl. lia. }
  by destruct r.
Qed.

Lemma decode_step_any n cnt tok (bm : BlockManager.t) (s : Sequence.t) :
  (∀ p t, xxh64 p t ≠ (-1)%Z) →
  pool_shape n bm →
  pool_inv n (λ id, cnt id + count_occ Nat.eq_dec (Sequence.block_table s) id) bm →
  pool_inv n (λ id, cnt id + count_occ Nat.eq_dec
                               (Sequence.block_table (decode_step tok tt (bm, s)).2.2) id)
    (decode_step tok tt (bm, s)).2.1.
Proof.
  intros Hx Hs Hinv.
  set (sa := Sequence.append_token tok s).
  assert (decode_step tok tt (bm, s) = may_append (bm, sa)) as ->.
  { unfold decode_step, BlockManager.on_seq. munfold. done. }
  pose proof (may_append_post_holds n _ bm sa Hx Hinv
                (λ i blk H, proj1 (pool_shape_block_id n bm i blk Hs H))) as Hpost.
  unfold post, may_append_post in Hpost.
  destruct (may_append (bm, sa)) as [[e|[]] [bm' s']]; simpl in *.
  - by injection Hpost as -> ->.
  - destruct Hpost as (_ & _ & [(_ & b & _ & -> & Hinv')|(_ & -> & _ & _ & Hinv')]);
      [|done].
    eapply pool_inv_ext; [|done]. intros id. simpl.
    unfold bump. rewrite count_occ_app. simpl.
    destruct (Nat.eq_dec b id) as [->|Hne].
    + rewrite decide_True by done. lia.
    + rewrite decide_False by congruence. lia.
Qed.

Lemma decode_step_shape n tok (st : BlockManager.t * Sequence.t) :
  pool_shape n st.1 → pool_shape n (decode_step tok tt st).2.1.
Proof.
  intros Hs. destruct st as [bm s].
  assert (decode_step tok tt (bm, s)
          = may_append (bm, Sequence.append_token tok s)) as ->.
  { unfold decode_step, BlockManager.on_seq. munfold. done. }
  apply (may_append_shape n (bm, Sequence.append_token tok s) Hs).
Qed.

(** The bookkeeping agrees with the block tables and the pool has its
    layout. *)
Lemma step_inv n o sys :
  (∀ p t, xxh64 p t ≠ (-1)%Z) →
  pool_inv n (references (sequences sys)) (manager sys) →
  pool_shape n (manager sys) →
  pool_inv n (references (sequences (step o tt sys).2)) (manager (step o tt sys).2) ∧
  pool_shape n (manager (step o tt sys).2).
Proof.
  intros Hx Hinv Hs.
  assert (Hcall : ∀ (m : M (BlockManager.t * Sequence.t) unit) i,
            (∀ cnt s,
               pool_inv n (λ id, cnt id + count_occ Nat.eq_dec (Sequence.block_table s) id)
                 (manager sys) →
               pool_inv n (λ id, cnt id + count_occ Nat.eq_dec
                                            (Sequence.block_table (m (manager sys, s)).2.2) id)
                 (m (manager sys, s)).2.1) →
            (∀ s, pool_shape n (m (manager sys, s)).2.1) →
            pool_inv n (references (sequences (call m i sys).2)) (manager (call m i sys).2) ∧
            pool_shape n (manager (call m i sys).2)).
  { intros m i Hm Hms. unfold call.
    destruct (sequences sys !! i) as [s|] eqn:Hi; [|done].
    destruct (references_insert _ _ _ Hi) as (rest & Hrest & Hrest').
    specialize (Hm rest s). specialize (Hms s).
    destruct (m (manager sys, s)) as [r [bm' s']]. simpl in *. split; [|done].
    eapply pool_inv_ext; [|apply Hm].
    - intros id. by rewrite Hrest'.
    - eapply pool_inv_ext; [|done]. intros id. by rewrite Hrest. }
  destruct o as [i|i tok|i]; simpl; apply Hcall.
  - intros cnt s. apply allocate_any.
  - intros s. apply (allocate_shape n (manager sys, s) Hs).
  - intros cnt s. by apply decode_step_any.
  - intros s. apply (decode_step_shape n tok (manager sys, s) Hs).
  - intros cnt s Hc. destruct (deallocate_inv n cnt (manager sys) s Hc)
      as (bm' & s' & Hrun & Hbt' & Hinv').
    rewrite Hrun. simpl. rewrite Hbt'.
    eapply pool_inv_ext; [|done]. intros id. simpl. lia.
  - intros s. apply (deallocate_shape n (manager sys, s) Hs).
Qed.

Lemma schedule_inv n ops : ∀ sys,
  (∀ p t, xxh64 p t ≠ (-1)%Z) →
  pool_inv n (references (sequences sys)) (manager sys) →
  pool_shape n (manager sys) →
  pool_inv n (references (sequences (schedule ops sys).2))
    (manager (schedule ops sys).2).
Proof.
  induction ops as [|o ops IH]; intros sys Hx Hinv Hs; [done|].
  unfold schedule. cbn [for_each]. unfold mbind, M_bind.
  destruct (step_inv n o sys Hx Hinv Hs) as [Hinv' Hs'].
  destruct (step o tt sys) as [[e|[]] sys']; [done|].
  by apply IH.
Qed.

(** The sequences of a scheduler hold no block at first, on a fresh
    manager.  After any calls of [allocate], decoding steps and
    [deallocate] on them, in any order and whether or not a call raised
    and ended the run, every block's [ref_count] is the number of
    entries of the block tables that name it, the blocks without such an
    entry are exactly those on the free list, and the others are
    exactly those in the used set. *)
Theorem ref_counts_track_tables
    (n : nat) (seqs : list Sequence.t) (ops : list op) :
  (∀ p t, xxh64 p t ≠ (-1)%Z) →
  Forall (λ s, Sequence.block_table s = []) seqs →
  let sys' := (schedule ops {| manager := BlockManager.__init__ n block_size;
                               sequences := seqs |}).2 in
  length (BlockManager.blocks (manager sys')) = n ∧
  (∀ id blk, BlockManager.blocks (manager sys') !! id = Some blk →
     Block.ref_count blk = Z.of_nat (references (sequences sys') id)) ∧
  (∀ id, id ∈ BlockManager.free_block_ids (manager sys')
         ↔ id < n ∧ references (sequences sys') id = 0) ∧
  (∀ id, id ∈ BlockManager.used_block_ids (manager sys')
         ↔ id < n ∧ references (sequences sys') id ≠ 0) ∧
  (∀ id, n ≤ id → references (sequences sys') id = 0).
Proof.
  intros Hx Hemp sys'.
  assert (Hinv : pool_inv n (references (sequences sys')) (manager sys')).
  { apply schedule_inv; simpl; [done| |apply pool_shape_init].
    eapply pool_inv_ext; [|apply pool_inv_fresh].
    intros id. symmetry. apply references_empty.
    intros i s Hi. by apply (proj1 (Forall_lookup _ _) Hemp i s). }
  split; [apply (inv_length _ _ _ Hinv)|].
  split; [apply (inv_count _ _ _ Hinv)|].
  split; [apply (inv_free _ _ _ Hinv)|].
  split; [apply (inv_used _ _ _ Hinv)|apply (inv_range _ _ _ Hinv)].
Qed.

(** ** How many tokens [allocate] counts as cached *)

Lemma block_full_bound i (s : Sequence.t) l :
  Sequence.block block_size (Z.of_nat i) s = inr l →
  length l = block_size →
  S i * block_size ≤ length (Sequence.token_ids s).
Proof.
  unfold Sequence.block. destruct (Sequence.num_blocks block_size s); [done|].
  case_bool_decide; [|done]. intros [= <-].
  rewrite length_take, length_drop, Nat2Z.id. nia.
Qed.

Lemma allocate_iter_cached i loc (st : BlockManager.t * Sequence.t) :
  BlockManager.block_size st.1 = block_size →
  BlockManager.hash_to_block_id st.1 !! (-1)%Z = None →
  post (allocate_iter i loc) st (λ r st',
    BlockManager.block_size st'.1 = block_size ∧
    BlockManager.hash_to_block_id st'.1 !! (-1)%Z = None ∧
    same_tokens st.2 st'.2 ∧
    (Sequence.num_cached_tokens st'.2 = Sequence.num_cached_tokens st.2
     ∨ (Sequence.num_cached_tokens st'.2 = Sequence.num_cached_tokens st.2 + block_size ∧
        S i * block_size ≤ length (Sequence.token_ids st.2)))).
Proof.
  destruct loc as [h cm], st as [bm s]. simpl. intros Hbs Hsent.
  unfold BlockManager.allocate_iter.
  wp; try done.
  all: unfold same_tokens; simpl.
  all: rewrite ?lookup_insert_ne by (done || congruence).
  all: try (split; [done|]; split; [done|]; split; [done|]; by left).
  all: try match goal with
           | H : _ || true = false |- _ => by rewrite orb_true_r in H
           end.
  all: split; [done|]; split; [done|]; split; [done|]; right.
  all: split; [by rewrite Hbs|].
  all: eapply (block_full_bound i s); [done|congruence].
Qed.

Lemma allocate_loop_cached (s0 : Sequence.t) nb : ∀ i loc (st : BlockManager.t * Sequence.t),
  BlockManager.block_size st.1 = block_size →
  BlockManager.hash_to_block_id st.1 !! (-1)%Z = None →
  same_tokens s0 st.2 →
  (∃ k, k ≤ i ∧
        Sequence.num_cached_tokens st.2 = Sequence.num_cached_tokens s0 + k * block_size ∧
        k * block_size ≤ length (Sequence.token_ids s0)) →
  post (for_each allocate_iter (seq i nb) loc) st (λ r st',
    same_tokens s0 st'.2 ∧
    ∃ k, k ≤ i + nb ∧
         Sequence.num_cached_tokens st'.2
         = Sequence.num_cached_tokens s0 + k * block_size ∧
         k * block_size ≤ length (Sequence.token_ids s0)).
Proof.
  induction nb as [|nb IH]; intros i loc st Hbs Hsent Hsame (k & Hk & Hc & Hle); simpl.
  - apply post_ret. split; [done|]. exists k. split; [lia|done].
  - apply post_bind. eapply post_mono; [by apply allocate_iter_cached|].
    intros r st1 (Hbs1 & Hsent1 & Hsame1 & Hc1).
    assert (Hsame' : same_tokens s0 st1.2).
    { destruct Hsame, Hsame1. split; congruence. }
    assert (Hk' : ∃ k', k' ≤ S i ∧
              Sequence.num_cached_tokens st1.2
              = Sequence.num_cached_tokens s0 + k' * block_size ∧
              k' * block_size ≤ length (Sequence.token_ids s0)).
    { destruct Hc1 as [Hc1|[Hc1 Hfull]].
      - exists k. split; [lia|]. split; [congruence|done].
      - exists (S k). split; [lia|]. split; [rewrite Hc1, Hc; simpl; lia|].
        destruct Hsame as [<- _]. nia. }
    destruct r as [e|loc1].
    + split; [done|]. destruct Hk' as (k' & ? & ? & ?). exists k'.
      split; [lia|done].
    + eapply post_mono; [by apply (IH (S i))|].
      intros r2 st2 [Hs2 (k2 & ? & ? & ?)]. split; [done|]. exists k2.
      split; [lia|done].
Qed.

(** However [allocate] ends, the tokens it has counted as cached are a
    whole number of blocks, at most as many as the sequence has logical
    blocks, and never more tokens than the sequence holds (the hash
    index having no entry under the sentinel, as in every state the
    manager reaches). *)
Theorem cached_tokens_bound (bm : BlockManager.t) (s : Sequence.t) :
  BlockManager.block_size bm = block_size →
  BlockManager.hash_to_block_id bm !! (-1)%Z = None →
  Sequence.num_tokens s = length (Sequence.token_ids s) →
  ∃ r bm' s' k,
    allocate (bm, s) = (r, (bm', s')) ∧
    Sequence.num_cached_tokens s' = Sequence.num_cached_tokens s + k * block_size ∧
    k * block_size ≤ Sequence.num_tokens s ∧
    (∀ nb, Sequence.num_blocks block_size s = inr nb → k ≤ nb) ∧
    (0 < block_size → Sequence.num_cached_tokens s = 0 →
     Sequence.num_cached_blocks block_size s' = inr k) ∧
    Sequence.token_ids s' = Sequence.token_ids s.
Proof.
  intros Hbs Hsent Hcons.
  destruct (allocate (bm, s)) as [r [bm' s']] eqn:Hrun.
  rewrite allocate_unfold in Hrun.
  assert (Hcb : ∀ s' k, Sequence.num_cached_tokens s' = Sequence.num_cached_tokens s + k * block_size →
                 0 < block_size → Sequence.num_cached_tokens s = 0 →
                 Sequence.num_cached_blocks block_size s' = inr k).
  { intros s0 k0 E Hpos Hz. unfold Sequence.num_cached_blocks.
    rewrite py_floordiv_pos by lia. rewrite E, Hz. simpl. f_equal.
    by apply Nat.div_mul; lia. }
  case_bool_decide as Hbt; [|injection Hrun as <- <- <-; exists (inl AssertionError), bm, s, 0;
                              repeat split; try done; try (intros; lia); by apply Hcb].
  destruct (Sequence.num_blocks block_size s) as [e|nb] eqn:Hnb;
    [injection Hrun as <- <- <-; exists (inl e), bm, s, 0;
     repeat split; try done; try lia; by apply Hcb|].
  pose proof (allocate_loop_cached s nb 0 ((-1)%Z, false) (bm, s) Hbs Hsent) as Hloop.
  unfold post in Hloop.
  destruct (for_each allocate_iter (seq 0 nb) _ _) as [r1 [bm1 s1]].
  destruct Hloop as [[Htok _] (k & Hk & Hc & Hle)].
  { done. }
  { exists 0. simpl. split; [done|]. split; lia. }
  simpl in *. exists r, bm', s', k.
  assert (s' = s1 ∧ bm' = bm1) as [-> ->] by (destruct r1; by injection Hrun).
  split; [done|]. split; [done|]. split; [by rewrite Hcons|].
  split; [intros nb' [= <-]; lia|]. split; [by apply Hcb|done].
Qed.

(** ** A manager whose block size is not that of the sequences *)

Lemma block_length_le i (s : Sequence.t) l :
  Sequence.block block_size i s = inr l → length l ≤ block_size.
Proof.
  unfold Sequence.block. destruct (Sequence.num_blocks block_size s); [done|].
  case_bool_decide; [|done]. intros [= <-]. rewrite length_take. lia.
Qed.

Lemma allocate_iter_mismatch i loc (st : BlockManager.t * Sequence.t) :
  block_size < BlockManager.block_size st.1 →
  BlockManager.hash_to_block_id st.1 !! (-1)%Z = None →
  post (allocate_iter i loc) st (λ r st',
    BlockManager.block_size st'.1 = BlockManager.block_size st.1 ∧
    BlockManager.hash_to_block_id st'.1 = BlockManager.hash_to_block_id st.1 ∧
    Sequence.num_cached_tokens st'.2 = Sequence.num_cached_tokens st.2).
Proof.
  destruct loc as [h cm], st as [bm s]. simpl. intros Hlt Hsent.
  unfold BlockManager.allocate_iter.
  wp; try done.
  all: try match goal with
           | H : Sequence.block _ _ _ = inr ?l, H' : length ?l = _ |- _ =>
               apply block_length_le in H; lia
           end.
  all: congruence.
Qed.

(** The sequences cut their tokens by the class attribute
    [Sequence.block_size], the manager compares the pieces with its own
    [block_size].  When the manager's is the larger, no logical block
    ever has the length that is hashed: however [allocate] ends, it has
    registered nothing in the hash index and counted no token as
    cached, so that no block is ever shared. *)
Theorem mismatched_block_size_never_caches (bm : BlockManager.t) (s : Sequence.t) :
  block_size < BlockManager.block_size bm →
  BlockManager.hash_to_block_id bm !! (-1)%Z = None →
  BlockManager.hash_to_block_id (allocate (bm, s)).2.1
  = BlockManager.hash_to_block_id bm ∧
  Sequence.num_cached_tokens (allocate (bm, s)).2.2 = Sequence.num_cached_tokens s ∧
  BlockManager.block_size (allocate (bm, s)).2.1 = BlockManager.block_size bm.
Proof.
  intros Hlt Hsent.
  cut (post allocate (bm, s) (λ _ st',
         BlockManager.block_size st'.1 = BlockManager.block_size bm ∧
         BlockManager.hash_to_block_id st'.1 = BlockManager.hash_to_block_id bm ∧
         Sequence.num_cached_tokens st'.2 = Sequence.num_cached_tokens s)).
  { unfold post. tauto. }
  unfold BlockManager.allocate.
  wp; try done.
  eapply post_mono.
  - apply (post_for_each _
             (λ _ _ st', BlockManager.block_size st'.1 = BlockManager.block_size bm ∧
                         BlockManager.hash_to_block_id st'.1
                         = BlockManager.hash_to_block_id bm ∧
                         Sequence.num_cached_tokens st'.2 = Sequence.num_cached_tokens s)
             (λ _ st', BlockManager.block_size st'.1 = BlockManager.block_size bm ∧
                       BlockManager.hash_to_block_id st'.1
                       = BlockManager.hash_to_block_id bm ∧
                       Sequence.num_cached_tokens st'.2 = Sequence.num_cached_tokens s));
      [done|].
    intros x l' acc st' (Hb & Hi & Hc).
    eapply post_mono; [apply allocate_iter_mismatch; congruence|].
    intros [?|?] st'' (Hb' & Hi' & Hc'); repeat split; congruence.
  - intros [e|acc] st' Hst'; wp; done.
Qed.

(** ** The hash index only grows *)

Lemma allocate_iter_index i loc (st : BlockManager.t * Sequence.t) :
  post (allocate_iter i loc) st (λ _ st',
    BlockManager.hash_to_block_id st.1 ⊆ BlockManager.hash_to_block_id st'.1
    ∨ ∃ h b, BlockManager.hash_to_block_id st'.1
             = <[h := b]> (BlockManager.hash_to_block_id st.1)).
Proof.
  destruct loc as [h cm], st as [bm s]. simpl.
  unfold BlockManager.allocate_iter.
  wp; try (by left); right; eauto.
Qed.

Lemma index_keys_insert (m m' : gmap Z nat) :
  (m ⊆ m' ∨ ∃ h b, m' = <[h := b]> m) → dom m ⊆ dom m'.
Proof.
  intros [H|(h & b & ->)]; [by apply subseteq_dom|].
  rewrite dom_insert. set_solver.
Qed.

(** No call ever removes a key from the hash index: [allocate] and
    [may_append] can only add keys or point a key at another block, and
    [deallocate] leaves the index as it is, whether they return or
    raise. *)
Theorem index_never_pruned (bm : BlockManager.t) (s : Sequence.t) :
  dom (BlockManager.hash_to_block_id bm)
  ⊆ dom (BlockManager.hash_to_block_id (allocate (bm, s)).2.1) ∧
  dom (BlockManager.hash_to_block_id bm)
  ⊆ dom (BlockManager.hash_to_block_id (may_append (bm, s)).2.1) ∧
  BlockManager.hash_to_block_id (BlockManager.deallocate (bm, s)).2.1
  = BlockManager.hash_to_block_id bm.
Proof.
  split; [|split].
  - cut (post allocate (bm, s) (λ _ st',
           dom (BlockManager.hash_to_block_id bm)
           ⊆ dom (BlockManager.hash_to_block_id st'.1))); [done|].
    unfold BlockManager.allocate.
    wp; try done.
    eapply post_mono.
    + apply (post_for_each _
               (λ _ _ st', dom (BlockManager.hash_to_block_id bm)
                           ⊆ dom (BlockManager.hash_to_block_id st'.1))
               (λ _ st', dom (BlockManager.hash_to_block_id bm)
                         ⊆ dom (BlockManager.hash_to_block_id st'.1))); [done|].
      intros x l' acc st' Hsub.
      eapply post_mono; [apply allocate_iter_index|].
      intros r st'' Hstep. apply index_keys_insert in Hstep.
      destruct r; set_solver.
    + intros [e|acc] st' Hst'; wp; done.
  - cut (post may_append (bm, s) (λ _ st',
           dom (BlockManager.hash_to_block_id bm)
           ⊆ dom (BlockManager.hash_to_block_id st'.1))); [done|].
    unfold BlockManager.may_append.
    wp; try done; simpl; rewrite ?dom_insert; set_solver.
  - cut (post BlockManager.deallocate (bm, s) (λ _ st',
           BlockManager.hash_to_block_id st'.1 = BlockManager.hash_to_block_id bm));
      [done|].
    unfold BlockManager.deallocate.
    wp.
    eapply post_mono.
    + apply (post_for_each _
               (λ _ _ st', BlockManager.hash_to_block_id st'.1
                           = BlockManager.hash_to_block_id bm)
               (λ _ st', BlockManager.hash_to_block_id st'.1
                         = BlockManager.hash_to_block_id bm)); [done|].
      intros x l' acc [bm' s'] Hsub. unfold BlockManager.deallocate_iter.
      simpl in Hsub. wp; done.
    + intros [e|acc] st' Hst'; wp; done.
Qed.

(** ** The content of a referenced block *)

(** Settles [keeps_block] after one block of the pool was changed. *)
Ltac keeps_tac id blk0 :=
  unfold keeps_block; simpl;
  try lazymatch goal with
      | |- context [alter _ ?n _] => destruct (decide (n = id)) as [->|?]
      | |- context [<[?n := _]> _] => destruct (decide (n = id)) as [->|?]
      end;
  repeat match goal with
         | H : ¬ _ ≠ _ |- _ => apply dec_stable in H
         end;
  simplify_eq;
  rewrite ?list_lookup_alter_eq, ?list_lookup_alter_ne, ?list_lookup_insert_ne by done;
  try (erewrite !lookup_insert_present by done);
  repeat match goal with
         | H : BlockManager.blocks _ !! id = Some _ |- _ => rewrite H
         end;
  simpl;
  first
    [ by exists blk0
    | lia
    | eexists; split; [reflexivity|];
      simpl; repeat split; first [done | congruence | lia ] ].

Lemma allocate_iter_keeps id blk i loc (st : BlockManager.t * Sequence.t) :
  (0 < Block.ref_count blk)%Z →
  keeps_block id blk st.1 →
  post (allocate_iter i loc) st (λ _ st', keeps_block id blk st'.1).
Proof.
  destruct loc as [h cm], st as [bm s]. simpl.
  intros Hrc (blk0 & Hb0 & Ht0 & Hr0 & Hh0).
  unfold BlockManager.allocate_iter.
  wp.
  all: keeps_tac id blk0.
Qed.

(** A block that some sequence references is not overwritten by the calls
    made for any sequence [s]. After [allocate], returned or raised, it
    holds the same tokens, no fewer references, and a hash if it had one.
    After [may_append], returned or raised, a referenced block that has a
    hash is unchanged. *)
Theorem referenced_content_stable (bm : BlockManager.t) (s : Sequence.t)
    (id : nat) (blk : Block.t) :
  BlockManager.blocks bm !! id = Some blk →
  (0 < Block.ref_count blk)%Z →
  keeps_block id blk (allocate (bm, s)).2.1 ∧
  (Block.hash blk ≠ (-1)%Z →
   BlockManager.blocks (may_append (bm, s)).2.1 !! id = Some blk).
Proof.
  intros Hb Hrc.
  assert (Hkeep : keeps_block id blk bm) by (by exists blk).
  split.
  - cut (post allocate (bm, s) (λ _ st', keeps_block id blk st'.1)); [done|].
    unfold BlockManager.allocate.
    wp; try done.
    eapply post_mono.
    + apply (post_for_each _
               (λ _ _ st', keeps_block id blk st'.1)
               (λ _ st', keeps_block id blk st'.1)); [done|].
      intros x l' acc st' Hk.
      eapply post_mono; [by apply allocate_iter_keeps|].
      intros r st'' Hstep. by destruct r.
    + intros [e|acc] st' Hst'; wp; done.
  - intros Hh.
    cut (post may_append (bm, s) (λ _ st',
           BlockManager.blocks st'.1 !! id = Some blk)); [done|].
    unfold BlockManager.may_append.
    wp; try done; simpl.
    all: try lazymatch goal with
             | |- alter _ ?n _ !! _ = _ => destruct (decide (n = id)) as [->|?]
             | |- <[?n := _]> _ !! _ = _ => destruct (decide (n = id)) as [->|?]
             end;
      simplify_eq;
      rewrite ?list_lookup_alter_ne, ?list_lookup_insert_ne by done;
      first [done | lia | congruence].
Qed.

(** ** The cache across a release *)

Section Reclaim.
Hypothesis xxh64_sentinel_free : ∀ p t, xxh64 p t ≠ (-1)%Z.
Hypothesis block_size_pos : 0 < block_size.
Hypothesis xxh64_collision_free :
  ∀ p t p' t', xxh64 p t = xxh64 p' t' → p = p' ∧ t = t'.

Lemma rested_block_held tokens j id :
  id < j → rested_block tokens j id = bound_block tokens 0 id.
Proof.
  intros H. unfold rested_block, bound_block, Block.set_ref_count.
  rewrite (bool_decide_eq_true_2 (id < j)) by done.
  by rewrite (bool_decide_eq_false_2 (id < 0)) by lia.
Qed.

Lemma released_pool_lookup n tokens nb j i :
  i < nb →
  BlockManager.blocks (released_pool n tokens nb j) !! i
  = Some (rested_block tokens j i).
Proof.
  intros Hi. unfold released_pool. simpl.
  rewrite lookup_app_l by (rewrite length_fmap, length_seq; lia).
  rewrite list_lookup_fmap, lookup_seq_lt by done. done.
Qed.

Lemma released_pool_lookup_free n tokens nb j i :
  nb ≤ i < n →
  BlockManager.blocks (released_pool n tokens nb j) !! i = Some (Block.__init__ i).
Proof.
  intros Hi. unfold released_pool. simpl.
  rewrite lookup_app_r; rewrite length_fmap, length_seq; [|lia].
  rewrite list_lookup_fmap, lookup_seq_lt by lia. simpl. f_equal. f_equal. lia.
Qed.

Lemma released_pool_length n tokens nb j :
  nb ≤ n → length (BlockManager.blocks (released_pool n tokens nb j)) = n.
Proof.
  intros H. unfold released_pool. simpl.
  rewrite length_app, !length_fmap, !length_seq. lia.
Qed.

Lemma released_pool_all n tokens nb :
  released_pool n tokens nb nb = pool n tokens nb 0.
Proof.
  unfold released_pool, pool. f_equal.
  - f_equal. apply list_fmap_ext. intros i x [-> Hx]%lookup_seq.
    by apply rested_block_held.
  - by rewrite Nat.sub_diag, app_nil_r.
Qed.

(** Changing what a pool holds at [j] moves the boundary. *)
Lemma released_pool_blocks n tokens nb j j' :
  j < nb → nb ≤ n → (j' = j ∨ j' = S j) →
  <[j := rested_block tokens j' j]>
    (BlockManager.blocks (released_pool n tokens nb (if decide (j' = j) then S j else j)))
  = BlockManager.blocks (released_pool n tokens nb j').
Proof.
  intros Hj Hn Hj'. apply list_eq. intros x.
  destruct (decide (x = j)) as [->|Hne].
  - rewrite list_lookup_insert_eq by (rewrite released_pool_length; lia).
    by rewrite released_pool_lookup.
  - rewrite list_lookup_insert_ne by done.
    destruct (decide (x < nb)) as [Hx|Hx].
    + rewrite !released_pool_lookup by done. f_equal. unfold rested_block.
      f_equal. destruct Hj' as [-> | ->].
      * rewrite decide_True by done. repeat case_bool_decide; try done; lia.
      * rewrite decide_False by lia. repeat case_bool_decide; try done; lia.
    + destruct (decide (x < n)) as [Hxn|Hxn].
      * by rewrite !released_pool_lookup_free by lia.
      * rewrite !lookup_ge_None_2; [done| |]; rewrite released_pool_length; lia.
Qed.

Lemma used_after_S j : used_after (S j) ∖ {[j]} = used_after j.
Proof.
  apply set_eq. intros x.
  rewrite elem_of_difference, elem_of_singleton, !used_after_elem by done. lia.
Qed.

Lemma seq_cons j m : 0 < m → seq j m = j :: seq (S j) (m - 1).
Proof. intros H. destruct m; [lia|]. simpl. by rewrite Nat.sub_0_r. Qed.

Lemma released_pool_intro n tokens nb j bs free used :
  bs = BlockManager.blocks (released_pool n tokens nb j) →
  free = BlockManager.free_block_ids (released_pool n tokens nb j) →
  used = BlockManager.used_block_ids (released_pool n tokens nb j) →
  {| BlockManager.block_size := block_size;
     BlockManager.blocks := bs;
     BlockManager.hash_to_block_id := index_after tokens nb;
     BlockManager.free_block_ids := free;
     BlockManager.used_block_ids := used |}
  = released_pool n tokens nb j.
Proof. by intros -> -> ->. Qed.

(** One turn of [deallocate] on the last block still held. *)
Lemma release_step n tokens nb j (s : Sequence.t) :
  j < nb → nb ≤ n →
  BlockManager.deallocate_iter j tt (released_pool n tokens nb (S j), s)
  = (inr tt, (released_pool n tokens nb j, s)).
Proof.
  intros Hj Hn.
  rewrite (deallocate_iter_release j _ s (rested_block tokens (S j) j)).
  - do 2 f_equal. apply released_pool_intro.
    + pose proof (released_pool_blocks n tokens nb j j Hj Hn ltac:(by left)) as H.
      rewrite decide_True in H by done. rewrite <- H. f_equal.
      unfold rested_block. simpl.
      by rewrite (bool_decide_eq_false_2 (j < j)) by lia.
    + cbn [released_pool BlockManager.free_block_ids].
      rewrite <- app_assoc. f_equal.
      rewrite (seq_cons j (nb - j)) by lia. rewrite reverse_cons.
      do 3 f_equal. lia.
    + apply used_after_S.
  - by apply released_pool_lookup.
  - unfold rested_block. simpl. by rewrite bool_decide_eq_true_2 by lia.
  - cbn [released_pool BlockManager.used_block_ids].
    apply used_after_elem; [done|lia].
Qed.

Lemma release_loop n tokens nb m : ∀ j (s : Sequence.t),
  j + m ≤ nb → nb ≤ n →
  for_each BlockManager.deallocate_iter (reverse (seq j m)) tt
    (released_pool n tokens nb (j + m), s)
  = (inr tt, (released_pool n tokens nb j, s)).
Proof.
  induction m as [|m IH]; intros j s Hjm Hn.
  - by rewrite Nat.add_0_r.
  - rewrite seq_S, reverse_app. cbn [reverse app for_each].
    change (reverse [j + m]) with [j + m]. cbn [app for_each].
    unfold mbind, M_bind.
    replace (j + S m) with (S (j + m)) by lia.
    rewrite release_step by lia. apply IH; lia.
Qed.

Lemma deque_remove_last x l :
  x ∉ l → BlockManager.deque_remove x (l ++ [x]) = Some l.
Proof.
  induction l as [|y l IH]; intros Hx; simpl.
  - by rewrite decide_True.
  - apply not_elem_of_cons in Hx as [Hne Hx].
    rewrite decide_False by done. by rewrite IH.
Qed.

Lemma released_free_split n nb j :
  j < nb →
  seq nb (n - nb) ++ reverse (seq j (nb - j))
  = (seq nb (n - nb) ++ reverse (seq (S j) (nb - S j))) ++ [j].
Proof.
  intros Hj. rewrite <- app_assoc. f_equal.
  rewrite (seq_cons j (nb - j)) by lia. rewrite reverse_cons.
  do 3 f_equal. lia.
Qed.

(** A full logical block finds the block it had before on the free
    list and takes it back. *)
Lemma reclaim_step n tokens nb i (s : Sequence.t) :
  i < nb → nb ≤ n →
  is_full tokens i = true →
  Sequence.block block_size (Z.of_nat i) s = inr (chunk tokens i) →
  allocate_iter i (chain tokens i, false) (released_pool n tokens nb i, s)
  = (inr (chain tokens (S i), false),
     (released_pool n tokens nb (S i),
      Sequence.set_block_table (Sequence.block_table s ++ [i])
        (Sequence.set_num_cached_tokens
           (Sequence.num_cached_tokens s + block_size) s))).
Proof.
  intros Hi Hn Hf Hblk.
  assert (Hlen : length (chunk tokens i) = block_size).
  { unfold is_full in Hf. by apply bool_decide_eq_true in Hf. }
  assert (Hchain : compute_hash (chunk tokens i) (chain tokens i) = chain tokens (S i)).
  { by rewrite chain_S, Hf. }
  destruct (allocate_iter_reclaim_run (released_pool n tokens nb i) s i
              (chain tokens i) (chunk tokens i) i (rested_block tokens i i))
    as (free' & Hrm & Hrun); try done.
  - apply xxh64_sentinel_free.
  - rewrite Hchain. cbn [released_pool BlockManager.hash_to_block_id].
    by apply index_after_full.
  - by apply released_pool_lookup.
  - unfold rested_block, bound_block. simpl. by rewrite Hf.
  - unfold rested_block. simpl. by rewrite bool_decide_eq_false_2 by lia.
  - cbn [released_pool BlockManager.free_block_ids].
    rewrite released_free_split by done. apply elem_of_app. right. by left.
  - cbn [released_pool BlockManager.used_block_ids].
    rewrite used_after_elem by done. lia.
  - rewrite Hrun, Hchain. do 2 f_equal.
    cbn [released_pool BlockManager.free_block_ids] in Hrm.
    rewrite released_free_split, deque_remove_last in Hrm by
      (done || (rewrite elem_of_app, elem_of_reverse, !elem_of_seq; lia)).
    injection Hrm as <-.
    apply released_pool_intro.
    + pose proof (released_pool_blocks n tokens nb i (S i) Hi Hn ltac:(by right)) as H.
      rewrite decide_False in H by lia. rewrite <- H. f_equal.
      unfold rested_block, bound_block, Block.set_ref_count. simpl.
      rewrite (bool_decide_eq_true_2 (i < S i)) by lia.
      by rewrite Hf.
    + done.
    + done.
Qed.

Lemma reclaim_loop n tokens nb m : ∀ i (s : Sequence.t),
  i + m ≤ nb → nb ≤ n →
  (∀ x, x < i + m → is_full tokens x = true) →
  (∀ x, x < i + m →
     Sequence.block block_size (Z.of_nat x) s = inr (chunk tokens x)) →
  for_each allocate_iter (seq i m) (chain tokens i, false)
    (released_pool n tokens nb i, s)
  = (inr (chain tokens (i + m), false),
     (released_pool n tokens nb (i + m),
      Sequence.set_block_table (Sequence.block_table s ++ seq i m)
        (Sequence.set_num_cached_tokens
           (Sequence.num_cached_tokens s + m * block_size) s))).
Proof.
  induction m as [|m IH]; intros i s Him Hn Hfull Hblk.
  - simpl. rewrite !Nat.add_0_r, app_nil_r. by destruct s.
  - cbn [seq for_each]. unfold mbind, M_bind.
    rewrite reclaim_step; [|lia|done|apply Hfull; lia|apply Hblk; lia].
    rewrite IH; [|lia|done| |].
    + rewrite Nat.add_succ_r. do 2 f_equal.
      unfold Sequence.set_block_table, Sequence.set_num_cached_tokens.
      destruct s; simpl. f_equal; [lia|by rewrite <- app_assoc].
    + intros x Hx. apply Hfull. lia.
    + intros x Hx. rewrite <- (Hblk x) by lia. done.
Qed.

Lemma miss_ready_released n tokens nb j :
  j ≤ nb → nb ≤ n → miss_ready (released_pool n tokens nb j).
Proof.
  intros Hj Hn. repeat split.
  - intros h b [Hb _]%index_after_lookup. rewrite released_pool_lookup by done. eauto.
  - cbn [released_pool BlockManager.free_block_ids]. intros b.
    rewrite elem_of_app, elem_of_reverse, !elem_of_seq. intros [Hb|Hb].
    + exists (Block.__init__ b). split; [|done].
      apply released_pool_lookup_free. lia.
    + exists (rested_block tokens j b). split; [apply released_pool_lookup; lia|].
      unfold rested_block. simpl. by rewrite bool_decide_eq_false_2 by lia.
  - cbn [released_pool BlockManager.free_block_ids].
    apply NoDup_app. split; [apply NoDup_seq|]. split.
    + intros x. rewrite elem_of_reverse, !elem_of_seq. lia.
    + rewrite reverse_Permutation. apply NoDup_seq.
Qed.

Lemma partial_block_misses_released n tokens nb j k h :
  is_full tokens k = false →
  cache_hit (released_pool n tokens nb j)
    (block_hash (released_pool n tokens nb j) (chunk tokens k) h) (chunk tokens k)
  = false.
Proof.
  intros Hf. unfold cache_hit, block_hash.
  cbn [released_pool BlockManager.block_size].
  unfold is_full in Hf. rewrite Hf.
  destruct (BlockManager.hash_to_block_id _ !! _) as [b|] eqn:Hl; [|done].
  exfalso. cbn [released_pool BlockManager.hash_to_block_id] in Hl.
  apply index_after_lookup in Hl as (Hb & Hfb & Hh).
  symmetry in Hh. by apply chain_sentinel in Hh.
Qed.

(** A prompt is allocated on a fresh manager, released, and allocated
    again for a second sequence.  The release leaves no block in use;
    the second allocation takes every full block of the prompt back
    from the free list, the very blocks the first one had, and counts
    all their tokens as cached.  For a prompt of whole blocks the second
    sequence gets the same block table and the manager is in the state
    it was in after the first allocation. *)
Theorem release_then_reallocate
    (n : nat) (tokens : list Z) (sp1 sp2 : SamplingParams.t)
    (c1 c1' c2 c2' : nat) (s1 s2 : Sequence.t) :
  Sequence.__init__ tokens sp1 c1 = (inr s1, c1') →
  Sequence.__init__ tokens sp2 c2 = (inr s2, c2') →
  let nb := (length tokens + block_size - 1) / block_size in
  let full := length tokens / block_size in
  nb ≤ n →
  ∃ bm1 s1' bm2 s1'' bm3 s2',
    allocate (BlockManager.__init__ n block_size, s1) = (inr tt, (bm1, s1')) ∧
    BlockManager.deallocate (bm1, s1') = (inr tt, (bm2, s1'')) ∧
    allocate (bm2, s2) = (inr tt, (bm3, s2')) ∧
    BlockManager.used_block_ids bm2 = ∅ ∧
    BlockManager.free_block_ids bm2 ≡ₚ seq 0 n ∧
    Sequence.block_table s1'' = [] ∧
    length (Sequence.block_table s2') = nb ∧
    take full (Sequence.block_table s2') = take full (Sequence.block_table s1') ∧
    Sequence.num_cached_tokens s2' = full * block_size ∧
    (length tokens mod block_size = 0 →
     Sequence.block_table s2' = Sequence.block_table s1' ∧ bm3 = bm1).
Proof.
  intros Hs1 Hs2 nb full Hcap.
  destruct (init_shape _ _ _ _ _ Hs1) as (_ & Ht1 & Hn1 & _ & Hbt1).
  destruct (init_shape _ _ _ _ _ Hs2) as (_ & Ht2 & Hn2 & Hc2 & Hbt2).
  assert (Hnb1 : Sequence.num_blocks block_size s1 = inr nb).
  { rewrite num_blocks_spec by done. by rewrite Hn1. }
  assert (Hnb2 : Sequence.num_blocks block_size s2 = inr nb).
  { rewrite num_blocks_spec by done. by rewrite Hn2. }
  pose proof (Nat.div_mod (length tokens) block_size ltac:(lia)) as Hdm.
  pose proof (Nat.mod_upper_bound (length tokens) block_size ltac:(lia)) as Hub.
  fold full in Hdm.
  pose proof (ceil_div_bounds (length tokens) block_size_pos) as [Hup Hlow].
  fold nb in Hup, Hlow.
  assert (Hfn : full ≤ nb ∧ nb ≤ S full ∧
                (length tokens mod block_size = 0 → nb = full)).
  { destruct (decide (length tokens = 0)) as [Hz|Hnz].
    - assert (nb = 0) by (unfold nb; rewrite Hz; apply Nat.div_small; lia).
      assert (full = 0) by (unfold full; rewrite Hz; apply Nat.div_small; lia).
      lia.
    - destruct Hlow as [Hlow Hpos]; [lia|].
      split; [nia|]. split; [nia|]. intros Hz. rewrite Hz in Hdm. nia. }
  destruct Hfn as (Hf1 & Hf2 & Hf3).
  assert (Hfull : ∀ m, m < full → is_full tokens m = true).
  { intros m Hm. apply is_full_spec; [done|]. nia. }
  assert (Hblk2 : ∀ x, x < nb →
            Sequence.block block_size (Z.of_nat x) s2 = inr (chunk tokens x)).
  { intros x Hx. rewrite (block_chunk s2 nb x) by done. by rewrite Ht2. }
  (* the first allocation and the release *)
  pose proof (allocate_fresh xxh64_sentinel_free block_size_pos n s1 nb Hbt1 Hnb1 Hcap)
    as Hrun1.
  rewrite Ht1 in Hrun1.
  set (s1' := Sequence.set_block_table (seq 0 nb) s1) in *.
  assert (Hrel : BlockManager.deallocate (pool n tokens nb 0, s1')
                 = (inr tt, (released_pool n tokens nb 0,
                             Sequence.set_block_table []
                               (Sequence.set_num_cached_tokens 0 s1')))).
  { unfold BlockManager.deallocate, BlockManager.on_seq, zoom, gets, modify,
      mbind, M_bind. simpl.
    rewrite <- released_pool_all.
    pose proof (release_loop n tokens nb nb 0 s1' ltac:(lia) Hcap) as H.
    simpl in H. by rewrite H. }
  (* the second allocation: the full blocks *)
  set (s2k := Sequence.set_block_table (seq 0 full)
                (Sequence.set_num_cached_tokens (full * block_size) s2)).
  assert (Hhits : for_each allocate_iter (seq 0 full) ((-1)%Z, false)
                    (released_pool n tokens nb 0, s2)
                  = (inr (chain tokens full, false),
                     (released_pool n tokens nb full, s2k))).
  { pose proof (reclaim_loop n tokens nb full 0 s2 ltac:(lia) Hcap Hfull) as H.
    rewrite Hbt2, Hc2 in H. apply H. intros; apply Hblk2; lia. }
  assert (Hfree0 : BlockManager.free_block_ids (released_pool n tokens nb 0) ≡ₚ seq 0 n).
  { cbn [released_pool BlockManager.free_block_ids].
    rewrite Nat.sub_0_r, reverse_Permutation, Permutation_app_comm, <- seq_app.
    by replace (nb + (n - nb)) with n by lia. }
  destruct (decide (nb = full)) as [Heq|Hne].
  - exists (pool n tokens nb 0), s1', (released_pool n tokens nb 0),
      (Sequence.set_block_table [] (Sequence.set_num_cached_tokens 0 s1')),
      (released_pool n tokens nb full), s2k.
    split; [done|]. split; [done|]. split.
    { rewrite allocate_unfold, Hbt2, Hnb2. rewrite bool_decide_eq_true_2 by done.
      replace (seq 0 nb) with (seq 0 full) by (by rewrite Heq).
      by rewrite Hhits. }
    split; [done|]. split; [done|]. split; [done|].
    split; [simpl; rewrite length_seq; lia|].
    split; [simpl; by rewrite Heq|]. split; [done|].
    intros _. split; [simpl; by rewrite Heq|].
    rewrite <- Heq. apply released_pool_all.
  - assert (nb = S full) as HS by lia.
    assert (Hpart : is_full tokens full = false).
    { apply is_full_false; [done|].
      destruct (decide (length tokens mod block_size = 0)) as [Hz|]; [|nia].
      specialize (Hf3 Hz). lia. }
    assert (Hmiss : for_each allocate_iter (seq full (nb - full)) (chain tokens full, false)
                      (released_pool n tokens nb full, s2k)
                    = for_each allocate_iter (seq full (nb - full)) (chain tokens full, true)
                        (released_pool n tokens nb full, s2k)).
    { replace (nb - full) with 1 by lia. cbn [seq].
      apply (first_miss_loop _ _ _ _ _ (chunk tokens full)).
      - rewrite <- (Hblk2 full) by lia. done.
      - by apply partial_block_misses_released. }
    destruct (forced_loop_runs block_size_pos (seq full (nb - full)) (chain tokens full)
                (released_pool n tokens nb full) s2k) as (loc & st' & Hrest).
    { apply miss_ready_released; lia. }
    { cbn [released_pool BlockManager.free_block_ids].
      rewrite length_app, length_reverse, !length_seq. lia. }
    { intros i [Hi1 Hi2]%elem_of_seq. exists (chunk tokens i).
      rewrite <- (Hblk2 i) by lia. done. }
    pose proof (post_run _ _ _ _ _ Hrest (forced_loop _ _ _ _)) as Hpost.
    destruct loc as [h' cm']. destruct Hpost as (_ & Hbt' & Hlen' & _ & Hc' & _).
    simpl in Hbt', Hc', Hlen'. rewrite length_seq in Hbt', Hlen'.
    exists (pool n tokens nb 0), s1', (released_pool n tokens nb 0),
      (Sequence.set_block_table [] (Sequence.set_num_cached_tokens 0 s1')),
      st'.1, st'.2.
    split; [done|]. split; [done|]. split.
    { rewrite allocate_unfold, Hbt2, Hnb2.
      rewrite bool_decide_eq_true_2 by done.
      replace (seq 0 nb) with (seq 0 full ++ seq full (nb - full))
        by (rewrite <- seq_app; f_equal; lia).
      rewrite for_each_app, Hhits, Hmiss, Hrest.
      by destruct st'. }
    split; [done|]. split; [done|]. split; [done|].
    rewrite Hbt', Hc'.
    split.
    { rewrite length_app, length_seq, length_take. lia. }
    split.
    { rewrite take_app_length' by (by rewrite length_seq).
      simpl. rewrite take_seq. f_equal. lia. }
    split; [done|].
    intros Hz. specialize (Hf3 Hz). lia.
Qed.

End Reclaim.

End Manager.

(** * The configuration object *)

Section Configuration.
Variable isdir : String.string → bool.
Variable from_pretrained : String.string → exn + Config.HfConfig.

#[local] Abbreviation post_init := (Config.__post_init__ isdir from_pretrained).

Lemma post_init_unfold (c : Config.t) :
  post_init c
  = if isdir (Config.model c)
    then if bool_decide (Config.kvcache_block_size c `mod` 256 = 0)%Z
         then if bool_decide (1 ≤ Config.tensor_parallel_size c ≤ 8)%Z
              then match from_pretrained (Config.model c) with
                   | inl e => (inl e, c)
                   | inr hf =>
                       let c' := Config.set_max_model_len
                                   (Config.max_model_len c
                                    `min` Config.max_position_embeddings hf)%Z
                                   (Config.set_hf_config (Some hf) c) in
                       if bool_decide (Config.max_model_len c'
                                       ≤ Config.max_num_batched_tokens c')%Z
                       then (inr tt, c') else (inl AssertionError, c')
                   end
              else (inl AssertionError, c)
         else (inl AssertionError, c)
    else (inl AssertionError, c).
Proof.
  unfold Config.__post_init__, mbind, M_bind, mret, M_ret, raise, gets, modify,
    assert, lift_res. simpl.
  destruct (isdir (Config.model c)); simpl; [|done].
  case_bool_decide; simpl; [|done].
  case_bool_decide; simpl; [|done].
  destruct (from_pretrained (Config.model c)) as [e|hf]; simpl; [done|].
  by case_bool_decide.
Qed.

(** [__post_init__] returns exactly when the model path is a directory,
    the block size is a multiple of 256 (zero and negative multiples
    pass), the tensor-parallel size is between 1 and 8, the model
    configuration loads, and the smaller of [max_model_len] and the
    model's [max_position_embeddings] fits in [max_num_batched_tokens].
    The object then stores the loaded configuration and that smaller
    length, which is within both limits; the other fields are as
    given. *)
Theorem post_init_accepts (c : Config.t) :
  (∃ c', post_init c = (inr tt, c'))
  ↔ (isdir (Config.model c) = true ∧
     (Config.kvcache_block_size c `mod` 256 = 0)%Z ∧
     (1 ≤ Config.tensor_parallel_size c ≤ 8)%Z ∧
     ∃ hf, from_pretrained (Config.model c) = inr hf ∧
           let len := (Config.max_model_len c
                       `min` Config.max_position_embeddings hf)%Z in
           (len ≤ Config.max_num_batched_tokens c)%Z ∧
           post_init c
           = (inr tt,
              Config.set_max_model_len len (Config.set_hf_config (Some hf) c)) ∧
           (len ≤ Config.max_model_len c)%Z ∧
           (len ≤ Config.max_position_embeddings hf)%Z).
Proof.
  rewrite post_init_unfold. split.
  - intros [c' H].
    destruct (isdir (Config.model c)); [|done].
    case_bool_decide as Hbs; [|done].
    case_bool_decide as Htp; [|done].
    destruct (from_pretrained (Config.model c)) as [e|hf]; [done|].
    simpl in H. case_bool_decide as Hlen; [|done]. simpl in Hlen.
    split; [done|]. split; [done|]. split; [done|].
    exists hf. simpl. rewrite bool_decide_eq_true_2 by done.
    repeat split; try done; lia.
  - intros (-> & Hbs & Htp & hf & -> & Hlen & _).
    rewrite !bool_decide_eq_true_2 by done. simpl.
    rewrite bool_decide_eq_true_2 by done. eauto.
Qed.

(** A configuration that [__post_init__] accepted is accepted again and
    not changed: the stored length is already within the model's. *)
Theorem post_init_idempotent (c c' : Config.t) :
  post_init c = (inr tt, c') → post_init c' = (inr tt, c').
Proof.
  rewrite !post_init_unfold.
  destruct (isdir (Config.model c)) eqn:Hdir; [|done].
  case_bool_decide as Hbs; [|done].
  case_bool_decide as Htp; [|done].
  destruct (from_pretrained (Config.model c)) as [e|hf] eqn:Hfp; [done|].
  simpl. case_bool_decide as Hlen; [|done]. intros [= <-]. simpl.
  rewrite Hdir, Hfp. rewrite !bool_decide_eq_true_2 by done. simpl.
  rewrite Z.min_l by lia.
  rewrite bool_decide_eq_true_2 by done. done.
Qed.

(** With the defaults of the dataclass, every model whose directory
    exists and whose configuration loads is accepted, whatever context
    length the model declares: the default [max_num_batched_tokens]
    exceeds the default [max_model_len]. *)
Theorem defaults_accepted (model : String.string) (hf : Config.HfConfig) :
  isdir model = true →
  from_pretrained model = inr hf →
  post_init (Config.defaults model)
  = (inr tt,
     Config.set_max_model_len (4096 `min` Config.max_position_embeddings hf)%Z
       (Config.set_hf_config (Some hf) (Config.defaults model))).
Proof.
  intros Hdir Hfp. rewrite post_init_unfold. simpl. rewrite Hdir, Hfp. simpl.
  rewrite bool_decide_eq_true_2 by lia. done.
Qed.

End Configuration.

(** * Concrete runs *)

(** A collision-free digest for the examples: the code of the pair of
    inputs as a positive number. *)
Definition enc_hash (prefix : option Z) (token_ids : list Z) : Z :=
  Z.pos (encode (prefix, token_ids)).

Definition params : SamplingParams.t :=
  {| SamplingParams.temperature := 1%Q;
     SamplingParams.max_tokens := 64%Z;
     SamplingParams.ignore_eos := false |}.

(** The sequence [Sequence(token_ids)] built with identifier [seq_id]. *)
Definition new_seq (seq_id : nat) (token_ids : list Z) (last_token : Z) : Sequence.t :=
  {| Sequence.seq_id := seq_id;
     Sequence.status := Sequence.WAITING;
     Sequence.token_ids := token_ids;
     Sequence.last_token := last_token;
     Sequence.num_tokens := length token_ids;
     Sequence.num_prompt_tokens := length token_ids;
     Sequence.num_cached_tokens := 0;
     Sequence.block_table := [];
     Sequence.temperature := 1%Q;
     Sequence.max_tokens := 64%Z;
     Sequence.ignore_eos := false |}.

Definition seq_1234 : Sequence.t := new_seq 0 [1; 2; 3; 4]%Z 4%Z.
Definition seq_12 : Sequence.t := new_seq 0 [1; 2]%Z 2%Z.
Definition seq_3 : Sequence.t := new_seq 1 [3]%Z 3%Z.

(** One block of two tokens: [1, 2] allocated and released. *)
Definition holding_12 : BlockManager.t * Sequence.t :=
  (BlockManager.allocate enc_hash 2 (BlockManager.__init__ 1 2, seq_12)).2.

Definition released_12 : BlockManager.t :=
  (BlockManager.deallocate (holding_12.1, holding_12.2)).2.1.

(** Then [3] allocated: block 0 is reset, the index still names it. *)
Definition reused_by_3 : BlockManager.t :=
  (BlockManager.allocate enc_hash 2 (released_12, seq_3)).2.1.

Lemma enc_hash_sentinel_free p t : enc_hash p t ≠ (-1)%Z.
Proof. unfold enc_hash. lia. Qed.

Lemma enc_hash_collision_free p t p' t' :
  enc_hash p t = enc_hash p' t' → p = p' ∧ t = t'.
Proof.
  unfold enc_hash. intros H. injection H as H. apply (inj encode) in H.
  by injection H.
Qed.

Lemma new_seq_init seq_id token_ids last_token :
  last token_ids = Some last_token →
  Sequence.__init__ token_ids params seq_id = (inr (new_seq seq_id token_ids last_token), S seq_id).
Proof.
  intros H. unfold Sequence.__init__, mbind, M_bind, mret, M_ret, raise, gets, modify.
  simpl. by rewrite H.
Qed.

Lemma reachable_released_12 : reachable enc_hash 2 1 released_12.
Proof.
  apply (reach_deallocate enc_hash 2 1 holding_12.1 holding_12.2); [|done].
  apply (reach_allocate enc_hash 2 1 (BlockManager.__init__ 1 2) seq_12); [|done].
  apply reach_init.
Qed.

Lemma reachable_reused_by_3 : reachable enc_hash 2 1 reused_by_3.
Proof.
  apply (reach_allocate enc_hash 2 1 released_12 seq_3); [|done].
  apply reachable_released_12.
Qed.

Lemma getstate_setstate_roundtrip_witness :
  let seeded := Sequence.__setstate__ (Sequence.__getstate__ seq_12) seq_3 in
  Sequence.token_ids seeded = [1; 2]%Z ∧
  let '(sender, receiver, sent) := stream seq_12 seeded [7; 8]%Z in
  Sequence.token_ids sender = [1; 2; 7; 8]%Z ∧
  Sequence.token_ids receiver = Sequence.token_ids sender ∧
  Sequence.num_completion_tokens sender = 2%Z ∧
  snd <$> sent = [inr 7%Z; inr 8%Z].
Proof. apply (getstate_setstate_roundtrip seq_12 seq_3 [7; 8]%Z). reflexivity. Defined.


Lemma hit_on_freed_block_witness :
  ∃ free',
    BlockManager.deque_remove 0 (BlockManager.free_block_ids released_12) = Some free' ∧
    Sequence.block_table
      (BlockManager.allocate_iter enc_hash 2 0 ((-1)%Z, false) (released_12, seq_12)).2.2
    = [0] ∧
    Sequence.num_cached_tokens
      (BlockManager.allocate_iter enc_hash 2 0 ((-1)%Z, false) (released_12, seq_12)).2.2
    = 2.
Proof.
  pose proof (hit_on_freed_block enc_hash 2 released_12 seq_12 0 (-1)%Z [1; 2]%Z 0
                (Block.mk 0 0 (enc_hash None [1; 2]%Z) [1; 2]%Z)) as H.
  destruct H as (free' & Hrm & Hrun).
  - reflexivity.
  - reflexivity.
  - apply enc_hash_sentinel_free.
  - vm_compute. reflexivity.
  - reflexivity.
  - reflexivity.
  - reflexivity.
  - refine (proj1 (bool_decide_eq_true _) _). vm_compute. reflexivity.
  - refine (proj1 (bool_decide_eq_true _) _). vm_compute. reflexivity.
  - exists free'. rewrite Hrun. by repeat split.
Defined.


Lemma hash_only_on_full_blocks_witness :
  (∀ id blk, BlockManager.blocks reused_by_3 !! id = Some blk →
     Block.hash blk ≠ (-1)%Z → length (Block.token_ids blk) = 2) ∧
  (∀ id blk, BlockManager.blocks reused_by_3 !! id = Some blk →
     length (Block.token_ids blk) < 2 → Block.hash blk = (-1)%Z) ∧
  BlockManager.hash_to_block_id reused_by_3 !! (-1)%Z = None.
Proof.
  apply (hash_only_on_full_blocks enc_hash 2 1 reused_by_3).
  - apply enc_hash_sentinel_free.
  - apply reachable_reused_by_3.
Defined.

Lemma free_blocks_keep_their_tokens_witness :
  (∀ id blk, id ∈ BlockManager.free_block_ids released_12 →
     BlockManager.blocks released_12 !! id = Some blk →
     Block.token_ids blk = [] ∨ length (Block.token_ids blk) = 2) ∧
  Block.token_ids <$> BlockManager.blocks (BlockManager.deallocate (released_12, seq_12)).2.1
  = Block.token_ids <$> BlockManager.blocks released_12 ∧
  Block.hash <$> BlockManager.blocks (BlockManager.deallocate (released_12, seq_12)).2.1
  = Block.hash <$> BlockManager.blocks released_12.
Proof.
  apply (free_blocks_keep_their_tokens enc_hash 2 1 released_12 seq_12).
  apply reachable_released_12.
Defined.

(** C4 as stated fails: after [1, 2] was allocated and released, block
    0 is on the free list and still stores the two tokens. *)
Lemma free_block_with_tokens :
  ¬ (∀ bm, reachable enc_hash 2 1 bm →
       ∀ id blk, id ∈ BlockManager.free_block_ids bm →
         BlockManager.blocks bm !! id = Some blk →
         Block.token_ids blk = []).
Proof.
  intros H.
  specialize (H released_12 reachable_released_12 0
                (Block.mk 0 0 (enc_hash None [1; 2]%Z) [1; 2]%Z)).
  discriminate H.
  - refine (proj1 (bool_decide_eq_true _) _). vm_compute. reflexivity.
  - vm_compute. reflexivity.
Qed.

(** C7 as stated fails in its last part: after [1, 2] was allocated and
    released and [3] allocated, block 0 holds no token and carries the
    sentinel, and the index still maps the hash of [1, 2] to it. *)
Lemma stale_index_entry :
  ¬ (∀ bm, reachable enc_hash 2 1 bm →
       ∀ id blk, BlockManager.blocks bm !! id = Some blk →
         length (Block.token_ids blk) < 2 →
         Block.hash blk = (-1)%Z ∧
         ∀ h, BlockManager.hash_to_block_id bm !! h ≠ Some id).
Proof.
  intros H.
  destruct (H reused_by_3 reachable_reused_by_3 0 (Block.mk 0 1 (-1)%Z [])) as [_ H'].
  - vm_compute. reflexivity.
  - simpl. lia.
  - apply (H' (enc_hash None [1; 2]%Z)). vm_compute. reflexivity.
Qed.

(** The scenario of the design document: block size 4, four blocks,
    [A = 1..8] and [B = 1,2,3,4,9,9,9,9]. *)
Definition tokens_A : list Z := [1; 2; 3; 4; 5; 6; 7; 8]%Z.
Definition tokens_B : list Z := [1; 2; 3; 4; 9; 9; 9; 9]%Z.
Definition seq_A : Sequence.t := new_seq 0 tokens_A 8%Z.
Definition seq_B : Sequence.t := new_seq 1 tokens_B 9%Z.


Lemma bulk_and_incremental_agree_witness :
  ∃ bm bulk' bm' grown',
    BlockManager.allocate enc_hash 4 (BlockManager.__init__ 4 4, seq_A)
    = (inr tt, (bm, bulk')) ∧
    (BlockManager.allocate enc_hash 4;; grow enc_hash 4 [4; 5; 6; 7; 8]%Z)
      (BlockManager.__init__ 4 4, new_seq 1 [1; 2; 3]%Z 3%Z)
    = (inr tt, (bm', grown')) ∧
    Sequence.token_ids bulk' = Sequence.token_ids grown' ∧
    Sequence.block_table bulk' = Sequence.block_table grown' ∧
    Block.hash <$> BlockManager.blocks bm = Block.hash <$> BlockManager.blocks bm' ∧
    bm = bm'.
Proof.
  apply (bulk_and_incremental_agree enc_hash 4 enc_hash_sentinel_free ltac:(lia)
           4 [1; 2; 3]%Z [4; 5; 6; 7; 8]%Z params 0 1 1 2
           seq_A (new_seq 1 [1; 2; 3]%Z 3%Z)).
  - lia.
  - reflexivity.
  - reflexivity.
  - vm_compute. lia.
Defined.

(** Both sequences of the scenario are allocated, then released. *)
Lemma ref_counts_conserved_witness :
  ∃ sys',
    run enc_hash 4 [Allocate 0; Allocate 1; Deallocate 0; Deallocate 1]
      {| manager := BlockManager.__init__ 4 4; sequences := [seq_A; seq_B] |}
    = (inr tt, sys') ∧
    length (BlockManager.blocks (manager sys')) = 4 ∧
    (∀ id blk, BlockManager.blocks (manager sys') !! id = Some blk →
               Block.ref_count blk = 0%Z) ∧
    BlockManager.used_block_ids (manager sys') = ∅ ∧
    BlockManager.free_block_ids (manager sys') ≡ₚ seq 0 4.
Proof.
  apply (ref_counts_conserved enc_hash 4 4 (BlockManager.__init__ 4 4)
           [seq_A; seq_B] [Allocate 0; Allocate 1; Deallocate 0; Deallocate 1]).
  - apply pool_inv_fresh.
  - repeat constructor.
  - vm_compute. reflexivity.
  - refine (proj1 (bool_decide_eq_true _) _). vm_compute. reflexivity.
Defined.

(** A warm cache: [B] was allocated on the fresh manager and released;
    its two blocks are free again and still indexed. *)
Definition holding_B : BlockManager.t * Sequence.t :=
  (BlockManager.allocate enc_hash 4 (BlockManager.__init__ 4 4, seq_B)).2.

Definition released_B : BlockManager.t :=
  (BlockManager.deallocate (holding_B.1, holding_B.2)).2.1.



(** What the two calls leave in that run. *)
Example warm_cache_run :
  let st1 := (BlockManager.allocate enc_hash 4 (released_B, seq_A)).2 in
  let st2 := (BlockManager.allocate enc_hash 4 (st1.1, seq_B)).2 in
  BlockManager.free_block_ids released_B = [2; 3; 1; 0] ∧
  Sequence.block_table st1.2 = [0; 2] ∧
  Sequence.block_table st2.2 = [0; 1] ∧
  Sequence.num_cached_tokens st2.2 = 8.
Proof. vm_compute. repeat split. Qed.
(** ** Runs for the further properties *)

(** [1, 2] held on a manager of two blocks of size 2. *)
Definition held_12 : BlockManager.t * Sequence.t :=
  (BlockManager.allocate enc_hash 2 (BlockManager.__init__ 2 2, seq_12)).2.

Definition model_dir : String.string := String.EmptyString.
Definition any_dir (_ : String.string) : bool := true.
Definition loads_2048 (_ : String.string) : exn + Config.HfConfig :=
  inr (Config.mk_hf 2048).

Lemma held_12_run :
  BlockManager.allocate enc_hash 2 (BlockManager.__init__ 2 2, seq_12)
  = (inr tt, (held_12.1, held_12.2)).
Proof. vm_compute. reflexivity. Qed.

Lemma held_12_inv :
  pool_inv 2 (λ id, 0 + count_occ Nat.eq_dec (Sequence.block_table held_12.2) id)
    held_12.1.
Proof.
  destruct (allocate_inv enc_hash 2 2 (λ _, 0) (BlockManager.__init__ 2 2) seq_12 1)
    as (bm' & s' & Hrun & Hinv); [apply pool_inv_fresh|done|done|simpl; lia|].
  rewrite held_12_run in Hrun. by injection Hrun as <- <-.
Qed.

Lemma held_12_ids i blk :
  BlockManager.blocks held_12.1 !! i = Some blk → Block.block_id blk = i.
Proof.
  destruct i as [|[|i]]; vm_compute; intros H; by simplify_eq.
Qed.

Lemma prompt_and_completion_witness :
  let s' := foldl (λ s t, Sequence.append_token t s) seq_12 [7; 8]%Z in
  Sequence.token_ids s' = [1; 2]%Z ++ [7; 8]%Z ∧
  Sequence.prompt_token_ids s' = [1; 2]%Z ∧
  Sequence.completion_token_ids s' = [7; 8]%Z ∧
  Sequence.num_completion_tokens s' = Z.of_nat (length [7; 8]%Z) ∧
  Sequence.len s' = length [1; 2]%Z + length [7; 8]%Z ∧
  last ([1; 2]%Z ++ [7; 8]%Z) = Some (Sequence.last_token s') ∧
  Sequence.seq_id s' = 0 ∧
  Sequence.is_finished s' = false.
Proof.
  apply (prompt_and_completion [1; 2]%Z params 0 1 seq_12 [7; 8]%Z). reflexivity.
Defined.

Lemma blocks_partition_witness :
  ∃ cs : list (list Z),
    Sequence.num_blocks 4 seq_A = inr (length cs) ∧
    concat cs = Sequence.token_ids seq_A ∧
    (∀ i c, cs !! i = Some c →
       Sequence.block 4 (Z.of_nat i) seq_A = inr c ∧
       1 ≤ length c ≤ 4 ∧
       (S i < length cs → length c = 4) ∧
       (S i = length cs →
        Sequence.last_block_num_tokens 4 seq_A = inr (Z.of_nat (length c)))) ∧
    (∀ i : Z, (i < 0 ∨ Z.of_nat (length cs) ≤ i)%Z →
       Sequence.block 4 i seq_A = inl AssertionError).
Proof. apply (blocks_partition 4 seq_A); [lia|reflexivity]. Defined.

Lemma can_allocate_sound_witness :
  ∃ bm' s',
    BlockManager.allocate enc_hash 4 (BlockManager.__init__ 4 4, seq_A)
    = (inr tt, (bm', s')) ∧
    pool_inv 4 (λ id, 0 + count_occ Nat.eq_dec (Sequence.block_table s') id) bm' ∧
    Sequence.num_blocks 4 seq_A = inr (length (Sequence.block_table s')) ∧
    (∀ b, b ∈ Sequence.block_table s' →
          b < 4 ∧ b ∈ BlockManager.used_block_ids bm') ∧
    length (BlockManager.free_block_ids (BlockManager.__init__ 4 4))
    ≤ length (BlockManager.free_block_ids bm') + length (Sequence.block_table s') ∧
    Sequence.token_ids s' = Sequence.token_ids seq_A.
Proof.
  apply (can_allocate_sound enc_hash 4 4 (λ _, 0) (BlockManager.__init__ 4 4) seq_A).
  - apply pool_inv_fresh.
  - reflexivity.
  - vm_compute. reflexivity.
Defined.

Lemma deallocate_sound_witness :
  ∃ bm' released,
    BlockManager.deallocate (held_12.1, held_12.2)
    = (inr tt, (bm', Sequence.set_block_table []
                       (Sequence.set_num_cached_tokens 0 held_12.2))) ∧
    pool_inv 2 (λ _, 0) bm' ∧
    BlockManager.free_block_ids bm' = BlockManager.free_block_ids held_12.1 ++ released ∧
    (∀ x, x ∈ released ↔ x ∈ Sequence.block_table held_12.2 ∧ 0 = 0) ∧
    BlockManager.hash_to_block_id bm' = BlockManager.hash_to_block_id held_12.1 ∧
    Block.token_ids <$> BlockManager.blocks bm'
    = Block.token_ids <$> BlockManager.blocks held_12.1 ∧
    Block.hash <$> BlockManager.blocks bm' = Block.hash <$> BlockManager.blocks held_12.1.
Proof.
  apply (deallocate_sound 2 (λ _, 0) held_12.1 held_12.2). apply held_12_inv.
Defined.

Lemma release_without_reference_witness :
  ∃ bm',
    BlockManager.deallocate_iter 0 tt (BlockManager.__init__ 1 2, seq_12)
    = (inr tt, (bm', seq_12)) ∧
    BlockManager.blocks bm'
    = <[0 := Block.set_ref_count (Block.ref_count (Block.__init__ 0) - 1)
               (Block.__init__ 0)]>
        (BlockManager.blocks (BlockManager.__init__ 1 2)) ∧
    BlockManager.free_block_ids bm'
    = BlockManager.free_block_ids (BlockManager.__init__ 1 2) ∧
    BlockManager.used_block_ids bm'
    = BlockManager.used_block_ids (BlockManager.__init__ 1 2) ∧
    BlockManager.hash_to_block_id bm'
    = BlockManager.hash_to_block_id (BlockManager.__init__ 1 2) ∧
    BlockManager._allocate_block 0 bm' = (inl AssertionError, bm').
Proof.
  apply (release_without_reference 0 (Block.__init__ 0) (BlockManager.__init__ 1 2) seq_12).
  - reflexivity.
  - simpl. lia.
Defined.

(** One block for a prompt of two: [allocate] raises with block 0
    bound, and [deallocate] takes it back. *)
Lemma allocate_then_deallocate_witness :
  ∃ r bm' s' bm'' s'',
    BlockManager.allocate enc_hash 4 (BlockManager.__init__ 1 4, seq_A)
    = (r, (bm', s')) ∧
    pool_inv 1 (λ id, 0 + count_occ Nat.eq_dec (Sequence.block_table s') id) bm' ∧
    Sequence.token_ids s' = Sequence.token_ids seq_A ∧
    match r with
    | inr _ => Sequence.num_blocks 4 seq_A = inr (length (Sequence.block_table s'))
    | inl e =>
        e = IndexError ∧ BlockManager.free_block_ids bm' = [] ∧
        ∃ nb, Sequence.num_blocks 4 seq_A = inr nb ∧
              length (Sequence.block_table s') < nb
    end ∧
    BlockManager.deallocate (bm', s') = (inr tt, (bm'', s'')) ∧
    pool_inv 1 (λ _, 0) bm'' ∧
    Sequence.block_table s'' = [].
Proof.
  apply (allocate_then_deallocate enc_hash 4 1 (λ _, 0) (BlockManager.__init__ 1 4) seq_A).
  - lia.
  - apply pool_inv_fresh.
  - reflexivity.
Defined.

Example allocate_without_room :
  BlockManager.allocate enc_hash 4 (BlockManager.__init__ 1 4, seq_A)
  = (inl IndexError,
     ((BlockManager.allocate enc_hash 4 (BlockManager.__init__ 1 4, seq_A)).2.1,
      Sequence.set_block_table [0] seq_A)).
Proof. vm_compute. reflexivity. Qed.

(** [1, 2] is held and a third token arrives: a new block. *)
Lemma may_append_all_or_nothing_witness :
  let s := Sequence.append_token 7 held_12.2 in
  ∃ r bm' s',
    BlockManager.may_append enc_hash 2 (held_12.1, s) = (r, (bm', s')) ∧
    match r with
    | inl _ => bm' = held_12.1 ∧ s' = s
    | inr _ =>
        Sequence.token_ids s' = Sequence.token_ids s ∧
        (∀ i blk, BlockManager.blocks bm' !! i = Some blk → Block.block_id blk = i) ∧
        ((Sequence.len s mod BlockManager.block_size held_12.1 = 1 ∧
          ∃ b, BlockManager.free_block_ids held_12.1
               = b :: BlockManager.free_block_ids bm' ∧
               s' = Sequence.set_block_table (Sequence.block_table s ++ [b]) s ∧
               pool_inv 2
                 (bump b (λ id, 0 + count_occ Nat.eq_dec
                                      (Sequence.block_table held_12.2) id)) bm')
         ∨ (Sequence.len s mod BlockManager.block_size held_12.1 ≠ 1 ∧
            s' = s ∧
            BlockManager.free_block_ids bm' = BlockManager.free_block_ids held_12.1 ∧
            BlockManager.used_block_ids bm' = BlockManager.used_block_ids held_12.1 ∧
            pool_inv 2 (λ id, 0 + count_occ Nat.eq_dec
                                    (Sequence.block_table held_12.2) id) bm'))
    end.
Proof.
  apply (may_append_all_or_nothing enc_hash 2 2 _ held_12.1
           (Sequence.append_token 7 held_12.2)).
  - apply enc_hash_sentinel_free.
  - apply held_12_inv.
  - apply held_12_ids.
Defined.

Example may_append_new_block_run :
  (BlockManager.may_append enc_hash 2 (held_12.1, Sequence.append_token 7 held_12.2)).1
  = inr tt ∧
  Sequence.block_table
    (BlockManager.may_append enc_hash 2
       (held_12.1, Sequence.append_token 7 held_12.2)).2.2 = [0; 1].
Proof. vm_compute. done. Qed.

Lemma reachable_layout_witness :
  BlockManager.block_size reused_by_3 = 2 ∧
  length (BlockManager.blocks reused_by_3) = 1 ∧
  (∀ i blk, BlockManager.blocks reused_by_3 !! i = Some blk → Block.block_id blk = i) ∧
  NoDup (BlockManager.free_block_ids reused_by_3) ∧
  (∀ id, id < 1 ↔ id ∈ BlockManager.free_block_ids reused_by_3
                  ∨ id ∈ BlockManager.used_block_ids reused_by_3) ∧
  (∀ id, id ∈ BlockManager.free_block_ids reused_by_3 →
         id ∉ BlockManager.used_block_ids reused_by_3) ∧
  (∀ h id, BlockManager.hash_to_block_id reused_by_3 !! h = Some id →
           is_Some (BlockManager.blocks reused_by_3 !! id)).
Proof. apply (reachable_layout enc_hash 2 1 reused_by_3), reachable_reused_by_3. Defined.

Lemma cached_tokens_bound_witness :
  ∃ r bm' s' k,
    BlockManager.allocate enc_hash 4 (BlockManager.__init__ 4 4, seq_A)
    = (r, (bm', s')) ∧
    Sequence.num_cached_tokens s' = Sequence.num_cached_tokens seq_A + k * 4 ∧
    k * 4 ≤ Sequence.num_tokens seq_A ∧
    (∀ nb, Sequence.num_blocks 4 seq_A = inr nb → k ≤ nb) ∧
    (0 < 4 → Sequence.num_cached_tokens seq_A = 0 →
     Sequence.num_cached_blocks 4 s' = inr k) ∧
    Sequence.token_ids s' = Sequence.token_ids seq_A.
Proof.
  apply (cached_tokens_bound enc_hash 4 (BlockManager.__init__ 4 4) seq_A);
    reflexivity.
Defined.

(** Sequences cut in blocks of 4 on a manager of blocks of 8. *)
Lemma mismatched_block_size_never_caches_witness :
  BlockManager.hash_to_block_id
    (BlockManager.allocate enc_hash 4 (BlockManager.__init__ 4 8, seq_A)).2.1
  = BlockManager.hash_to_block_id (BlockManager.__init__ 4 8) ∧
  Sequence.num_cached_tokens
    (BlockManager.allocate enc_hash 4 (BlockManager.__init__ 4 8, seq_A)).2.2
  = Sequence.num_cached_tokens seq_A ∧
  BlockManager.block_size
    (BlockManager.allocate enc_hash 4 (BlockManager.__init__ 4 8, seq_A)).2.1
  = BlockManager.block_size (BlockManager.__init__ 4 8).
Proof.
  apply (mismatched_block_size_never_caches enc_hash 4 (BlockManager.__init__ 4 8) seq_A).
  - simpl. lia.
  - reflexivity.
Defined.

Lemma same_prompt_twice_witness :
  let nb := (length tokens_A + 4 - 1) / 4 in
  let full := length tokens_A / 4 in
  ∃ bm1 s1' bm2 s2',
    BlockManager.allocate enc_hash 4 (BlockManager.__init__ 2 4, seq_A)
    = (inr tt, (bm1, s1')) ∧
    BlockManager.allocate enc_hash 4 (bm1, new_seq 1 tokens_A 8%Z)
    = (inr tt, (bm2, s2')) ∧
    Sequence.block_table s1' = seq 0 nb ∧
    Sequence.block_table s2' = seq 0 full ++ seq nb (nb - full) ∧
    Sequence.num_cached_tokens s2' = full * 4 ∧
    BlockManager.can_allocate 4 (bm1, new_seq 1 tokens_A 8%Z)
    = (inr (bool_decide (2 * nb ≤ 2)), (bm1, new_seq 1 tokens_A 8%Z)) ∧
    (length tokens_A mod 4 = 0 →
     Sequence.block_table s2' = Sequence.block_table s1' ∧
     Sequence.num_cached_tokens s2' = Sequence.num_tokens s2' ∧
     BlockManager.free_block_ids bm2 = BlockManager.free_block_ids bm1).
Proof.
  apply (same_prompt_twice enc_hash 4 enc_hash_sentinel_free ltac:(lia)
           enc_hash_collision_free 2 tokens_A params params 0 1 1 2
           seq_A (new_seq 1 tokens_A 8%Z)).
  - reflexivity.
  - reflexivity.
  - vm_compute. lia.
Defined.

Lemma release_then_reallocate_witness :
  let nb := (length tokens_A + 4 - 1) / 4 in
  let full := length tokens_A / 4 in
  ∃ bm1 s1' bm2 s1'' bm3 s2',
    BlockManager.allocate enc_hash 4 (BlockManager.__init__ 4 4, seq_A)
    = (inr tt, (bm1, s1')) ∧
    BlockManager.deallocate (bm1, s1') = (inr tt, (bm2, s1'')) ∧
    BlockManager.allocate enc_hash 4 (bm2, new_seq 1 tokens_A 8%Z)
    = (inr tt, (bm3, s2')) ∧
    BlockManager.used_block_ids bm2 = ∅ ∧
    BlockManager.free_block_ids bm2 ≡ₚ seq 0 4 ∧
    Sequence.block_table s1'' = [] ∧
    length (Sequence.block_table s2') = nb ∧
    take full (Sequence.block_table s2') = take full (Sequence.block_table s1') ∧
    Sequence.num_cached_tokens s2' = full * 4 ∧
    (length tokens_A mod 4 = 0 →
     Sequence.block_table s2' = Sequence.block_table s1' ∧ bm3 = bm1).
Proof.
  apply (release_then_reallocate enc_hash 4 enc_hash_sentinel_free ltac:(lia)
           enc_hash_collision_free 4 tokens_A params params 0 1 1 2
           seq_A (new_seq 1 tokens_A 8%Z)).
  - reflexivity.
  - reflexivity.
  - vm_compute. lia.
Defined.

Lemma new_block_test_witness :
  ∃ nb,
    Sequence.num_blocks 4 seq_1234 = inr nb ∧
    Sequence.num_blocks 4 (Sequence.append_token 5 seq_1234)
    = inr (if bool_decide (4 = 1) then S nb
           else nb + (if bool_decide
                           (Sequence.len (Sequence.append_token 5 seq_1234) mod 4 = 1)
                      then 1 else 0)) ∧
    (4 = 1 → Sequence.len (Sequence.append_token 5 seq_1234) mod 4 ≠ 1).
Proof. apply (new_block_test 4 5%Z seq_1234). lia. Defined.

Lemma decode_step_keeps_table_witness :
  let st' := (decode_step enc_hash 2 7 tt (held_12.1, held_12.2)).2 in
  Sequence.token_ids st'.2 = Sequence.token_ids held_12.2 ++ [7%Z] ∧
  Sequence.last_token st'.2 = 7%Z ∧
  Sequence.len st'.2 = S (Sequence.len held_12.2) ∧
  Sequence.num_blocks 2 st'.2 = inr (length (Sequence.block_table st'.2)) ∧
  pool_inv 2 (λ id, 0 + count_occ Nat.eq_dec (Sequence.block_table st'.2) id) st'.1 ∧
  (∀ i blk, BlockManager.blocks st'.1 !! i = Some blk → Block.block_id blk = i).
Proof.
  apply (decode_step_keeps_table enc_hash 2 2 (λ _, 0) 7%Z held_12.1 _ held_12.2 _).
  - lia.
  - reflexivity.
  - apply enc_hash_sentinel_free.
  - apply held_12_ids.
  - apply held_12_inv.
  - reflexivity.
  - vm_compute. reflexivity.
Defined.

Lemma post_init_idempotent_witness :
  let c' := (Config.__post_init__ any_dir loads_2048 (Config.defaults model_dir)).2 in
  Config.__post_init__ any_dir loads_2048 c' = (inr tt, c').
Proof.
  apply (post_init_idempotent any_dir loads_2048 (Config.defaults model_dir)).
  reflexivity.
Defined.

Lemma defaults_accepted_witness :
  Config.__post_init__ any_dir loads_2048 (Config.defaults model_dir)
  = (inr tt,
     Config.set_max_model_len (4096 `min` 2048)%Z
       (Config.set_hf_config (Some (Config.mk_hf 2048))
          (Config.defaults model_dir))).
Proof.
  apply (defaults_accepted any_dir loads_2048 model_dir (Config.mk_hf 2048));
    reflexivity.
Defined.

(** [A] and [B] are allocated, [A] gets a token, [B] is released. *)
Lemma ref_counts_track_tables_witness :
  let sys' := (schedule enc_hash 4
                 [OpAllocate 0; OpAllocate 1; OpDecode 0 9; OpDeallocate 1]
                 {| manager := BlockManager.__init__ 4 4;
                    sequences := [seq_A; seq_B] |}).2 in
  length (BlockManager.blocks (manager sys')) = 4 ∧
  (∀ id blk, BlockManager.blocks (manager sys') !! id = Some blk →
     Block.ref_count blk = Z.of_nat (references (sequences sys') id)) ∧
  (∀ id, id ∈ BlockManager.free_block_ids (manager sys')
         ↔ id < 4 ∧ references (sequences sys') id = 0) ∧
  (∀ id, id ∈ BlockManager.used_block_ids (manager sys')
         ↔ id < 4 ∧ references (sequences sys') id ≠ 0) ∧
  (∀ id, 4 ≤ id → references (sequences sys') id = 0).
Proof.
  apply (ref_counts_track_tables enc_hash 4 4 [seq_A; seq_B]
           [OpAllocate 0; OpAllocate 1; OpDecode 0 9; OpDeallocate 1]).
  - apply enc_hash_sentinel_free.
  - repeat constructor.
Defined.

Example schedule_run :
  let out := schedule enc_hash 4
               [OpAllocate 0; OpAllocate 1; OpDecode 0 9; OpDeallocate 1]
               {| manager := BlockManager.__init__ 4 4;
                  sequences := [seq_A; seq_B] |} in
  out.1 = inr tt ∧
  Sequence.block_table <$> sequences out.2 = [[0; 1; 3]; []] ∧
  BlockManager.free_block_ids (manager out.2) = [2] ∧
  Block.ref_count <$> BlockManager.blocks (manager out.2) = [1; 1; 0; 1]%Z.
Proof. vm_compute. done. Qed.

Lemma referenced_content_stable_witness :
  ∃ blk,
    BlockManager.blocks held_12.1 !! 0 = Some blk ∧
    keeps_block 0 blk (BlockManager.allocate enc_hash 2 (held_12.1, seq_12)).2.1 ∧
    (Block.hash blk ≠ (-1)%Z →
     BlockManager.blocks (BlockManager.may_append enc_hash 2 (held_12.1, seq_12)).2.1 !! 0
     = Some blk).
Proof.
  eexists. split; [vm_compute; reflexivity|].
  apply (referenced_content_stable enc_hash 2 held_12.1 seq_12 0);
    vm_compute; reflexivity.
Defined.

(** The second allocation of [1, 2] shares block 0, which keeps its tokens
    and is counted twice. *)
Example shared_block_run :
  (λ b, (Block.token_ids b, Block.ref_count b)) <$>
    BlockManager.blocks (BlockManager.allocate enc_hash 2 (held_12.1, seq_12)).2.1
  = [([1; 2]%Z, 2%Z); ([], 0%Z)].
Proof. vm_compute. reflexivity. Qed.
